(** * durmz: look-ahead sequencer, audio-engine dispatch and voice bookkeeping

    A shallow embedding of the TypeScript sources

    - [types/pattern.ts]            (Pattern, Track, StepData),
    - [synthesis/Sequencer.ts]      (class [Sequencer]),
    - [synthesis/AudioEngine.ts]    (class [AudioEngine], the parts the
                                     sequencer calls),
    - [synthesis/engines/BaseDrumSynth.ts], [KickSynth.ts], [HiHatSynth.ts]
                                    (voice creation and [voice.stop]),
    - [synthesis/AudioEngine.ts]    (module [Engine]: the engine with its
                                     synthesizer instances),
    - [synthesis/engines/SnareSynth.ts], [ClapSynth.ts], [TomSynth.ts],
      [RimSynth.ts], [PercSynth.ts] (voice creation, with the exceptions
                                     of the parameter automation),
    - [store/usePatternStore.ts]    (the pattern store and its actions),
    - [utils/patternStorage.ts]     (class [PatternStorage]),
    - [App.tsx]                     ([initializeAudio]),
    - [components/SynthControls/SynthControls.tsx], [Knob.tsx]
                                    (the handlers of the controls).

    Conventions.

    - A JavaScript [number] is idealised as an exact rational ([Qc], the
      canonical rationals, so that equality is Leibniz equality).  IEEE
      rounding, NaN and the infinities are outside the model; in
      particular [x / 0] is [0] here, so statements that divide by [bpm]
      are read for [bpm <> 0].
    - Step indices and [pattern.steps] are integers in the source's use
      (16 or 32 steps); they are [nat] here and [%] is [Nat.modulo].
    - The global singletons [sequencer] and [audioEngine], the browser
      timers, the console and [Math.random] form one explicit state
      ([Sys]) that every method threads through a small state-and-error
      monad. *)

From Stdlib Require Import QArith Qcanon Qround ZArith List Lqa.
From stdpp Require Import gmap strings list numbers sorting.

Local Open Scope Qc_scope.

(** ** Numbers *)

Module Num.

(** [a < b] on numbers, as a boolean. *)
Definition ltb (x y : Qc) : bool :=
  match x ?= y with Lt => true | _ => false end.

(** [a > b]. *)
Definition gtb (x y : Qc) : bool := ltb y x.

(** [Math.max(a, b)]. *)
Definition max (x y : Qc) : Qc := if ltb x y then y else x.

(** Integer literals. *)
Definition int (z : Z) : Qc := Q2Qc (inject_Z z).

(** Decimal literals: [dec 0.05] is the number written [0.05]. *)
Definition dec (q : Q) : Qc := Q2Qc q.
Arguments dec q%_Q.

(** [a ?? b] where [a] may be [undefined]. *)
Definition nullish {A : Type} (a : option A) (b : A) : A :=
  match a with Some x => x | None => b end.

End Num.

Notation "60" := (Num.int 60) : Qc_scope.
Notation "4" := (Num.int 4) : Qc_scope.
Notation "10" := (Num.int 10) : Qc_scope.
Notation "25" := (Num.int 25) : Qc_scope.
Notation "127" := (Num.int 127) : Qc_scope.
Notation "1000" := (Num.int 1000) : Qc_scope.
Notation "100" := (Num.int 100) : Qc_scope.

(** ** types/pattern.ts *)

(** [SynthParameters]: an object used as a map from parameter name to
    number ([[key: string]: number]). *)
Abbreviation SynthParameters := (gmap string Qc).

Module StepData.
Record t : Type := mk {
  active : bool;
  velocity : Qc;                         (* 0-127 *)
  probability : Qc;                      (* 0-1 *)
  microTiming : Qc;                      (* -20 to +20ms *)
  parameters : option SynthParameters    (* parameters?: Partial<SynthParameters> *)
}.
End StepData.

Module Track.
Record t : Type := mk {
  id : string;
  name : string;
  synthType : string;
  volume : Qc;                           (* 0-1 *)
  mute : bool;
  solo : bool;
  steps : list StepData.t;
  synthParams : SynthParameters
}.
End Track.

Module Pattern.
Record t : Type := mk {
  id : string;
  name : string;
  bpm : Qc;
  swing : Qc;                            (* 0-1 *)
  tracks : list Track.t;
  steps : nat;                           (* 16 or 32 steps *)
  created : Qc;
  version : Qc
}.
End Pattern.

(** ** The state of the program *)

(** [AudioContext]: only its clock is read by the code modelled here. *)
Record AudioContext : Type := { currentTime : Qc }.

(** One call [synth.trigger(time, velocity, params)] received by the
    synthesizer registered under [call_synth]. *)
Record SynthCall : Type := {
  call_synth : string;
  call_time : Qc;
  call_velocity : Qc;
  call_params : option SynthParameters
}.

(** [class AudioEngine].  [synths] keeps the keys of the
    [Map<string, BaseDrumSynth>]; what each synthesizer receives is
    recorded in [calls], oldest first. *)
Record AudioEngine : Type := {
  context : option AudioContext;
  initialized : bool;
  synths : gset string;
  calls : list SynthCall
}.

(** The step callback [(step: number) => void] is an opaque function of the
    caller; it is identified by a name. *)
Definition Callback : Type := nat.

(** [class Sequencer].  The fields [lookahead] and [scheduleAheadTime] are
    initialised once and never assigned: they are the constants below. *)
Record Sequencer : Type := {
  isPlaying : bool;
  currentStep : nat;
  nextStepTime : Qc;
  timerID : option nat;
  pattern : option Pattern.t;
  onStepCallback : option Callback
}.

Definition lookahead : Qc := 25.          (* ms *)
Definition scheduleAheadTime : Qc := Num.dec 0.1. (* seconds *)

Inductive LogEntry : Type :=
| LogInfo (msg : string)
| LogWarn (msg : string)
| LogError (msg : string).

(** A pending [setTimeout(() => onStepCallback(step), uiDelay)]. *)
Record Timeout : Type := {
  to_callback : Callback;
  to_step : nat;
  to_delay : Qc
}.

(** Everything the sequencer code reads or writes. *)
Record Sys : Type := {
  sequencer : Sequencer;                 (* the global [sequencer] *)
  audioEngine : AudioEngine;       (* the global [audioEngine] *)
  random : nat -> Qc;              (* the values [Math.random()] will return *)
  drawn : nat;                     (* how many of them were consumed *)
  console : list LogEntry;         (* oldest first *)
  timeouts : list Timeout;         (* oldest first *)
  intervals : gset nat;            (* handles of the running [setInterval]s *)
  handles : nat                    (* next timer handle *)
}.

Definition set_sequencer (f : Sequencer -> Sequencer) (s : Sys) : Sys :=
  {| sequencer := f (sequencer s); audioEngine := audioEngine s; random := random s;
     drawn := drawn s; console := console s; timeouts := timeouts s;
     intervals := intervals s; handles := handles s |}.

Definition set_audioEngine (f : AudioEngine -> AudioEngine) (s : Sys) : Sys :=
  {| sequencer := sequencer s; audioEngine := f (audioEngine s); random := random s;
     drawn := drawn s; console := console s; timeouts := timeouts s;
     intervals := intervals s; handles := handles s |}.

Definition set_drawn (n : nat) (s : Sys) : Sys :=
  {| sequencer := sequencer s; audioEngine := audioEngine s; random := random s;
     drawn := n; console := console s; timeouts := timeouts s;
     intervals := intervals s; handles := handles s |}.

Definition set_console (f : list LogEntry -> list LogEntry) (s : Sys) : Sys :=
  {| sequencer := sequencer s; audioEngine := audioEngine s; random := random s;
     drawn := drawn s; console := f (console s); timeouts := timeouts s;
     intervals := intervals s; handles := handles s |}.

Definition set_timeouts (f : list Timeout -> list Timeout) (s : Sys) : Sys :=
  {| sequencer := sequencer s; audioEngine := audioEngine s; random := random s;
     drawn := drawn s; console := console s; timeouts := f (timeouts s);
     intervals := intervals s; handles := handles s |}.

Definition set_intervals (f : gset nat -> gset nat) (h : nat) (s : Sys) : Sys :=
  {| sequencer := sequencer s; audioEngine := audioEngine s; random := random s;
     drawn := drawn s; console := console s; timeouts := timeouts s;
     intervals := f (intervals s); handles := h |}.

(** ** The monad of the methods: state, exceptions, divergence *)

Inductive Result (A : Type) : Type :=
| Ret (a : A) (s : Sys)          (* normal return *)
| Throw (e : string) (s : Sys)   (* an exception leaves the method *)
| Hang.                          (* the loop bound was exhausted *)
Arguments Ret {A} a s.
Arguments Throw {A} e s.
Arguments Hang {A}.

Definition M (A : Type) : Type := Sys -> Result A.

Definition ret {A : Type} (a : A) : M A := fun s => Ret a s.

Definition bind {A B : Type} (c : M A) (k : A -> M B) : M B :=
  fun s =>
    match c s with
    | Ret a s' => k a s'
    | Throw e s' => Throw e s'
    | Hang => Hang
    end.

Definition throw {A : Type} (e : string) : M A := fun s => Throw e s.

Notation "'let!' x ':=' c1 'in' c2" := (bind c1 (fun x => c2))
  (at level 10, x binder, c1 at level 100, c2 at level 200).

(** [Array.prototype.forEach]. *)
Fixpoint forEach {A : Type} (f : A -> M unit) (l : list A) : M unit :=
  match l with
  | [] => ret tt
  | x :: l' => let! _ := f x in forEach f l'
  end.

(** ** Browser services *)

Definition Math_random : M Qc :=
  fun s => Ret (random s (drawn s)) (set_drawn (S (drawn s)) s).

Definition console_put (e : LogEntry) : M unit :=
  fun s => Ret tt (set_console (fun l => l ++ [e]) s).

Definition setTimeout (cb : Callback) (step : nat) (delay : Qc) : M unit :=
  fun s =>
    Ret tt (set_timeouts
              (fun l => l ++ [{| to_callback := cb; to_step := step;
                                 to_delay := delay |}]) s).

Definition setInterval : M nat :=
  fun s =>
    Ret (handles s) (set_intervals (fun i => {[handles s]} ∪ i) (S (handles s)) s).

Definition clearInterval (h : nat) : M unit :=
  fun s => Ret tt (set_intervals (fun i => i ∖ {[h]}) (handles s) s).

(** ** synthesis/AudioEngine.ts *)

(** [this.context?.currentTime ?? 0]. *)
Definition clock (s : Sys) : Qc :=
  match context (audioEngine s) with
  | Some ctx => currentTime ctx
  | None => 0
  end.

(** [getCurrentTime()]. *)
Definition getCurrentTime : M Qc := fun s => Ret (clock s) s.

(** [isInitialized()]. *)
Definition isInitialized : M bool :=
  fun s => Ret (initialized (audioEngine s)) s.

Definition record_call (c : SynthCall) (e : AudioEngine) : AudioEngine :=
  {| context := context e; initialized := initialized e;
     synths := synths e; calls := calls e ++ [c] |}.

(** [triggerDrum(synthType, velocity, params)]. *)
Definition triggerDrum (synthType : string) (velocity : Qc)
    (params : option SynthParameters) : M unit :=
  fun s =>
    let e := audioEngine s in
    match context e with
    | Some ctx =>
        if negb (initialized e) then
          console_put (LogWarn "Audio engine not initialized") s
        else if negb (bool_decide (synthType ∈ synths e)) then
          console_put (LogWarn ("Synth type not found: " ++ synthType)) s
        else
          let time := currentTime ctx in
          Ret tt (set_audioEngine
                    (record_call {| call_synth := synthType;
                                    call_time := time;
                                    call_velocity := velocity / 127;
                                    call_params := params |}) s)
    | None => console_put (LogWarn "Audio engine not initialized") s
    end.

(** ** synthesis/Sequencer.ts *)

(** The object spread [{...a, ...b}]: where [b] has a key it wins. *)
Definition spread (a : SynthParameters) (b : option SynthParameters)
  : SynthParameters :=
  match b with
  | Some o => o ∪ a
  | None => a
  end.

(** The body of [this.pattern.tracks.forEach((track) => ...)] in
    [scheduleStep]. *)
Definition scheduleTrack (hasSolo : bool) (step : nat) (track : Track.t)
  : M unit :=
  match Track.steps track !! step with
  | None => throw "TypeError: stepData is undefined"
  | Some stepData =>
      if negb (StepData.active stepData) then ret tt
      else if Track.mute track then ret tt
      else if hasSolo && negb (Track.solo track) then ret tt
      else
        let! r := Math_random in
        if Num.gtb r (StepData.probability stepData) then ret tt
        else
          let velocity := StepData.velocity stepData * Track.volume track in
          let triggerParams :=
            spread (Track.synthParams track) (StepData.parameters stepData) in
          triggerDrum (Track.synthType track) velocity (Some triggerParams)
  end.

(** [private scheduleStep(step, time)]. *)
Definition scheduleStep (step : nat) (time : Qc) : M unit :=
  fun s =>
    match pattern (sequencer s) with
    | None => Ret tt s
    | Some p =>
        (let! _ :=
           match onStepCallback (sequencer s) with
           | Some cb =>
               let! now := getCurrentTime in
               let uiDelay := Num.max 0 ((time - now) * 1000 - 10) in
               setTimeout cb step uiDelay
           | None => ret tt
           end in
         let hasSolo := existsb Track.solo (Pattern.tracks p) in
         forEach (scheduleTrack hasSolo step) (Pattern.tracks p)) s
    end.

Definition secondsPerStep (p : Pattern.t) : Qc :=
  let secondsPerBeat := 60 / Pattern.bpm p in
  secondsPerBeat / 4.

Definition swingOffset (p : Pattern.t) (step : nat) : Qc :=
  if (step mod 2 =? 1)%nat && Num.gtb (Pattern.swing p) 0
  then secondsPerStep p * Pattern.swing p * Num.dec 0.5
  else 0.

(** [private nextStep()]. *)
Definition nextStep : M unit :=
  fun s =>
    match pattern (sequencer s) with
    | None => Ret tt s
    | Some p =>
        Ret tt (set_sequencer
                  (fun q =>
                     {| isPlaying := isPlaying q;
                        currentStep := (currentStep q + 1) mod Pattern.steps p;
                        nextStepTime :=
                          nextStepTime q
                          + (secondsPerStep p + swingOffset p (currentStep q));
                        timerID := timerID q;
                        pattern := pattern q;
                        onStepCallback := onStepCallback q |}) s)
    end.

(** The body of the [while] loop of [schedule]:
    [this.scheduleStep(this.currentStep, this.nextStepTime); this.nextStep();] *)
Definition loopBody : M unit :=
  fun s =>
    (let! _ := scheduleStep (currentStep (sequencer s))
                            (nextStepTime (sequencer s)) in
     nextStep) s.

(** The [while] loop of [schedule], unrolled at most [fuel] times. *)
Fixpoint scheduleLoop (fuel : nat) (now : Qc) : M unit :=
  fun s =>
    if Num.ltb (nextStepTime (sequencer s)) (now + scheduleAheadTime) then
      match fuel with
      | O => Hang
      | S fuel' => (let! _ := loopBody in scheduleLoop fuel' now) s
      end
    else Ret tt s.

(** A number of iterations after which the accumulator has left the
    look-ahead window, when every step advances it by at least
    [secondsPerStep p > 0]. *)
Definition loopBound (p : Pattern.t) (next now : Qc) : nat :=
  Z.to_nat
    (Qceiling (this ((now + scheduleAheadTime - next) / secondsPerStep p)%Qc)).

(** [private schedule()]. *)
Definition schedule : M unit :=
  fun s =>
    match pattern (sequencer s) with
    | None => Ret tt s
    | Some p =>
        if negb (isPlaying (sequencer s)) then Ret tt s
        else
          (let! now := getCurrentTime in
           scheduleLoop (loopBound p (nextStepTime (sequencer s)) now) now) s
    end.

(** [start(pattern, onStep?)]. *)
Definition start (p : Pattern.t) (onStep : option Callback) : M unit :=
  fun s =>
    if isPlaying (sequencer s) then Ret tt s
    else
      (let! ready := isInitialized in
       if negb ready then console_put (LogError "Audio engine not initialized")
       else
         let! now := getCurrentTime in
         let! _ := (fun s => Ret tt (set_sequencer (fun q =>
                      {| isPlaying := true;
                         currentStep := 0;
                         nextStepTime := now;
                         timerID := timerID q;
                         pattern := Some p;
                         onStepCallback := onStep |}) s)) in
         let! _ := schedule in
         let! h := setInterval in
         let! _ := (fun s => Ret tt (set_sequencer (fun q =>
                      {| isPlaying := isPlaying q;
                         currentStep := currentStep q;
                         nextStepTime := nextStepTime q;
                         timerID := Some h;
                         pattern := pattern q;
                         onStepCallback := onStepCallback q |}) s)) in
         console_put (LogInfo "Sequencer started")) s.

(** [stop()]. *)
Definition stop : M unit :=
  fun s =>
    if negb (isPlaying (sequencer s)) then Ret tt s
    else
      (let! _ := (fun s => Ret tt (set_sequencer (fun q =>
                    {| isPlaying := false;
                       currentStep := 0;
                       nextStepTime := nextStepTime q;
                       timerID := timerID q;
                       pattern := pattern q;
                       onStepCallback := onStepCallback q |}) s)) in
       let! _ := (fun s =>
                    match timerID (sequencer s) with
                    | Some h =>
                        (let! _ := clearInterval h in
                         fun s => Ret tt (set_sequencer (fun q =>
                           {| isPlaying := isPlaying q;
                              currentStep := currentStep q;
                              nextStepTime := nextStepTime q;
                              timerID := None;
                              pattern := pattern q;
                              onStepCallback := onStepCallback q |}) s)) s
                    | None => Ret tt s
                    end) in
       console_put (LogInfo "Sequencer stopped")) s.

(** [updatePattern(pattern)]. *)
Definition updatePattern (p : Pattern.t) : M unit :=
  fun s => Ret tt (set_sequencer (fun q =>
    {| isPlaying := isPlaying q;
       currentStep := currentStep q;
       nextStepTime := nextStepTime q;
       timerID := timerID q;
       pattern := Some p;
       onStepCallback := onStepCallback q |}) s).

Definition getCurrentStep : M nat := fun s => Ret (currentStep (sequencer s)) s.

(** The state a computation leaves behind, whether it returned or raised. *)
Definition state_of {A : Type} (r : Result A) : option Sys :=
  match r with
  | Ret _ s => Some s
  | Throw _ s => Some s
  | Hang => None
  end.

(** The invariants of a pattern the scheduler relies on (the tempo is
    positive, there is at least one step, every track has one [StepData]
    per step). *)
Definition wf_pattern (p : Pattern.t) : Prop :=
  0 < Pattern.bpm p
  /\ (0 < Pattern.steps p)%nat
  /\ Forall (fun track => length (Track.steps track) = Pattern.steps p)
            (Pattern.tracks p).

(** The audio clock reads [clock] (where there is an [AudioContext]). *)
Definition set_clock (clock : Qc) (s : Sys) : Sys :=
  set_audioEngine
    (fun e =>
       {| context := match context e with
                     | Some _ => Some {| currentTime := clock |}
                     | None => None
                     end;
          initialized := initialized e; synths := synths e;
          calls := calls e |}) s.

(** The callback of [window.setInterval(() => this.schedule(), ...)] runs
    when the audio clock reads [clock]; a cleared interval no longer
    fires. *)
Definition tick (clock : Qc) : M unit :=
  fun s =>
    match timerID (sequencer s) with
    | Some h =>
        if bool_decide (h ∈ intervals s) then schedule (set_clock clock s)
        else Ret tt s
    | None => Ret tt s
    end.

(** The interval fires [n] times, [lookahead] ms apart, the [k]-th time
    at [k * 0.025] seconds. *)
Fixpoint ticks (n k : nat) : M unit :=
  match n with
  | O => ret tt
  | S n' =>
      let! _ := tick (Num.int (Z.of_nat k) * (lookahead / 1000)) in
      ticks n' (S k)
  end.

(** [body] repeated [n] times. *)
Fixpoint repeatM (n : nat) (body : M unit) : M unit :=
  match n with
  | O => ret tt
  | S n' => let! _ := body in repeatM n' body
  end.

(** ** Test patterns *)

Module Scenario.

Definition stepOff : StepData.t :=
  StepData.mk false 100 1 0 None.

Definition stepOn : StepData.t :=
  StepData.mk true 100 1 0 None.

Definition track (synthType : string) (steps : list StepData.t) : Track.t :=
  Track.mk synthType synthType synthType 1 false false steps ∅.

Definition silent (synthType : string) : Track.t :=
  track synthType (replicate 16 stepOff).

(** The kick on steps 0, 4, 8 and 12 at velocity 100, all else inactive. *)
Definition kickSteps : list StepData.t :=
  [stepOn; stepOff; stepOff; stepOff; stepOn; stepOff; stepOff; stepOff;
   stepOn; stepOff; stepOff; stepOff; stepOn; stepOff; stepOff; stepOff].

Definition fourOnTheFloor (swing : Qc) : Pattern.t :=
  Pattern.mk "p1" "four on the floor" (Num.int 120) swing
    (track "kick" kickSteps
       :: map silent ["snare"; "hihat"; "clap"; "rim"; "tom"; "perc1"; "perc2"])
    16 0 1.

(** The engine after [initialize()], its clock reading [clock]. *)
Definition engine (clock : Qc) : AudioEngine :=
  {| context := Some {| currentTime := clock |};
     initialized := true;
     synths := list_to_set ["kick"; "snare"; "hihat"; "clap"; "rim"; "tom";
                            "perc1"; "perc2"];
     calls := [] |}.

(** [new Sequencer()]. *)
Definition newSequencer : Sequencer :=
  {| isPlaying := false; currentStep := 0; nextStepTime := 0;
     timerID := None; pattern := None; onStepCallback := None |}.

(** A fresh page: the engine initialised, [Math.random()] returning
    [draw k] at its [k]-th call. *)
Definition fresh (clock : Qc) (draw : nat -> Qc) : Sys :=
  {| sequencer := newSequencer; audioEngine := engine clock;
     random := draw; drawn := 0; console := []; timeouts := [];
     intervals := ∅; handles := 1 |}.

(** [start] at clock 0, then the interval timer every 25 ms until the 16
    steps of the pattern have been scheduled (72 ticks: step 15 is due at
    1.875 s and enters the 100 ms window at the tick of 1.8 s), then
    [stop]. *)
Definition playOnce (p : Pattern.t) : Result unit :=
  (let! _ := start p None in
   let! _ := ticks 72 1 in
   stop) (fresh 0 (fun _ => Num.dec 0.5)).

(** What the synthesizers received, as (synth, time) pairs, when the run
    returned. *)
Definition dispatched (r : Result unit) : option (list (string * Q)) :=
  match r with
  | Ret _ s => Some (map (fun c => (call_synth c, this (call_time c)))
                         (calls (audioEngine s)))
  | _ => None
  end.

(** A pattern whose only active step is step 0 of the kick track, with
    the given probability. *)
Definition oneShot (probability : Qc) : Pattern.t :=
  Pattern.mk "p2" "one shot" (Num.int 120) 0
    (track "kick" (StepData.mk true 100 probability 0 None
                     :: replicate 15 stepOff)
       :: map silent ["snare"; "hihat"; "clap"; "rim"; "tom"; "perc1"; "perc2"])
    16 0 1.

(** A kick track whose step 0 overrides [pitch] and whose step 1 has no
    overrides. *)
Definition overriding : Pattern.t :=
  Pattern.mk "p3" "override" (Num.int 120) 0
    (Track.mk "t1" "Kick" "kick" 1 false false
       (StepData.mk true 100 1 0 (Some {[ "pitch" := Num.int 999 ]})
          :: stepOn :: replicate 14 stepOff)
       {[ "pitch" := 60; "decay" := Num.dec 0.5 ]}
       :: map silent ["snare"; "hihat"; "clap"; "rim"; "tom"; "perc1"; "perc2"])
    16 0 1.

(** The sequencer just after [start] set its fields, before its first
    [schedule()]: playing, cursor 0, accumulator at the clock. *)
Definition startedWith (p : Pattern.t) (clock : Qc) (draw : nat -> Qc) : Sys :=
  set_sequencer
    (fun q => {| isPlaying := true; currentStep := 0; nextStepTime := clock;
                 timerID := timerID q; pattern := Some p;
                 onStepCallback := None |})
    (fresh clock draw).

Definition started (p : Pattern.t) (clock : Qc) : Sys :=
  startedWith p clock (fun _ => Num.dec 0.5).

(** The state a call left, [d] if it did not come back. *)
Definition after (r : Result unit) (d : Sys) : Sys :=
  match r with
  | Ret _ s => s
  | Throw _ s => s
  | Hang => d
  end.

(** The parameter objects the synthesizers received, read at [key]. *)
Definition received (key : string) (s : Sys) : list (string * option Q) :=
  map (fun c => (call_synth c,
                 this <$> (call_params c ≫= (fun o => o !! key))))
      (calls (audioEngine s)).

(** The accumulator after [k] rounds of the scheduling loop's body, i.e.
    the [(step, time)] the [k]-th call of [scheduleStep] gets. *)
Definition accumulator (p : Pattern.t) (k : nat) : option (nat * Q) :=
  match repeatM k loopBody (started p 0) with
  | Ret _ s => Some (currentStep (sequencer s), this (nextStepTime (sequencer s)))
  | _ => None
  end.

End Scenario.

(** ** The Web Audio nodes the synthesizers build

    The browser's audio nodes are not code of this repository.  Of their
    behaviour the model keeps what the voice bookkeeping depends on: a
    node can be connected, a source node ([OscillatorNode],
    [AudioBufferSourceNode]) is started and stopped at a time, and
    [start]/[stop] raise an exception when called with a negative time or
    in the wrong state.  Setting filter and gain curves is not modelled. *)

Module WebAudio.

Inductive Completion (A : Type) : Type :=
| Normal (a : A)
| Abrupt (e : string).
Arguments Normal {A} a.
Arguments Abrupt {A} e.

Inductive NodeKind : Type :=
| OscillatorNode
| AudioBufferSourceNode
| GainNode
| BiquadFilterNode
| WaveShaperNode.

(** [node instanceof AudioScheduledSourceNode]. *)
Definition isAudioScheduledSourceNode (k : NodeKind) : bool :=
  match k with
  | OscillatorNode | AudioBufferSourceNode => true
  | _ => false
  end.

Record AudioNode : Type := {
  kind : NodeKind;
  startedAt : option Qc;
  stopAt : option Qc;
  connected : bool
}.

Definition create (k : NodeKind) : AudioNode :=
  {| kind := k; startedAt := None; stopAt := None; connected := false |}.

Definition connect (n : AudioNode) : AudioNode :=
  {| kind := kind n; startedAt := startedAt n; stopAt := stopAt n;
     connected := true |}.

Definition disconnect (n : AudioNode) : AudioNode :=
  {| kind := kind n; startedAt := startedAt n; stopAt := stopAt n;
     connected := false |}.

(** [node.start(when)]. *)
Definition node_start (when : Qc) (n : AudioNode) : Completion AudioNode :=
  if Num.ltb when 0 then Abrupt "RangeError"
  else match startedAt n with
       | Some _ => Abrupt "InvalidStateError"
       | None =>
           Normal {| kind := kind n; startedAt := Some when;
                     stopAt := stopAt n; connected := connected n |}
       end.

(** [node.stop(when)]: the last accepted call decides the stop time. *)
Definition node_stop (when : Qc) (n : AudioNode) : Completion AudioNode :=
  if Num.ltb when 0 then Abrupt "RangeError"
  else match startedAt n with
       | None => Abrupt "InvalidStateError"
       | Some _ =>
           Normal {| kind := kind n; startedAt := startedAt n;
                     stopAt := Some when; connected := connected n |}
       end.

(** [try { c } catch (e) { }] around an update of [n]. *)
Definition try_catch (c : Completion AudioNode) (n : AudioNode) : AudioNode :=
  match c with
  | Normal n' => n'
  | Abrupt _ => n
  end.

End WebAudio.

(** ** synthesis/engines/BaseDrumSynth.ts *)

Module BaseDrumSynth.
Import WebAudio.

(** [interface DrumVoice].  The [stop] method is a closure; what it
    captures besides [nodes] and the voice itself is the hi-hat's
    [chokeGroup] constant, kept in [captured_chokeGroup] ([None] for the
    synthesizers that have no choke groups). *)
Record DrumVoice : Type := {
  nodes : list AudioNode;
  startTime : Qc;
  endTime : Qc;
  captured_chokeGroup : option Qc
}.

(** A call the synthesizer made on the source nodes of a voice, or the
    teardown of the voice's graph. *)
Inductive AudioEvent : Type :=
| SourceStart (voice : nat) (when : Qc)
| SourceStop (voice : nat) (when : Qc)
| GraphDisconnect (voice : nat).

(** [abstract class BaseDrumSynth].  Voices are objects compared by
    identity: [heap] maps a voice's address to the object, [voices] is the
    [Set<DrumVoice>] of addresses.  [now] is [this.context.currentTime]. *)
Record t : Type := {
  now : Qc;
  parameters : gmap string Qc;
  voices : gset nat;
  heap : gmap nat DrumVoice;
  fresh : nat;                       (* next address *)
  cleanups : list (nat * Qc);        (* pending [setTimeout]: voice, delay in ms *)
  trace : list AudioEvent;           (* oldest first *)
  output_connected : bool            (* [this.outputNode] is connected *)
}.

(** [setParameter(param, value)]. *)
Definition setParameter (param : string) (value : Qc) (s : t) : t :=
  {| now := now s; parameters := <[param := value]> (parameters s);
     voices := voices s; heap := heap s; fresh := fresh s;
     cleanups := cleanups s; trace := trace s;
     output_connected := output_connected s |}.

(** [getParameter(param, defaultValue)]. *)
Definition getParameter (param : string) (defaultValue : Qc) (s : t) : Qc :=
  Num.nullish (parameters s !! param) defaultValue.

(** [params?.name ?? this.getParameter(name, default)]. *)
Definition param (params : option SynthParameters) (name : string)
    (defaultValue : Qc) (s : t) : Qc :=
  Num.nullish (params ≫= (fun o => o !! name)) (getParameter name defaultValue s).

(** The body of [nodes.forEach(node => ...)] in every [voice.stop]. *)
Definition stop_node (stopTime : Qc) (node : AudioNode) : AudioNode :=
  let node1 :=
    if isAudioScheduledSourceNode (kind node)
    then try_catch (node_stop stopTime node) node   (* // Already stopped *)
    else node in
  disconnect node1.

(** The [AudioEvent]s of [nodes.forEach(...)] in [voice.stop]. *)
Definition stop_events (v : nat) (stopTime : Qc) (ns : list AudioNode)
  : list AudioEvent :=
  omap (fun node =>
          if isAudioScheduledSourceNode (kind node)
          then Some (SourceStop v stopTime) else None) ns
  ++ [GraphDisconnect v].

(** [nodes.forEach(node => ...)] of [voice.stop] on the voice object. *)
Definition stop_nodes (stopTime : Qc) (voice : DrumVoice) : DrumVoice :=
  {| nodes := map (stop_node stopTime) (nodes voice);
     startTime := startTime voice; endTime := endTime voice;
     captured_chokeGroup := captured_chokeGroup voice |}.

(** The [stop] closure of the voices made by [KickSynth], [SnareSynth],
    [ClapSynth], [RimSynth], [TomSynth] and [PercSynth]:
    stop and disconnect the nodes, then [this.voices.delete(voice)].
    Nothing in it can raise: the only call that may is inside the
    [try]. *)
Definition voice_stop (v : nat) (stopTime : Qc) (s : t) : Completion t :=
  let ns := default [] (nodes <$> heap s !! v) in
  Normal {| now := now s; parameters := parameters s;
            voices := voices s ∖ {[v]};
            heap := alter (stop_nodes stopTime) v (heap s);
            fresh := fresh s; cleanups := cleanups s;
            trace := trace s ++ stop_events v stopTime ns;
            output_connected := output_connected s |}.

(** [this.voices.add(voice)] for a new object, and the auto-cleanup
    [setTimeout(..., (endTime - this.context.currentTime) * 1000 + 100)]. *)
Definition add_voice (voice : DrumVoice) (s : t) : t :=
  {| now := now s; parameters := parameters s;
     voices := {[fresh s]} ∪ voices s;
     heap := <[fresh s := voice]> (heap s);
     fresh := S (fresh s);
     cleanups := cleanups s ++ [(fresh s, (endTime voice - now s) * 1000 + 100)];
     trace := trace s;
     output_connected := output_connected s |}.

Definition log_event (e : AudioEvent) (s : t) : t :=
  {| now := now s; parameters := parameters s; voices := voices s;
     heap := heap s; fresh := fresh s; cleanups := cleanups s;
     trace := trace s ++ [e]; output_connected := output_connected s |}.

(** What a method leaves behind: it returns, or an exception leaves it
    with the state as it was when raised. *)
Inductive Outcome (S : Type) : Type :=
| Done (s : S)
| Raised (e : string) (s : S).
Arguments Done {S} s.
Arguments Raised {S} e s.

(** The state an [Outcome] carries. *)
Definition outcome_state {S : Type} (o : Outcome S) : S :=
  match o with
  | Done s => s
  | Raised _ s => s
  end.

End BaseDrumSynth.

(** ** synthesis/engines/KickSynth.ts *)

Module KickSynth.
Import WebAudio BaseDrumSynth.

(** [initializeDefaultParameters()]. *)
Definition initializeDefaultParameters : gmap string Qc :=
  {[ "pitch" := 60; "decay" := Num.dec 0.5; "tone" := Num.dec 0.5;
     "subLevel" := Num.dec 0.8; "clickLevel" := Num.dec 0.3;
     "pitchDecay" := Num.dec 0.05; "saturation" := Num.dec 0.3 ]}.

(** [new KickSynth(context)]. *)
Definition new (clock : Qc) : BaseDrumSynth.t :=
  {| now := clock; parameters := initializeDefaultParameters;
     voices := ∅; heap := ∅; fresh := 0; cleanups := [];
     trace := []; output_connected := false |}.

(** [trigger(time, velocity, params)]. *)
Definition trigger (time velocity : Qc) (params : option SynthParameters)
    (s : BaseDrumSynth.t) : Outcome BaseDrumSynth.t :=
  let decay := param params "decay" (Num.dec 0.5) s in
  let subOsc := connect (create OscillatorNode) in
  let subGain := connect (create GainNode) in
  let clickOsc := connect (create OscillatorNode) in
  let clickGain := connect (create GainNode) in
  let clickFilter := connect (create BiquadFilterNode) in
  let saturationNode := connect (create WaveShaperNode) in
  let masterGain := connect (create GainNode) in
  (* subOsc.start(time); clickOsc.start(time); *)
  match node_start time subOsc with
  | Abrupt e => Raised e s
  | Normal subOsc =>
  let s := log_event (SourceStart (fresh s) time) s in
  match node_start time clickOsc with
  | Abrupt e => Raised e s
  | Normal clickOsc =>
  let s := log_event (SourceStart (fresh s) time) s in
  let endTime := time + decay + Num.dec 0.1 in
  (* subOsc.stop(endTime); clickOsc.stop(endTime); *)
  match node_stop endTime subOsc with
  | Abrupt e => Raised e s
  | Normal subOsc =>
  match node_stop endTime clickOsc with
  | Abrupt e => Raised e s
  | Normal clickOsc =>
  let voice :=
    {| nodes := [subOsc; subGain; clickOsc; clickFilter; clickGain;
                 saturationNode; masterGain];
       startTime := time; endTime := endTime;
       captured_chokeGroup := None |} in
  Done (add_voice voice s)
  end end end end.

(** The auto-cleanup callback:
    [if (this.voices.has(voice)) voice.stop(this.context.currentTime)]. *)
Definition cleanup (v : nat) (s : BaseDrumSynth.t) : Completion BaseDrumSynth.t :=
  if bool_decide (v ∈ voices s) then voice_stop v (now s) s else Normal s.

End KickSynth.

(** ** synthesis/engines/HiHatSynth.ts *)

Module HiHatSynth.
Import WebAudio BaseDrumSynth.

(** [class HiHatSynth extends BaseDrumSynth]. *)
Record t : Type := {
  base : BaseDrumSynth.t;
  noiseBuffer : bool;                  (* [this.noiseBuffer] is not null *)
  activeChokeGroup : gmap Qc nat       (* [Map<number, DrumVoice>] *)
}.

Definition initializeDefaultParameters : gmap string Qc :=
  {[ "pitch" := Num.int 8000; "decay" := Num.dec 0.05; "tone" := Num.dec 0.7;
     "color" := Num.int 8000; "metallic" := Num.dec 0.6; "chokeGroup" := 0 ]}.

(** [new HiHatSynth(context)]: the constructor creates the noise buffer. *)
Definition new (clock : Qc) : t :=
  {| base := {| now := clock; parameters := initializeDefaultParameters;
                voices := ∅; heap := ∅; fresh := 0; cleanups := [];
                trace := []; output_connected := false |};
     noiseBuffer := true;
     activeChokeGroup := ∅ |}.

(** The [stop] closure of a hi-hat voice: as [BaseDrumSynth.voice_stop],
    then
    [if (this.activeChokeGroup.get(chokeGroup) === voice)
       this.activeChokeGroup.delete(chokeGroup)]. *)
Definition voice_stop (v : nat) (stopTime : Qc) (s : t) : Completion t :=
  match BaseDrumSynth.voice_stop v stopTime (base s) with
  | Abrupt e => Abrupt e
  | Normal b =>
      let acg :=
        match heap (base s) !! v ≫= captured_chokeGroup with
        | Some chokeGroup =>
            if bool_decide (activeChokeGroup s !! chokeGroup = Some v)
            then delete chokeGroup (activeChokeGroup s)
            else activeChokeGroup s
        | None => activeChokeGroup s
        end in
      Normal {| base := b; noiseBuffer := noiseBuffer s;
                activeChokeGroup := acg |}
  end.

Definition set_base (b : BaseDrumSynth.t) (s : t) : t :=
  {| base := b; noiseBuffer := noiseBuffer s;
     activeChokeGroup := activeChokeGroup s |}.

Definition set_activeChokeGroup (m : gmap Qc nat) (s : t) : t :=
  {| base := base s; noiseBuffer := noiseBuffer s; activeChokeGroup := m |}.

(** The first part of [trigger]: "Handle choke groups (stop previous hi-hat
    in same group)". *)
Definition choke (chokeGroup time : Qc) (s : t) : Outcome t :=
  match activeChokeGroup s !! chokeGroup with
  | Some previousVoice =>
      match voice_stop previousVoice time s with
      | Abrupt e => Raised e s
      | Normal s' =>
          Done (set_activeChokeGroup (delete chokeGroup (activeChokeGroup s')) s')
      end
  | None => Done s
  end.

(** [trigger(time, velocity, params)]. *)
Definition trigger (time velocity : Qc) (params : option SynthParameters)
    (s : t) : Outcome t :=
  let decay := param params "decay" (Num.dec 0.05) (base s) in
  let chokeGroup := param params "chokeGroup" 0 (base s) in
  match choke chokeGroup time s with
  | Raised e s => Raised e s
  | Done s =>
  if negb (noiseBuffer s) then Done s
  else
  let noiseSource := connect (create AudioBufferSourceNode) in
  let filter1 := connect (create BiquadFilterNode) in
  let filter2 := connect (create BiquadFilterNode) in
  let filter3 := connect (create BiquadFilterNode) in
  let hpFilter := connect (create BiquadFilterNode) in
  let envGain := connect (create GainNode) in
  let outputGain := connect (create GainNode) in
  (* noiseSource.start(time); *)
  match node_start time noiseSource with
  | Abrupt e => Raised e s
  | Normal noiseSource =>
  let s := set_base (log_event (SourceStart (fresh (base s)) time) (base s)) s in
  let endTime := time + decay + Num.dec 0.05 in
  (* noiseSource.stop(endTime); *)
  match node_stop endTime noiseSource with
  | Abrupt e => Raised e s
  | Normal noiseSource =>
  let voice :=
    {| nodes := [noiseSource; filter1; filter2; filter3; hpFilter;
                 envGain; outputGain];
       startTime := time; endTime := endTime;
       captured_chokeGroup := Some chokeGroup |} in
  let v := fresh (base s) in
  Done (set_activeChokeGroup (<[chokeGroup := v]> (activeChokeGroup s))
          (set_base (add_voice voice (base s)) s))
  end end end.

(** The auto-cleanup callback of voice [v]. *)
Definition cleanup (v : nat) (s : t) : Completion t :=
  if bool_decide (v ∈ voices (base s)) then voice_stop v (now (base s)) s
  else Normal s.

(** [setParameter], inherited. *)
Definition setParameter (param : string) (value : Qc) (s : t) : t :=
  set_base (BaseDrumSynth.setParameter param value (base s)) s.

(** [this.voices.forEach(voice => voice.stop(this.context.currentTime))]:
    a [Set] is visited in insertion order, which is the order of the
    addresses. *)
Definition stop_all (s : t) : Completion t :=
  foldl (fun acc v =>
           match acc with
           | Normal s' => voice_stop v (now (base s')) s'
           | Abrupt e => Abrupt e
           end)
        (Normal s) (merge_sort le (elements (voices (base s)))).

(** [dispose()], inherited: stop every voice, [this.voices.clear()],
    [this.disconnect()]. *)
Definition dispose (s : t) : Completion t :=
  match stop_all s with
  | Abrupt e => Abrupt e
  | Normal s' =>
      Normal (set_base
                {| now := now (base s'); parameters := parameters (base s');
                   voices := ∅; heap := heap (base s');
                   fresh := fresh (base s'); cleanups := cleanups (base s');
                   trace := trace (base s');
                   output_connected := false |} s')
  end.

(** The audio clock advances. *)
Definition advance (clock : Qc) (s : t) : t :=
  set_base {| now := clock; parameters := parameters (base s);
              voices := voices (base s); heap := heap (base s);
              fresh := fresh (base s); cleanups := cleanups (base s);
              trace := trace (base s);
              output_connected := output_connected (base s) |} s.

(** What can happen to a hi-hat synthesizer: a trigger (returning or
    raising), the cleanup timer of a voice it created, [dispose], a
    parameter change, the clock. *)
Inductive step : t -> t -> Prop :=
| step_trigger time velocity params s s' :
    trigger time velocity params s = Done s' -> step s s'
| step_trigger_raised time velocity params e s s' :
    trigger time velocity params s = Raised e s' -> step s s'
| step_cleanup v s s' :
    v ∈ dom (heap (base s)) -> cleanup v s = Normal s' -> step s s'
| step_dispose s s' :
    dispose s = Normal s' -> step s s'
| step_setParameter param value s :
    step s (setParameter param value s)
| step_advance clock s :
    step s (advance clock s).

(** The states a hi-hat synthesizer created at time [clock] can be in. *)
Definition reachable (s : t) : Prop := exists clock, rtc step (new clock) s.

(** The choke group a voice was created in. *)
Definition group_of (s : t) (v : nat) : option Qc :=
  heap (base s) !! v ≫= captured_chokeGroup.

End HiHatSynth.

(** ** [Math] *)

Module Math.

(** [Math.min(a, b)]. *)
Definition min (x y : Qc) : Qc := if Num.ltb y x then y else x.

(** [Math.max(lo, Math.min(hi, x))], the clamp the store and the knob
    use. *)
Definition clamp (lo hi x : Qc) : Qc := Num.max lo (min hi x).

(** [Math.floor(x)]. *)
Definition floor (x : Qc) : Qc := Num.int (Qfloor x).

(** [Math.round(x)]: the nearest integer, halves going up. *)
Definition round (x : Qc) : Qc :=
  Num.int (Qfloor (this (x + Num.dec 0.5)%Qc)).

End Math.

(** ** utils/patternStorage.ts

    IndexedDB is the browser's: the model keeps the object store
    ['patterns'] (key path ['id']) as a finite map from [id] to the stored
    record, and lets every request succeed.  Console output is left
    out. *)

Module PatternStorage.

(** [class PatternStorage] with the database behind it. *)
Record t : Type := {
  db : bool;                        (* [this.db] is not null *)
  store : gmap string Pattern.t     (* the records of the object store *)
}.

(** [init()]: open the database (the store is created when missing;
    records already there stay). *)
Definition init (s : t) : t := {| db := true; store := store s |}.

(** [if (!this.db) await this.init();] *)
Definition ensure (s : t) : t := if db s then s else init s.

(** [savePattern(pattern)]: [store.put(pattern)], keyed by [pattern.id]. *)
Definition savePattern (p : Pattern.t) (s : t) : t :=
  let s := ensure s in
  {| db := db s; store := <[Pattern.id p := p]> (store s) |}.

(** [loadPattern(id)]: [request.result || null]. *)
Definition loadPattern (id : string) (s : t) : option Pattern.t * t :=
  let s := ensure s in
  (store s !! id, s).

(** The order of the keys of the object store (strings, compared
    character by character). *)
Definition key_le (a b : string * Pattern.t) : Prop :=
  String.leb a.1 b.1 = true.

#[global] Instance key_le_dec : RelDecision key_le :=
  fun a b => decide (String.leb a.1 b.1 = true).

(** [store.getAll()]: the records in the order of their keys. *)
Definition getAll (m : gmap string Pattern.t) : list Pattern.t :=
  (merge_sort key_le (map_to_list m)).*2.

(** [patterns.sort((a, b) => b.created - a.created)], one element at a
    time: [x] goes in front of the first record that is not newer than
    it.  ([Array.prototype.sort] is stable.) *)
Fixpoint insert_newest (x : Pattern.t) (l : list Pattern.t) : list Pattern.t :=
  match l with
  | [] => [x]
  | y :: l' =>
      if Num.ltb (Pattern.created x) (Pattern.created y)
      then y :: insert_newest x l'
      else x :: l
  end.

Definition sort_newest (l : list Pattern.t) : list Pattern.t :=
  foldr insert_newest [] l.

(** [getAllPatterns()]. *)
Definition getAllPatterns (s : t) : list Pattern.t * t :=
  let s := ensure s in
  (sort_newest (getAll (store s)), s).

(** [deletePattern(id)]. *)
Definition deletePattern (id : string) (s : t) : t :=
  let s := ensure s in
  {| db := db s; store := delete id (store s) |}.

(** [clearAll()]. *)
Definition clearAll (s : t) : t :=
  let s := ensure s in
  {| db := db s; store := ∅ |}.

End PatternStorage.

(** ** store/usePatternStore.ts

    A Zustand store with the Immer middleware: every action runs a
    recipe on a draft of the state.  A recipe that raises (a track or a
    step that is not there) leaves the state as it was and the exception
    leaves the action: that is [None] below. *)

Module PatternStore.

Record PatternState : Type := {
  pattern : Pattern.t;
  isPlaying : bool;
  currentStep : nat;
  bpm : Qc;
  savedPatterns : list Pattern.t
}.

Definition set_pattern (f : Pattern.t -> Pattern.t) (st : PatternState)
  : PatternState :=
  {| pattern := f (pattern st); isPlaying := isPlaying st;
     currentStep := currentStep st; bpm := bpm st;
     savedPatterns := savedPatterns st |}.

Definition set_tracks (ts : list Track.t) (p : Pattern.t) : Pattern.t :=
  Pattern.mk (Pattern.id p) (Pattern.name p) (Pattern.bpm p) (Pattern.swing p)
    ts (Pattern.steps p) (Pattern.created p) (Pattern.version p).

Definition set_steps (sds : list StepData.t) (t : Track.t) : Track.t :=
  Track.mk (Track.id t) (Track.name t) (Track.synthType t) (Track.volume t)
    (Track.mute t) (Track.solo t) sds (Track.synthParams t).

Definition set_active (b : bool) (sd : StepData.t) : StepData.t :=
  StepData.mk b (StepData.velocity sd) (StepData.probability sd)
    (StepData.microTiming sd) (StepData.parameters sd).

Definition set_velocity (v : Qc) (sd : StepData.t) : StepData.t :=
  StepData.mk (StepData.active sd) v (StepData.probability sd)
    (StepData.microTiming sd) (StepData.parameters sd).

Definition set_probability (q : Qc) (sd : StepData.t) : StepData.t :=
  StepData.mk (StepData.active sd) (StepData.velocity sd) q
    (StepData.microTiming sd) (StepData.parameters sd).

Definition set_volume (v : Qc) (t : Track.t) : Track.t :=
  Track.mk (Track.id t) (Track.name t) (Track.synthType t) v
    (Track.mute t) (Track.solo t) (Track.steps t) (Track.synthParams t).

Definition set_mute (b : bool) (t : Track.t) : Track.t :=
  Track.mk (Track.id t) (Track.name t) (Track.synthType t) (Track.volume t)
    b (Track.solo t) (Track.steps t) (Track.synthParams t).

Definition set_solo (b : bool) (t : Track.t) : Track.t :=
  Track.mk (Track.id t) (Track.name t) (Track.synthType t) (Track.volume t)
    (Track.mute t) b (Track.steps t) (Track.synthParams t).

Definition set_synthParams (m : SynthParameters) (t : Track.t) : Track.t :=
  Track.mk (Track.id t) (Track.name t) (Track.synthType t) (Track.volume t)
    (Track.mute t) (Track.solo t) (Track.steps t) m.

(** A recipe on [state.pattern.tracks[trackIndex]]; reading a field of a
    track that is not there raises. *)
Definition on_track (trackIndex : nat) (f : Track.t -> option Track.t)
    (st : PatternState) : option PatternState :=
  track ← Pattern.tracks (pattern st) !! trackIndex;
  track' ← f track;
  Some (set_pattern
          (fun p => set_tracks (<[trackIndex := track']> (Pattern.tracks p)) p)
          st).

(** A recipe on [state.pattern.tracks[trackIndex].steps[stepIndex]]. *)
Definition on_step (trackIndex stepIndex : nat) (f : StepData.t -> StepData.t)
    (st : PatternState) : option PatternState :=
  on_track trackIndex
    (fun track =>
       sd ← Track.steps track !! stepIndex;
       Some (set_steps (<[stepIndex := f sd]> (Track.steps track)) track))
    st.

(** The step data [createDefaultPattern] fills every track with. *)
Definition defaultStep : StepData.t :=
  StepData.mk false 100 1 0 None.

Definition defaultTrack (id name synthType : string) (volume : Qc)
    (pitch decay tone : Qc) : Track.t :=
  Track.mk id name synthType volume false false (replicate 16 defaultStep)
    {[ "pitch" := pitch; "decay" := decay; "tone" := tone ]}.

(** [createDefaultPattern()]; [uuid] is what [crypto.randomUUID()]
    returns and [now] what [Date.now()] returns. *)
Definition createDefaultPattern (uuid : string) (now : Qc) : Pattern.t :=
  Pattern.mk uuid "New Pattern" (Num.int 120) 0
    [ defaultTrack "0" "Kick" "kick" 1 60 (Num.dec 0.5) (Num.dec 0.5);
      defaultTrack "1" "Snare" "snare" (Num.dec 0.8)
        (Num.int 200) (Num.dec 0.15) (Num.dec 0.5);
      defaultTrack "2" "Closed HH" "hihat" (Num.dec 0.6)
        (Num.int 8000) (Num.dec 0.05) (Num.dec 0.7);
      defaultTrack "3" "Open HH" "hihat" (Num.dec 0.5)
        (Num.int 8000) (Num.dec 0.15) (Num.dec 0.6);
      defaultTrack "4" "Clap" "clap" (Num.dec 0.7)
        1000 (Num.dec 0.1) (Num.dec 0.6);
      defaultTrack "5" "Rim" "rim" (Num.dec 0.7)
        (Num.int 400) (Num.dec 0.08) (Num.dec 0.7);
      defaultTrack "6" "Tom" "tom" (Num.dec 0.8)
        (Num.int 150) (Num.dec 0.4) (Num.dec 0.5);
      defaultTrack "7" "Perc" "perc1" (Num.dec 0.6)
        (Num.int 300) (Num.dec 0.12) (Num.dec 0.5) ]
    16 now 1.

(** The store when the module is loaded. *)
Definition initial (uuid : string) (now : Qc) : PatternState :=
  {| pattern := createDefaultPattern uuid now; isPlaying := false;
     currentStep := 0; bpm := Num.int 120; savedPatterns := [] |}.

(** [toggleStep(trackIndex, stepIndex)]. *)
Definition toggleStep (trackIndex stepIndex : nat) : PatternState -> option PatternState :=
  on_step trackIndex stepIndex
    (fun sd => set_active (negb (StepData.active sd)) sd).

(** [setStepVelocity(trackIndex, stepIndex, velocity)]. *)
Definition setStepVelocity (trackIndex stepIndex : nat) (velocity : Qc)
  : PatternState -> option PatternState :=
  on_step trackIndex stepIndex (set_velocity (Math.clamp 0 127 velocity)).

(** [setStepProbability(trackIndex, stepIndex, probability)]. *)
Definition setStepProbability (trackIndex stepIndex : nat) (probability : Qc)
  : PatternState -> option PatternState :=
  on_step trackIndex stepIndex (set_probability (Math.clamp 0 1 probability)).

(** [setBpm(bpm)]. *)
Definition setBpm (value : Qc) (st : PatternState) : PatternState :=
  let p := pattern st in
  let p' := Pattern.mk (Pattern.id p) (Pattern.name p)
              (Math.clamp 60 (Num.int 300) value) (Pattern.swing p)
              (Pattern.tracks p) (Pattern.steps p) (Pattern.created p)
              (Pattern.version p) in
  {| pattern := p'; isPlaying := isPlaying st; currentStep := currentStep st;
     bpm := Pattern.bpm p'; savedPatterns := savedPatterns st |}.

(** [setSwing(swing)]. *)
Definition setSwing (value : Qc) (st : PatternState) : PatternState :=
  set_pattern
    (fun p => Pattern.mk (Pattern.id p) (Pattern.name p) (Pattern.bpm p)
                (Math.clamp 0 1 value) (Pattern.tracks p) (Pattern.steps p)
                (Pattern.created p) (Pattern.version p)) st.

(** [togglePlay()]. *)
Definition togglePlay (st : PatternState) : PatternState :=
  let playing := negb (isPlaying st) in
  {| pattern := pattern st; isPlaying := playing;
     currentStep := if negb playing then 0%nat else currentStep st;
     bpm := bpm st; savedPatterns := savedPatterns st |}.

(** [setCurrentStep(step)]. *)
Definition setCurrentStep (step : nat) (st : PatternState) : PatternState :=
  {| pattern := pattern st; isPlaying := isPlaying st;
     currentStep := (step mod Pattern.steps (pattern st))%nat;
     bpm := bpm st; savedPatterns := savedPatterns st |}.

(** [setTrackVolume(trackIndex, volume)]. *)
Definition setTrackVolume (trackIndex : nat) (volume : Qc)
  : PatternState -> option PatternState :=
  on_track trackIndex (fun t => Some (set_volume (Math.clamp 0 1 volume) t)).

(** [toggleMute(trackIndex)]. *)
Definition toggleMute (trackIndex : nat) : PatternState -> option PatternState :=
  on_track trackIndex (fun t => Some (set_mute (negb (Track.mute t)) t)).

(** [toggleSolo(trackIndex)]. *)
Definition toggleSolo (trackIndex : nat) : PatternState -> option PatternState :=
  on_track trackIndex (fun t => Some (set_solo (negb (Track.solo t)) t)).

(** [setSynthParameter(trackIndex, param, value)]. *)
Definition setSynthParameter (trackIndex : nat) (param : string) (value : Qc)
  : PatternState -> option PatternState :=
  on_track trackIndex
    (fun t => Some (set_synthParams (<[param := value]> (Track.synthParams t)) t)).

(** [clearPattern()]. *)
Definition clearPattern (st : PatternState) : PatternState :=
  set_pattern
    (fun p =>
       set_tracks
         (map (fun t => set_steps (map (set_active false) (Track.steps t)) t)
              (Pattern.tracks p)) p) st.

(** The density [randomizePattern] uses for the track at [trackIndex]. *)
Definition density (trackIndex : nat) : Qc :=
  match trackIndex with
  | 0%nat => Num.dec 0.3
  | 1%nat => Num.dec 0.2
  | 2%nat => Num.dec 0.5
  | _ => Num.dec 0.25
  end.

(** The body of [track.steps.forEach((step) => ...)] in
    [randomizePattern]; [draw] lists what [Math.random()] returns and [n]
    counts the calls made so far. *)
Definition randomizeStep (draw : nat -> Qc) (trackIndex : nat)
    (sd : StepData.t) (n : nat) : StepData.t * nat :=
  let active := Num.ltb (draw n) (density trackIndex) in
  if active then
    let velocity := Num.int 80 + Math.floor (draw (S n) * Num.int 47) in
    let probability := Num.dec 0.7 + draw (S (S n)) * Num.dec 0.3 in
    (StepData.mk true velocity probability (StepData.microTiming sd)
       (StepData.parameters sd), S (S (S n)))
  else (set_active false sd, S n).

Fixpoint randomizeSteps (draw : nat -> Qc) (trackIndex : nat)
    (sds : list StepData.t) (n : nat) : list StepData.t * nat :=
  match sds with
  | [] => ([], n)
  | sd :: sds' =>
      let '(sd', n1) := randomizeStep draw trackIndex sd n in
      let '(rest, n2) := randomizeSteps draw trackIndex sds' n1 in
      (sd' :: rest, n2)
  end.

Fixpoint randomizeTracks (draw : nat -> Qc) (trackIndex : nat)
    (ts : list Track.t) (n : nat) : list Track.t * nat :=
  match ts with
  | [] => ([], n)
  | t :: ts' =>
      let '(sds, n1) := randomizeSteps draw trackIndex (Track.steps t) n in
      let '(rest, n2) := randomizeTracks draw (S trackIndex) ts' n1 in
      (set_steps sds t :: rest, n2)
  end.

(** [randomizePattern()]. *)
Definition randomizePattern (draw : nat -> Qc) (st : PatternState)
  : PatternState :=
  set_pattern
    (fun p => set_tracks (randomizeTracks draw 0 (Pattern.tracks p) 0).1 p) st.

(** [loadPattern(pattern)]. *)
Definition loadPattern (p : Pattern.t) (st : PatternState) : PatternState :=
  {| pattern := p; isPlaying := false; currentStep := 0;
     bpm := Pattern.bpm p; savedPatterns := savedPatterns st |}.

(** [newPattern()]. *)
Definition newPattern (uuid : string) (now : Qc) (st : PatternState)
  : PatternState :=
  {| pattern := createDefaultPattern uuid now; isPlaying := false;
     currentStep := 0; bpm := Num.int 120; savedPatterns := savedPatterns st |}.

(** [setPatternName(name)]. *)
Definition setPatternName (name : string) (st : PatternState) : PatternState :=
  set_pattern
    (fun p => Pattern.mk (Pattern.id p) name (Pattern.bpm p) (Pattern.swing p)
                (Pattern.tracks p) (Pattern.steps p) (Pattern.created p)
                (Pattern.version p)) st.

(** [duplicatePattern()]. *)
Definition duplicatePattern (uuid : string) (now : Qc) (st : PatternState)
  : PatternState :=
  set_pattern
    (fun p => Pattern.mk uuid (Pattern.name p ++ " (copy)") (Pattern.bpm p)
                (Pattern.swing p) (Pattern.tracks p) (Pattern.steps p) now
                (Pattern.version p)) st.

(** [loadSavedPatterns()], on the store and the storage. *)
Definition loadSavedPatterns (w : PatternState * PatternStorage.t)
  : PatternState * PatternStorage.t :=
  let '(patterns, db) := PatternStorage.getAllPatterns w.2 in
  ({| pattern := pattern w.1; isPlaying := isPlaying w.1;
      currentStep := currentStep w.1; bpm := bpm w.1;
      savedPatterns := patterns |}, db).

(** [saveCurrentPattern()]. *)
Definition saveCurrentPattern (w : PatternState * PatternStorage.t)
  : PatternState * PatternStorage.t :=
  loadSavedPatterns (w.1, PatternStorage.savePattern (pattern w.1) w.2).

(** [deletePattern(id)]. *)
Definition deletePattern (id : string) (w : PatternState * PatternStorage.t)
  : PatternState * PatternStorage.t :=
  loadSavedPatterns (w.1, PatternStorage.deletePattern id w.2).

End PatternStore.

(** ** synthesis/AudioEngine.ts, with its synthesizers

    The [AudioEngine] record above keeps of the engine what the sequencer
    reads.  Here the engine owns its synthesizer instances, so that
    [initialize], [updateSynthParams], [setMasterVolume] and [dispose]
    can be followed into them. *)

Module Engine.
Import WebAudio BaseDrumSynth.

(** An instance in [Map<string, BaseDrumSynth>].  The hi-hat has state of
    its own; the kick, snare, clap, rim, tom and percussion instances are
    described by the state of the base class. *)
Inductive Synth : Type :=
| Hat (h : HiHatSynth.t)
| Drum (b : BaseDrumSynth.t).

(** The [AudioContext] the engine created. *)
Record Context : Type := {
  time : Qc;          (* [currentTime] *)
  closed : bool       (* [close()] was called *)
}.

(** The master [GainNode]. *)
Record MasterGain : Type := {
  gain : Qc;
  to_destination : bool     (* connected to [context.destination] *)
}.

(** [class AudioEngine]. *)
Record t : Type := {
  context : option Context;
  masterGain : option MasterGain;
  synths : gmap string Synth;
  initialized : bool
}.

(** [new AudioEngine()]. *)
Definition new : t :=
  {| context := None; masterGain := None; synths := ∅; initialized := false |}.

(** [new XSynth(context)] for a synthesizer without state of its own:
    the constructor of the base class with the default parameters of the
    subclass. *)
Definition newDrum (defaults : gmap string Qc) (clock : Qc) : BaseDrumSynth.t :=
  {| now := clock; parameters := defaults; voices := ∅; heap := ∅;
     fresh := 0; cleanups := []; trace := []; output_connected := false |}.

(** [initializeDefaultParameters()] of [SnareSynth], [ClapSynth],
    [RimSynth], [TomSynth] and [PercSynth]. *)
Definition snareDefaults : gmap string Qc :=
  {[ "pitch" := Num.int 200; "decay" := Num.dec 0.15; "tone" := Num.dec 0.5;
     "bodyFreq" := Num.int 250; "noiseLevel" := Num.dec 0.7;
     "bodyDecay" := Num.dec 0.12; "noiseDecay" := Num.dec 0.08;
     "resonance" := Num.int 8 ]}.

Definition clapDefaults : gmap string Qc :=
  {[ "pitch" := 1000; "decay" := Num.dec 0.1; "tone" := Num.dec 0.6;
     "layers" := Num.int 3; "spread" := Num.dec 0.02;
     "resonance" := Num.int 2 ]}.

Definition rimDefaults : gmap string Qc :=
  {[ "pitch" := Num.int 400; "decay" := Num.dec 0.08; "tone" := Num.dec 0.7;
     "resonance" := Num.int 12; "noiseLevel" := Num.dec 0.3 ]}.

Definition tomDefaults : gmap string Qc :=
  {[ "pitch" := Num.int 150; "decay" := Num.dec 0.4; "tone" := Num.dec 0.5;
     "pitchDecay" := Num.dec 0.08; "pitchAmount" := Num.dec 2.5;
     "resonance" := 4 ]}.

Definition percDefaults : gmap string Qc :=
  {[ "pitch" := Num.int 300; "decay" := Num.dec 0.12; "tone" := Num.dec 0.5;
     "harmonics" := Num.dec 2.5; "resonance" := Num.int 6 ]}.

(** [synth.connect(destination)] and [synth.disconnect()]. *)
Definition set_output (b : bool) (s : BaseDrumSynth.t) : BaseDrumSynth.t :=
  {| now := now s; parameters := parameters s; voices := voices s;
     heap := heap s; fresh := fresh s; cleanups := cleanups s;
     trace := trace s; output_connected := b |}.

Definition connect (x : Synth) : Synth :=
  match x with
  | Hat h => Hat (HiHatSynth.set_base (set_output true (HiHatSynth.base h)) h)
  | Drum b => Drum (set_output true b)
  end.

(** The state of the base class of an instance. *)
Definition base (x : Synth) : BaseDrumSynth.t :=
  match x with
  | Hat h => HiHatSynth.base h
  | Drum b => b
  end.

(** [private initializeSynths()]. *)
Definition initializeSynths (e : t) : t :=
  match context e, masterGain e with
  | Some ctx, Some _ =>
      let kickSynth := Drum (KickSynth.new (time ctx)) in
      let snareSynth := Drum (newDrum snareDefaults (time ctx)) in
      let hihatSynth := Hat (HiHatSynth.new (time ctx)) in
      let clapSynth := Drum (newDrum clapDefaults (time ctx)) in
      let rimSynth := Drum (newDrum rimDefaults (time ctx)) in
      let tomSynth := Drum (newDrum tomDefaults (time ctx)) in
      let perc1Synth := Drum (newDrum percDefaults (time ctx)) in
      let perc2Synth := Drum (newDrum percDefaults (time ctx)) in
      {| context := context e; masterGain := masterGain e;
         synths :=
           <["perc2" := connect perc2Synth]>
             (<["perc1" := connect perc1Synth]>
                (<["tom" := connect tomSynth]>
                   (<["rim" := connect rimSynth]>
                      (<["clap" := connect clapSynth]>
                         (<["hihat" := connect hihatSynth]>
                            (<["snare" := connect snareSynth]>
                               (<["kick" := connect kickSynth]> (synths e))))))));
         initialized := initialized e |}
  | _, _ => e
  end.

(** [initialize()]: a new context (its clock at 0), the master gain at
    0.8 connected to the destination, the synthesizers, then
    [this.initialized = true]. *)
Definition initialize (e : t) : t :=
  if initialized e then e
  else
    let e1 := {| context := Some {| time := 0; closed := false |};
                 masterGain := Some {| gain := Num.dec 0.8;
                                       to_destination := true |};
                 synths := synths e; initialized := initialized e |} in
    let e2 := initializeSynths e1 in
    {| context := context e2; masterGain := masterGain e2;
       synths := synths e2; initialized := true |}.

(** [synth.setParameter(key, value)] on an instance. *)
Definition setParameter (key : string) (value : Qc) (x : Synth) : Synth :=
  match x with
  | Hat h => Hat (HiHatSynth.setParameter key value h)
  | Drum b => Drum (BaseDrumSynth.setParameter key value b)
  end.

(** [Object.entries(params).forEach(([key, value]) =>
      synth.setParameter(key, value))]. *)
Definition setParameters (params : gmap string Qc) (x : Synth) : Synth :=
  foldr (fun kv acc => setParameter kv.1 kv.2 acc) x (map_to_list params).

(** [updateSynthParams(synthType, params)]. *)
Definition updateSynthParams (synthType : string) (params : gmap string Qc)
    (e : t) : t :=
  match synths e !! synthType with
  | None => e
  | Some synth =>
      {| context := context e; masterGain := masterGain e;
         synths := <[synthType := setParameters params synth]> (synths e);
         initialized := initialized e |}
  end.

(** [getCurrentTime()]. *)
Definition getCurrentTime (e : t) : Qc :=
  Num.nullish (time <$> context e) 0.

(** [setMasterVolume(volume)]. *)
Definition setMasterVolume (volume : Qc) (e : t) : t :=
  match masterGain e with
  | Some g =>
      {| context := context e;
         masterGain := Some {| gain := Math.clamp 0 1 volume;
                               to_destination := to_destination g |};
         synths := synths e; initialized := initialized e |}
  | None => e
  end.

(** [dispose()] of [BaseDrumSynth], for an instance whose voices have the
    plain [stop] closure. *)
Definition disposeDrum (s : BaseDrumSynth.t) : Completion BaseDrumSynth.t :=
  match
    foldl (fun acc v =>
             match acc with
             | Normal s' => BaseDrumSynth.voice_stop v (now s') s'
             | Abrupt e => Abrupt e
             end)
          (Normal s) (merge_sort le (elements (voices s)))
  with
  | Abrupt e => Abrupt e
  | Normal s' =>
      Normal {| now := now s'; parameters := parameters s'; voices := ∅;
                heap := heap s'; fresh := fresh s'; cleanups := cleanups s';
                trace := trace s'; output_connected := false |}
  end.

(** [synth.dispose()]. *)
Definition disposeSynth (x : Synth) : Completion Synth :=
  match x with
  | Hat h =>
      match HiHatSynth.dispose h with
      | Normal h' => Normal (Hat h')
      | Abrupt e => Abrupt e
      end
  | Drum b =>
      match disposeDrum b with
      | Normal b' => Normal (Drum b')
      | Abrupt e => Abrupt e
      end
  end.

(** [dispose()]: every synthesizer is disposed of and the map cleared;
    the master gain is disconnected and the context closed, both fields
    keeping their objects; [initialized] becomes false.  [disposed] is
    what became of the instances, for the statements about them. *)
Definition dispose (e : t) : Completion (t * gmap string Synth) :=
  match
    map_fold (fun key x acc =>
                match acc, disposeSynth x with
                | Normal m, Normal x' => Normal (<[key := x']> m)
                | Abrupt err, _ => Abrupt err
                | _, Abrupt err => Abrupt err
                end) (Normal ∅) (synths e)
  with
  | Abrupt err => Abrupt err
  | Normal disposed =>
      Normal ({| context :=
                   (fun c => {| time := time c; closed := true |}) <$> context e;
                 masterGain :=
                   (fun g => {| gain := gain g; to_destination := false |})
                     <$> masterGain e;
                 synths := ∅;
                 initialized := false |}, disposed)
  end.

(** [isInitialized()]. *)
Definition isInitialized (e : t) : bool := initialized e.

End Engine.

(** What the sequencer sees of an engine, [sent] being what it has
    dispatched so far. *)
Definition view (e : Engine.t) (sent : list SynthCall) : AudioEngine :=
  {| context := (fun c => {| currentTime := Engine.time c |}) <$> Engine.context e;
     initialized := Engine.initialized e;
     synths := dom (Engine.synths e);
     calls := sent |}.

(** ** App.tsx *)

Module App.

(** [initializeAudio()]: [audioInitialized] is the component's state,
    [pattern] the pattern of the render the closure belongs to. *)
Definition initializeAudio (audioInitialized : bool) (pattern : Pattern.t)
    (e : Engine.t) : bool * Engine.t :=
  if negb audioInitialized then
    let e1 := Engine.initialize e in
    (true,
     foldl (fun e track =>
              Engine.updateSynthParams (Track.synthType track)
                (Track.synthParams track) e)
           e1 (Pattern.tracks pattern))
  else (audioInitialized, e).

End App.

(** ** components/SynthControls/Knob.tsx *)

Module Knob.

(** [valueToAngle(val)], for a knob from [min] to [max]. *)
Definition valueToAngle (min max val : Qc) : Qc :=
  let normalized := (val - min) / (max - min) in
  normalized * Num.int 270 - Num.int 135.

(** [handleMouseMove(e)]: the value passed to [onChange], if it is
    called. *)
Definition handleMouseMove (isDragging : bool) (startY startValue : Qc)
    (min max step : Qc) (clientY : Qc) : option Qc :=
  if negb isDragging then None
  else
    let deltaY := startY - clientY in
    let range := max - min in
    let sensitivity := range / Num.int 300 in
    let newValue := startValue + deltaY * sensitivity in
    let newValue :=
      if bool_decide (step = 0) then newValue
      else Math.round (newValue / step) * step in
    Some (Math.clamp min max newValue).

(** [handleDoubleClick()]: the value passed to [onChange]. *)
Definition handleDoubleClick (min max : Qc) : Qc := (min + max) / Num.int 2.

End Knob.

(** ** components/SynthControls/SynthControls.tsx *)

Module SynthControls.

(** An entry of the table of [getParameterConfig]. *)
Record Config : Type := {
  key : string;
  label : string;
  min : Qc;
  max : Qc;
  unit : string
}.

Definition config (key label : string) (min max : Qc) (unit : string) : Config :=
  {| key := key; label := label; min := min; max := max; unit := unit |}.

(** [getParameterConfig()] for a track of type [synthType]. *)
Definition getParameterConfig (synthType : string) : list Config :=
  if String.eqb synthType "kick" then
    [ config "pitch" "Pitch" (Num.int 20) (Num.int 200) "Hz";
      config "decay" "Decay" (Num.dec 0.1) (Num.dec 2.0) "s";
      config "tone" "Tone" 0 1 EmptyString;
      config "subLevel" "Sub" 0 1 EmptyString;
      config "clickLevel" "Click" 0 1 EmptyString;
      config "pitchDecay" "P.Env" (Num.dec 0.01) (Num.dec 0.2) "s";
      config "saturation" "Drive" 0 1 EmptyString ]
  else if String.eqb synthType "snare" then
    [ config "pitch" "Pitch" 100 (Num.int 800) "Hz";
      config "decay" "Decay" (Num.dec 0.05) (Num.dec 0.5) "s";
      config "tone" "Tone" 0 1 EmptyString;
      config "bodyFreq" "Body" 100 (Num.int 800) "Hz";
      config "noiseLevel" "Noise" 0 1 EmptyString;
      config "resonance" "Reso" 1 (Num.int 20) EmptyString ]
  else if String.eqb synthType "hihat" then
    [ config "pitch" "Pitch" (Num.int 5000) (Num.int 12000) "Hz";
      config "decay" "Decay" (Num.dec 0.02) (Num.dec 0.5) "s";
      config "tone" "Tone" 0 1 EmptyString;
      config "color" "Color" (Num.int 5000) (Num.int 12000) "Hz";
      config "metallic" "Metal" 0 1 EmptyString ]
  else if String.eqb synthType "clap" then
    [ config "pitch" "Pitch" (Num.int 500) (Num.int 2000) "Hz";
      config "decay" "Decay" (Num.dec 0.05) (Num.dec 0.3) "s";
      config "tone" "Tone" 0 1 EmptyString;
      config "layers" "Layers" (Num.int 2) (Num.int 5) EmptyString;
      config "spread" "Spread" (Num.dec 0.01) (Num.dec 0.05) "s";
      config "resonance" "Reso" 1 10 EmptyString ]
  else if String.eqb synthType "rim" then
    [ config "pitch" "Pitch" (Num.int 200) (Num.int 800) "Hz";
      config "decay" "Decay" (Num.dec 0.03) (Num.dec 0.15) "s";
      config "tone" "Tone" 0 1 EmptyString;
      config "resonance" "Reso" (Num.int 5) (Num.int 20) EmptyString;
      config "noiseLevel" "Click" 0 1 EmptyString ]
  else if String.eqb synthType "tom" then
    [ config "pitch" "Pitch" 60 (Num.int 300) "Hz";
      config "decay" "Decay" (Num.dec 0.1) (Num.dec 1.0) "s";
      config "tone" "Tone" 0 1 EmptyString;
      config "pitchDecay" "P.Env" (Num.dec 0.02) (Num.dec 0.2) "s";
      config "pitchAmount" "P.Amt" (Num.dec 1.5) (Num.dec 4.0) EmptyString;
      config "resonance" "Reso" 1 10 EmptyString ]
  else if String.eqb synthType "perc1" || String.eqb synthType "perc2" then
    [ config "pitch" "Pitch" 100 1000 "Hz";
      config "decay" "Decay" (Num.dec 0.05) (Num.dec 0.5) "s";
      config "tone" "Tone" 0 1 EmptyString;
      config "harmonics" "Harm" (Num.dec 1.5) (Num.dec 4.0) EmptyString;
      config "resonance" "Reso" (Num.int 2) (Num.int 15) EmptyString ]
  else
    [ config "pitch" "Pitch" 100 1000 "Hz";
      config "decay" "Decay" (Num.dec 0.05) (Num.dec 1.0) "s";
      config "tone" "Tone" 0 1 EmptyString ].

(** [handleParameterChange(param, value)] of the controls rendered for
    the track [track] at [selectedTrackIndex]: the store and the audio
    engine are both updated.  [None]: the store's recipe raised. *)
Definition handleParameterChange (selectedTrackIndex : nat) (track : Track.t)
    (param : string) (value : Qc) (w : PatternStore.PatternState * Engine.t)
  : option (PatternStore.PatternState * Engine.t) :=
  st ← PatternStore.setSynthParameter selectedTrackIndex param value w.1;
  Some (st, Engine.updateSynthParams (Track.synthType track)
              {[ param := value ]} w.2).

(** The [onClick] of the "Reset to Default" button. *)
Definition reset (selectedTrackIndex : nat) (track : Track.t)
    (w : PatternStore.PatternState * Engine.t)
  : option (PatternStore.PatternState * Engine.t) :=
  foldl (fun acc param =>
           w ← acc;
           let defaultValue := (min param + max param) / Num.int 2 in
           handleParameterChange selectedTrackIndex track (key param)
             defaultValue w)
        (Some w) (getParameterConfig (Track.synthType track)).

(** The value a knob of the controls shows:
    [track.synthParams[param.key] ?? ((param.min + param.max) / 2)]. *)
Definition shown (track : Track.t) (param : Config) : Qc :=
  Num.nullish (Track.synthParams track !! key param)
    ((min param + max param) / Num.int 2).

End SynthControls.

(** ** The life of a kick synthesizer *)

Module KickLife.
Import WebAudio BaseDrumSynth.

(** The audio clock advances. *)
Definition advance (clock : Qc) (s : BaseDrumSynth.t) : BaseDrumSynth.t :=
  {| now := clock; parameters := parameters s; voices := voices s;
     heap := heap s; fresh := fresh s; cleanups := cleanups s;
     trace := trace s; output_connected := output_connected s |}.

(** What can happen to a kick synthesizer: a trigger (returning or
    raising), the cleanup timer of a voice it created, [dispose],
    [connect], a parameter change, the clock. *)
Inductive step : BaseDrumSynth.t -> BaseDrumSynth.t -> Prop :=
| step_trigger time velocity params s s' :
    KickSynth.trigger time velocity params s = Done s' -> step s s'
| step_trigger_raised time velocity params e s s' :
    KickSynth.trigger time velocity params s = Raised e s' -> step s s'
| step_cleanup v s s' :
    v ∈ dom (heap s) -> KickSynth.cleanup v s = Normal s' -> step s s'
| step_dispose s s' :
    Engine.disposeDrum s = Normal s' -> step s s'
| step_connect s :
    step s (Engine.set_output true s)
| step_setParameter param value s :
    step s (BaseDrumSynth.setParameter param value s)
| step_advance clock s :
    step s (advance clock s).

(** The states a kick synthesizer created at time [clock] can be in. *)
Definition reachable (s : BaseDrumSynth.t) : Prop :=
  exists clock, rtc step (KickSynth.new clock) s.

End KickLife.

(** ** The automation of an [AudioParam]

    The curves the synthesizers below write into frequencies, Q factors
    and gains are the browser's.  The model keeps when a call raises: a
    negative time is a [RangeError], and so is an exponential ramp to 0. *)

Module AudioParam.

(** [param.setValueAtTime(value, startTime)]: the exception, if any. *)
Definition setValueAtTime (value startTime : Qc) : option string :=
  if Num.ltb startTime 0 then Some "RangeError" else None.

(** [param.exponentialRampToValueAtTime(value, endTime)]. *)
Definition exponentialRampToValueAtTime (value endTime : Qc) : option string :=
  if bool_decide (value = 0) then Some "RangeError"
  else if Num.ltb endTime 0 then Some "RangeError"
  else None.

(** Calls made one after the other: the first exception, if any. *)
Fixpoint in_turn (calls : list (option string)) : option string :=
  match calls with
  | [] => None
  | Some e :: _ => Some e
  | None :: rest => in_turn rest
  end.

(** [BaseDrumSynth.createEnvelope(param, startTime, startValue, endValue,
    duration)]. *)
Definition createEnvelope (startTime startValue endValue duration : Qc)
  : option string :=
  in_turn
    [ setValueAtTime startValue startTime;
      exponentialRampToValueAtTime (Num.max endValue (Num.dec 0.001))
        (startTime + duration) ].

End AudioParam.

(** ** synthesis/engines/SnareSynth.ts

    The constructor creates [this.noiseBuffer] and nothing assigns the
    field afterwards; the model keeps the tests of the field, with the
    field as the parameter [noiseBuffer].  The [nodes] array holds
    references: a call on a node made after it was pushed is a change of
    the array's element. *)

Module SnareSynth.
Import WebAudio BaseDrumSynth AudioParam.

(** [nodes[index].connect(...)]; on [undefined] the call raises. *)
Definition connect_at (index : nat) (nodes : list AudioNode)
  : Completion (list AudioNode) :=
  match nodes !! index with
  | Some node => Normal (<[index := connect node]> nodes)
  | None => Abrupt "TypeError"
  end.

(** [trigger(time, velocity, params)]. *)
Definition trigger (noiseBuffer : bool) (time velocity : Qc)
    (params : option SynthParameters) (s : BaseDrumSynth.t)
  : Outcome BaseDrumSynth.t :=
  let tone := param params "tone" (Num.dec 0.5) s in
  let bodyFreq := param params "bodyFreq" (Num.int 250) s in
  let noiseLevel := param params "noiseLevel" (Num.dec 0.7) s in
  let bodyDecay := param params "bodyDecay" (Num.dec 0.12) s in
  let noiseDecay := param params "noiseDecay" (Num.dec 0.08) s in
  let resonance := param params "resonance" (Num.int 8) s in
  (* --- Body Tone --- *)
  let bodyOsc := connect (create OscillatorNode) in
  let bodyFilter := connect (create BiquadFilterNode) in
  let bodyGain := create GainNode in
  match in_turn
          [ setValueAtTime bodyFreq time;         (* bodyOsc.frequency *)
            setValueAtTime bodyFreq time;         (* bodyFilter.frequency *)
            setValueAtTime resonance time;        (* bodyFilter.Q *)
            setValueAtTime (velocity * tone) time;  (* bodyGain.gain *)
            createEnvelope time (velocity * tone) (Num.dec 0.001) bodyDecay ]
  with
  | Some e => Raised e s
  | None =>
  let nodes := [bodyOsc; bodyFilter; bodyGain] in
  (* --- Noise Component --- *)
  let noise :=
    if noiseBuffer then
      let noiseSource := connect (create AudioBufferSourceNode) in
      let noiseFilter := connect (create BiquadFilterNode) in
      let noiseGain := create GainNode in
      match in_turn
              [ setValueAtTime (Num.int 3000) time;     (* noiseFilter.frequency *)
                setValueAtTime 1 time;                  (* noiseFilter.Q *)
                setValueAtTime (velocity * noiseLevel) time;  (* noiseGain.gain *)
                createEnvelope time (velocity * noiseLevel) (Num.dec 0.001)
                  noiseDecay ]
      with
      | Some e => Raised e (nodes, s)
      | None =>
      (* noiseSource.start(time); noiseSource.stop(time + noiseDecay + 0.1); *)
      match node_start time noiseSource with
      | Abrupt e => Raised e (nodes, s)
      | Normal noiseSource =>
      let s := log_event (SourceStart (fresh s) time) s in
      match node_stop (time + noiseDecay + Num.dec 0.1) noiseSource with
      | Abrupt e => Raised e (nodes, s)
      | Normal noiseSource =>
          Done (nodes ++ [noiseSource; noiseFilter; noiseGain], s)
      end end end
    else Done (nodes, s) in
  match noise with
  | Raised e (_, s) => Raised e s
  | Done (nodes, s) =>
  (* --- Output Stage --- *)
  let masterGain := create GainNode in
  match setValueAtTime (Num.dec 0.7) time with    (* masterGain.gain *)
  | Some e => Raised e s
  | None =>
  let nodes := nodes ++ [masterGain] in
  (* bodyGain.connect(masterGain); *)
  let nodes := <[2%nat := connect bodyGain]> nodes in
  (* if (this.noiseBuffer) nodes[nodes.length - 4].connect(masterGain); *)
  match (if noiseBuffer then connect_at (length nodes - 4) nodes
         else Normal nodes) with
  | Abrupt e => Raised e s
  | Normal nodes =>
  (* masterGain.connect(this.outputNode); *)
  let nodes := alter connect (length nodes - 1)%nat nodes in
  (* bodyOsc.start(time); *)
  match node_start time bodyOsc with
  | Abrupt e => Raised e s
  | Normal bodyOsc' =>
  let s := log_event (SourceStart (fresh s) time) s in
  let endTime := time + Num.max bodyDecay noiseDecay + Num.dec 0.1 in
  (* bodyOsc.stop(endTime); *)
  match node_stop endTime bodyOsc' with
  | Abrupt e => Raised e s
  | Normal bodyOsc' =>
  let nodes := <[0%nat := bodyOsc']> nodes in
  let voice :=
    {| nodes := nodes; startTime := time; endTime := endTime;
       captured_chokeGroup := None |} in
  Done (add_voice voice s)
  end end end end end end.

End SnareSynth.

(** ** synthesis/engines/ClapSynth.ts *)

Module ClapSynth.
Import WebAudio BaseDrumSynth AudioParam.

(** The rounds [i], [i + 1], ..., [i + n - 1] of the loop over the
    layers; [nodes] is the array so far. *)
Fixpoint layers_from (n i : nat) (time velocity pitch decay tone spread
                        resonance : Qc)
    (nodes : list AudioNode) (s : BaseDrumSynth.t)
  : Outcome (list AudioNode * BaseDrumSynth.t) :=
  match n with
  | O => Done (nodes, s)
  | S n' =>
      let layerTime := time + Num.int (Z.of_nat i) * spread in
      let layerVelocity :=
        velocity * (Num.dec 0.7 + Num.int (Z.of_nat i) * Num.dec 0.15) in
      let noiseSource := connect (create AudioBufferSourceNode) in
      let filter := connect (create BiquadFilterNode) in
      let gain := create GainNode in
      let layerDecay :=
        decay * (Num.dec 0.8 + Num.int (Z.of_nat i) * Num.dec 0.1) in
      match in_turn
              [ setValueAtTime (pitch * tone) layerTime;   (* filter.frequency *)
                setValueAtTime resonance layerTime;        (* filter.Q *)
                setValueAtTime (layerVelocity * Num.dec 0.8) layerTime;
                createEnvelope layerTime (layerVelocity * Num.dec 0.8)
                  (Num.dec 0.001) layerDecay ]
      with
      | Some e => Raised e (nodes, s)
      | None =>
      let nodes := nodes ++ [noiseSource; filter; gain] in
      (* noiseSource.start(layerTime); *)
      match node_start layerTime noiseSource with
      | Abrupt e => Raised e (nodes, s)
      | Normal noiseSource =>
      let s := log_event (SourceStart (fresh s) layerTime) s in
      (* noiseSource.stop(layerTime + layerDecay + 0.05); *)
      match node_stop (layerTime + layerDecay + Num.dec 0.05) noiseSource with
      | Abrupt e => Raised e (nodes, s)
      | Normal noiseSource =>
          layers_from n' (S i) time velocity pitch decay tone spread resonance
            (<[(length nodes - 3)%nat := noiseSource]> nodes) s
      end end end
  end.

(** [trigger(time, velocity, params)]. *)
Definition trigger (noiseBuffer : bool) (time velocity : Qc)
    (params : option SynthParameters) (s : BaseDrumSynth.t)
  : Outcome BaseDrumSynth.t :=
  let pitch := param params "pitch" 1000 s in
  let decay := param params "decay" (Num.dec 0.1) s in
  let tone := param params "tone" (Num.dec 0.6) s in
  let layers := param params "layers" (Num.int 3) s in
  let spread := param params "spread" (Num.dec 0.02) s in
  let resonance := param params "resonance" (Num.int 2) s in
  if negb noiseBuffer then Done s
  else
  let layerCount := Math.floor layers in
  match layers_from (Z.to_nat (Qfloor layers)) 0 time velocity pitch decay
          tone spread resonance [] s with
  | Raised e (_, s) => Raised e s
  | Done (nodes, s) =>
  let masterGain := create GainNode in
  match setValueAtTime (Num.dec 0.7) time with    (* masterGain.gain *)
  | Some e => Raised e s
  | None =>
  let nodes := nodes ++ [masterGain] in
  (* nodes.forEach(node => { if (node instanceof GainNode
                                  && node !== masterGain)
                               node.connect(masterGain); }); *)
  let nodes :=
    imap (fun index node =>
            match kind node with
            | GainNode =>
                if bool_decide (index = (length nodes - 1)%nat) then node
                else connect node
            | _ => node
            end) nodes in
  (* masterGain.connect(this.outputNode); *)
  let nodes := alter connect (length nodes - 1)%nat nodes in
  let endTime := time + decay + spread * layerCount + Num.dec 0.1 in
  let voice :=
    {| nodes := nodes; startTime := time; endTime := endTime;
       captured_chokeGroup := None |} in
  Done (add_voice voice s)
  end end.

End ClapSynth.

(** ** synthesis/engines/TomSynth.ts *)

Module TomSynth.
Import WebAudio BaseDrumSynth AudioParam.

(** [trigger(time, velocity, params)]. *)
Definition trigger (time velocity : Qc) (params : option SynthParameters)
    (s : BaseDrumSynth.t) : Outcome BaseDrumSynth.t :=
  let pitch := param params "pitch" (Num.int 150) s in
  let decay := param params "decay" (Num.dec 0.4) s in
  let tone := param params "tone" (Num.dec 0.5) s in
  let pitchDecay := param params "pitchDecay" (Num.dec 0.08) s in
  let pitchAmount := param params "pitchAmount" (Num.dec 2.5) s in
  let resonance := param params "resonance" 4 s in
  let bodyOsc := connect (create OscillatorNode) in
  let bodyFilter := connect (create BiquadFilterNode) in
  let bodyGain := connect (create GainNode) in
  let attackOsc := connect (create OscillatorNode) in
  let attackFilter := connect (create BiquadFilterNode) in
  let attackGain := connect (create GainNode) in
  let masterGain := connect (create GainNode) in
  match in_turn
          [ setValueAtTime (pitch * pitchAmount) time;   (* bodyOsc.frequency *)
            exponentialRampToValueAtTime pitch (time + pitchDecay);
            setValueAtTime (pitch * 4) time;             (* bodyFilter.frequency *)
            setValueAtTime resonance time;               (* bodyFilter.Q *)
            setValueAtTime velocity time;                (* bodyGain.gain *)
            createEnvelope time velocity (Num.dec 0.001) decay;
            setValueAtTime (pitch * Num.int 2) time;     (* attackOsc.frequency *)
            setValueAtTime (Num.int 200) time;           (* attackFilter.frequency *)
            setValueAtTime 1 time;                       (* attackFilter.Q *)
            setValueAtTime (velocity * tone * Num.dec 0.4) time;
            createEnvelope time (velocity * tone * Num.dec 0.4) (Num.dec 0.001)
              (Num.dec 0.05);
            setValueAtTime (Num.dec 0.9) time ]          (* masterGain.gain *)
  with
  | Some e => Raised e s
  | None =>
  (* bodyOsc.start(time); attackOsc.start(time); *)
  match node_start time bodyOsc with
  | Abrupt e => Raised e s
  | Normal bodyOsc =>
  let s := log_event (SourceStart (fresh s) time) s in
  match node_start time attackOsc with
  | Abrupt e => Raised e s
  | Normal attackOsc =>
  let s := log_event (SourceStart (fresh s) time) s in
  let endTime := time + decay + Num.dec 0.1 in
  (* bodyOsc.stop(endTime); attackOsc.stop(endTime); *)
  match node_stop endTime bodyOsc with
  | Abrupt e => Raised e s
  | Normal bodyOsc =>
  match node_stop endTime attackOsc with
  | Abrupt e => Raised e s
  | Normal attackOsc =>
  let voice :=
    {| nodes := [bodyOsc; bodyFilter; bodyGain; attackOsc; attackFilter;
                 attackGain; masterGain];
       startTime := time; endTime := endTime;
       captured_chokeGroup := None |} in
  Done (add_voice voice s)
  end end end end end.

End TomSynth.

(** ** synthesis/engines/RimSynth.ts *)

Module RimSynth.
Import WebAudio BaseDrumSynth AudioParam.

(** [trigger(time, velocity, params)]. *)
Definition trigger (time velocity : Qc) (params : option SynthParameters)
    (s : BaseDrumSynth.t) : Outcome BaseDrumSynth.t :=
  let pitch := param params "pitch" (Num.int 400) s in
  let decay := param params "decay" (Num.dec 0.08) s in
  let tone := param params "tone" (Num.dec 0.7) s in
  let resonance := param params "resonance" (Num.int 12) s in
  let noiseLevel := param params "noiseLevel" (Num.dec 0.3) s in
  let osc := connect (create OscillatorNode) in
  let filter := connect (create BiquadFilterNode) in
  let oscGain := connect (create GainNode) in
  let clickOsc := connect (create OscillatorNode) in
  let clickFilter := connect (create BiquadFilterNode) in
  let clickGain := connect (create GainNode) in
  let masterGain := connect (create GainNode) in
  match in_turn
          [ setValueAtTime pitch time;                   (* osc.frequency *)
            setValueAtTime (pitch * Num.int 2) time;     (* filter.frequency *)
            setValueAtTime (resonance * tone) time;      (* filter.Q *)
            setValueAtTime (velocity * Num.dec 0.6) time;   (* oscGain.gain *)
            createEnvelope time (velocity * Num.dec 0.6) (Num.dec 0.001) decay;
            setValueAtTime (pitch * Num.int 6) time;     (* clickOsc.frequency *)
            exponentialRampToValueAtTime (pitch * Num.int 2)
              (time + Num.dec 0.01);
            setValueAtTime (Num.int 2000) time;          (* clickFilter.frequency *)
            setValueAtTime (Num.dec 0.5) time;           (* clickFilter.Q *)
            setValueAtTime (velocity * noiseLevel) time; (* clickGain.gain *)
            createEnvelope time (velocity * noiseLevel) (Num.dec 0.001)
              (Num.dec 0.02);
            setValueAtTime (Num.dec 0.8) time ]          (* masterGain.gain *)
  with
  | Some e => Raised e s
  | None =>
  (* osc.start(time); clickOsc.start(time); *)
  match node_start time osc with
  | Abrupt e => Raised e s
  | Normal osc =>
  let s := log_event (SourceStart (fresh s) time) s in
  match node_start time clickOsc with
  | Abrupt e => Raised e s
  | Normal clickOsc =>
  let s := log_event (SourceStart (fresh s) time) s in
  let endTime := time + decay + Num.dec 0.05 in
  (* osc.stop(endTime); clickOsc.stop(endTime); *)
  match node_stop endTime osc with
  | Abrupt e => Raised e s
  | Normal osc =>
  match node_stop endTime clickOsc with
  | Abrupt e => Raised e s
  | Normal clickOsc =>
  let voice :=
    {| nodes := [osc; filter; oscGain; clickOsc; clickFilter; clickGain;
                 masterGain];
       startTime := time; endTime := endTime;
       captured_chokeGroup := None |} in
  Done (add_voice voice s)
  end end end end end.

End RimSynth.

(** ** synthesis/engines/PercSynth.ts

    The noise buffer filled at every trigger (and the calls of
    [Math.random] that fill it) is not modelled. *)

Module PercSynth.
Import WebAudio BaseDrumSynth AudioParam.

(** [trigger(time, velocity, params)]. *)
Definition trigger (time velocity : Qc) (params : option SynthParameters)
    (s : BaseDrumSynth.t) : Outcome BaseDrumSynth.t :=
  let pitch := param params "pitch" (Num.int 300) s in
  let decay := param params "decay" (Num.dec 0.12) s in
  let tone := param params "tone" (Num.dec 0.5) s in
  let harmonics := param params "harmonics" (Num.dec 2.5) s in
  let resonance := param params "resonance" (Num.int 6) s in
  let osc1 := connect (create OscillatorNode) in
  let osc2 := connect (create OscillatorNode) in
  let oscGain := connect (create GainNode) in
  let osc1Gain := connect (create GainNode) in
  let osc2Gain := connect (create GainNode) in
  let filter := connect (create BiquadFilterNode) in
  let envGain := connect (create GainNode) in
  let noiseSource := connect (create AudioBufferSourceNode) in
  let noiseFilter := connect (create BiquadFilterNode) in
  let noiseGain := connect (create GainNode) in
  let masterGain := connect (create GainNode) in
  match in_turn
          [ setValueAtTime pitch time;                   (* osc1.frequency *)
            exponentialRampToValueAtTime (pitch * Num.dec 0.8)
              (time + decay * Num.dec 0.3);
            setValueAtTime (pitch * harmonics) time;     (* osc2.frequency *)
            setValueAtTime (Num.dec 0.6) time;           (* osc1Gain.gain *)
            setValueAtTime (Num.dec 0.4 * tone) time;    (* osc2Gain.gain *)
            setValueAtTime (pitch * Num.dec 1.5) time;   (* filter.frequency *)
            setValueAtTime resonance time;               (* filter.Q *)
            setValueAtTime (velocity * tone) time;       (* envGain.gain *)
            createEnvelope time (velocity * tone) (Num.dec 0.001) decay;
            setValueAtTime (pitch * Num.int 2) time;     (* noiseFilter.frequency *)
            setValueAtTime (Num.int 2) time;             (* noiseFilter.Q *)
            setValueAtTime (velocity * (1 - tone) * Num.dec 0.3) time;
            createEnvelope time (velocity * (1 - tone) * Num.dec 0.3)
              (Num.dec 0.001) (decay * Num.dec 0.5);
            setValueAtTime (Num.dec 0.7) time ]          (* masterGain.gain *)
  with
  | Some e => Raised e s
  | None =>
  (* osc1.start(time); osc2.start(time); noiseSource.start(time); *)
  match node_start time osc1 with
  | Abrupt e => Raised e s
  | Normal osc1 =>
  let s := log_event (SourceStart (fresh s) time) s in
  match node_start time osc2 with
  | Abrupt e => Raised e s
  | Normal osc2 =>
  let s := log_event (SourceStart (fresh s) time) s in
  match node_start time noiseSource with
  | Abrupt e => Raised e s
  | Normal noiseSource =>
  let s := log_event (SourceStart (fresh s) time) s in
  let endTime := time + decay + Num.dec 0.05 in
  (* osc1.stop(endTime); osc2.stop(endTime);
     noiseSource.stop(time + decay * 0.5 + 0.05); *)
  match node_stop endTime osc1 with
  | Abrupt e => Raised e s
  | Normal osc1 =>
  match node_stop endTime osc2 with
  | Abrupt e => Raised e s
  | Normal osc2 =>
  match node_stop (time + decay * Num.dec 0.5 + Num.dec 0.05) noiseSource with
  | Abrupt e => Raised e s
  | Normal noiseSource =>
  let voice :=
    {| nodes := [osc1; osc2; osc1Gain; osc2Gain; filter; envGain; oscGain;
                 noiseSource; noiseFilter; noiseGain; masterGain];
       startTime := time; endTime := endTime;
       captured_chokeGroup := None |} in
  Done (add_voice voice s)
  end end end end end end end.

End PercSynth.

(** ** Vocabulary of the statements *)

(** [s'] differs from [s] at most in what the engine received, the
    random draws consumed, the console and the pending timeouts. *)
Definition frame (s s' : Sys) : Prop :=
  sequencer s' = sequencer s
  /\ context (audioEngine s') = context (audioEngine s)
  /\ initialized (audioEngine s') = initialized (audioEngine s)
  /\ synths (audioEngine s') = synths (audioEngine s)
  /\ random s' = random s
  /\ intervals s' = intervals s
  /\ handles s' = handles s.

(** [s'] has the transport state of [s]: the scheduling loop moves only
    the step cursor and the accumulator, and adds to what [frame] allows. *)
Definition transport (s s' : Sys) : Prop :=
  isPlaying (sequencer s') = isPlaying (sequencer s)
  /\ timerID (sequencer s') = timerID (sequencer s)
  /\ pattern (sequencer s') = pattern (sequencer s)
  /\ onStepCallback (sequencer s') = onStepCallback (sequencer s)
  /\ context (audioEngine s') = context (audioEngine s)
  /\ initialized (audioEngine s') = initialized (audioEngine s)
  /\ synths (audioEngine s') = synths (audioEngine s)
  /\ random s' = random s
  /\ intervals s' = intervals s
  /\ handles s' = handles s.

(** The system right after the assignments at the head of [start], before
    its first [schedule()]: playing, the cursor on step 0, the accumulator
    at the clock. *)
Definition begun (p : Pattern.t) (onStep : option Callback) (s : Sys) : Sys :=
  set_sequencer
    (fun q => {| isPlaying := true; currentStep := 0; nextStepTime := clock s;
                 timerID := timerID q; pattern := Some p;
                 onStepCallback := onStep |}) s.

(** The swing delay of a pattern: [secondsPerStep * swing * 0.5] when
    [swing > 0]. *)
Definition swingDelay (p : Pattern.t) : Qc :=
  if Num.gtb (Pattern.swing p) 0
  then secondsPerStep p * Pattern.swing p * Num.dec 0.5
  else 0.

(** The call [c] is what [track] sends to the engine for its step data
    [sd] when the audio clock reads [clock]. *)
Definition dispatch_of (track : Track.t) (sd : StepData.t) (clock : Qc)
    (c : SynthCall) : Prop :=
  call_synth c = Track.synthType track
  /\ call_time c = clock
  /\ call_velocity c = StepData.velocity sd * Track.volume track / 127
  /\ call_params c
     = Some (spread (Track.synthParams track) (StepData.parameters sd)).

(** The track passes the three gates that precede the probability draw
    in [scheduleStep]. *)
Definition eligible (hasSolo : bool) (track : Track.t) (sd : StepData.t) : Prop :=
  StepData.active sd = true
  /\ Track.mute track = false
  /\ (hasSolo = true -> Track.solo track = true).

(** [c] was sent for some eligible track of [p] at step [step]. *)
Definition sent_by (p : Pattern.t) (step : nat) (clock : Qc) (c : SynthCall)
  : Prop :=
  exists track sd,
    track ∈ Pattern.tracks p
    /\ Track.steps track !! step = Some sd
    /\ eligible (existsb Track.solo (Pattern.tracks p)) track sd
    /\ dispatch_of track sd clock c.

(** The kinds of the nodes of a hi-hat voice, in the order of its
    [nodes] array. *)
Definition hat_kinds : list WebAudio.NodeKind :=
  [WebAudio.AudioBufferSourceNode; WebAudio.BiquadFilterNode;
   WebAudio.BiquadFilterNode; WebAudio.BiquadFilterNode;
   WebAudio.BiquadFilterNode; WebAudio.GainNode; WebAudio.GainNode].

(** The bookkeeping of a hi-hat synthesizer is consistent: the active
    voices are exactly the voices registered in [activeChokeGroup], each
    under the choke group it was created in; addresses in use are below
    the next free one; every voice object is a hi-hat voice. *)
Definition consistent (s : HiHatSynth.t) : Prop :=
  (forall v, v ∈ BaseDrumSynth.voices (HiHatSynth.base s) ->
     exists g, HiHatSynth.group_of s v = Some g
               /\ HiHatSynth.activeChokeGroup s !! g = Some v)
  /\ (forall g v, HiHatSynth.activeChokeGroup s !! g = Some v ->
        v ∈ BaseDrumSynth.voices (HiHatSynth.base s)
        /\ HiHatSynth.group_of s v = Some g)
  /\ (forall v, v ∈ dom (BaseDrumSynth.heap (HiHatSynth.base s)) ->
        (v < BaseDrumSynth.fresh (HiHatSynth.base s))%nat)
  /\ (forall v voice,
        BaseDrumSynth.heap (HiHatSynth.base s) !! v = Some voice ->
        map WebAudio.kind (BaseDrumSynth.nodes voice) = hat_kinds
        /\ is_Some (BaseDrumSynth.captured_chokeGroup voice)).

(** The ranges the store keeps step data in. *)
Definition valid_step (sd : StepData.t) : Prop :=
  0 <= StepData.velocity sd /\ StepData.velocity sd <= 127
  /\ 0 <= StepData.probability sd /\ StepData.probability sd <= 1.

(** A track of [n] steps within the store's ranges. *)
Definition valid_track (n : nat) (track : Track.t) : Prop :=
  length (Track.steps track) = n
  /\ 0 <= Track.volume track /\ Track.volume track <= 1
  /\ Forall valid_step (Track.steps track).

(** A pattern within the ranges the store's actions enforce: the tempo in
    60..300, the swing in 0..1, eight tracks of sixteen steps. *)
Definition valid_pattern (p : Pattern.t) : Prop :=
  60 <= Pattern.bpm p /\ Pattern.bpm p <= Num.int 300
  /\ 0 <= Pattern.swing p /\ Pattern.swing p <= 1
  /\ Pattern.steps p = 16%nat
  /\ length (Pattern.tracks p) = 8%nat
  /\ Forall (valid_track 16) (Pattern.tracks p).

(** [Math.random()] returns numbers in [0, 1). *)
Definition unit_draws (draw : nat -> Qc) : Prop :=
  forall n, 0 <= draw n /\ draw n < 1.

(** One action of the pattern store.  An action whose recipe raises
    leaves the store as it was and is no step; [loadPattern] is given a
    pattern within the ranges. *)
Inductive action : PatternStore.PatternState -> PatternStore.PatternState -> Prop :=
| act_toggleStep i j st st' :
    PatternStore.toggleStep i j st = Some st' -> action st st'
| act_setStepVelocity i j v st st' :
    PatternStore.setStepVelocity i j v st = Some st' -> action st st'
| act_setStepProbability i j q st st' :
    PatternStore.setStepProbability i j q st = Some st' -> action st st'
| act_setBpm v st : action st (PatternStore.setBpm v st)
| act_setSwing v st : action st (PatternStore.setSwing v st)
| act_togglePlay st : action st (PatternStore.togglePlay st)
| act_setCurrentStep n st : action st (PatternStore.setCurrentStep n st)
| act_setTrackVolume i v st st' :
    PatternStore.setTrackVolume i v st = Some st' -> action st st'
| act_toggleMute i st st' :
    PatternStore.toggleMute i st = Some st' -> action st st'
| act_toggleSolo i st st' :
    PatternStore.toggleSolo i st = Some st' -> action st st'
| act_setSynthParameter i k v st st' :
    PatternStore.setSynthParameter i k v st = Some st' -> action st st'
| act_clearPattern st : action st (PatternStore.clearPattern st)
| act_randomizePattern draw st :
    unit_draws draw -> action st (PatternStore.randomizePattern draw st)
| act_loadPattern p st :
    valid_pattern p -> action st (PatternStore.loadPattern p st)
| act_newPattern uuid now st : action st (PatternStore.newPattern uuid now st)
| act_setPatternName name st : action st (PatternStore.setPatternName name st)
| act_duplicatePattern uuid now st :
    action st (PatternStore.duplicatePattern uuid now st).

(** What [randomizePattern] may turn the step data [sd] into: an active
    step has a whole velocity in 80..126 and a probability in
    [0.7, 1); an inactive one keeps its levels. *)
Definition randomized (sd sd' : StepData.t) : Prop :=
  StepData.microTiming sd' = StepData.microTiming sd
  /\ StepData.parameters sd' = StepData.parameters sd
  /\ if StepData.active sd'
     then (exists n : Z, (80 <= n <= 126)%Z /\ StepData.velocity sd' = Num.int n)
          /\ Num.dec 0.7 <= StepData.probability sd'
          /\ StepData.probability sd' < 1
     else StepData.velocity sd' = StepData.velocity sd
          /\ StepData.probability sd' = StepData.probability sd.

(** The step data at [(i, j)] of a pattern. *)
Definition step_at (p : Pattern.t) (i j : nat) : option StepData.t :=
  track ← Pattern.tracks p !! i; Track.steps track !! j.

(** Every record of the object store sits under its own [id] (the key
    path of the store). *)
Definition keyed (s : PatternStorage.t) : Prop :=
  forall k p, PatternStorage.store s !! k = Some p -> Pattern.id p = k.

(** [l] lists patterns from the newest to the oldest. *)
Definition newest_first (l : list Pattern.t) : Prop :=
  Sorted (fun a b => Pattern.created b <= Pattern.created a) l.

(** The keys [initializeSynths] registers, each with the defaults of the
    class registered under it. *)
Definition registered : list (string * gmap string Qc) :=
  [ ("kick", KickSynth.initializeDefaultParameters);
    ("snare", Engine.snareDefaults);
    ("hihat", HiHatSynth.initializeDefaultParameters);
    ("clap", Engine.clapDefaults);
    ("rim", Engine.rimDefaults);
    ("tom", Engine.tomDefaults);
    ("perc1", Engine.percDefaults);
    ("perc2", Engine.percDefaults) ].

(** Every node of the voice is disconnected. *)
Definition torn_down (voice : BaseDrumSynth.DrumVoice) : Prop :=
  Forall (fun n => WebAudio.connected n = false) (BaseDrumSynth.nodes voice).

(** The kinds of the nodes of a kick voice, in the order of its [nodes]
    array. *)
Definition kick_kinds : list WebAudio.NodeKind :=
  [WebAudio.OscillatorNode; WebAudio.GainNode; WebAudio.OscillatorNode;
   WebAudio.BiquadFilterNode; WebAudio.GainNode; WebAudio.WaveShaperNode;
   WebAudio.GainNode].

(** Every voice of the synthesizer is accounted for: a voice in
    [this.voices] is a kick voice with its nodes connected and a cleanup
    timer registered for it; a voice no longer in the set has every node
    disconnected; addresses in use are below the next free one. *)
Definition accounted (s : BaseDrumSynth.t) : Prop :=
  (forall v, v ∈ BaseDrumSynth.voices s ->
     exists voice,
       BaseDrumSynth.heap s !! v = Some voice
       /\ Forall (fun n => WebAudio.connected n = true)
                 (BaseDrumSynth.nodes voice)
       /\ exists delay, (v, delay) ∈ BaseDrumSynth.cleanups s)
  /\ (forall v voice,
        BaseDrumSynth.heap s !! v = Some voice ->
        (v < BaseDrumSynth.fresh s)%nat
        /\ map WebAudio.kind (BaseDrumSynth.nodes voice) = kick_kinds
        /\ (v ∉ BaseDrumSynth.voices s -> torn_down voice)).

(** The kinds of the nodes of a snare voice, in the order of its [nodes]
    array: body oscillator, body filter, body gain, noise source, noise
    filter, noise gain, master gain. *)
Definition snare_kinds : list WebAudio.NodeKind :=
  [WebAudio.OscillatorNode; WebAudio.BiquadFilterNode; WebAudio.GainNode;
   WebAudio.AudioBufferSourceNode; WebAudio.BiquadFilterNode;
   WebAudio.GainNode; WebAudio.GainNode].

(** The kinds of the nodes of a tom voice and of a rim voice. *)
Definition tom_kinds : list WebAudio.NodeKind :=
  [WebAudio.OscillatorNode; WebAudio.BiquadFilterNode; WebAudio.GainNode;
   WebAudio.OscillatorNode; WebAudio.BiquadFilterNode; WebAudio.GainNode;
   WebAudio.GainNode].

(** The kinds of the nodes of a percussion voice. *)
Definition perc_kinds : list WebAudio.NodeKind :=
  [WebAudio.OscillatorNode; WebAudio.OscillatorNode; WebAudio.GainNode;
   WebAudio.GainNode; WebAudio.BiquadFilterNode; WebAudio.GainNode;
   WebAudio.GainNode; WebAudio.AudioBufferSourceNode;
   WebAudio.BiquadFilterNode; WebAudio.GainNode; WebAudio.GainNode].

(** [s'] is [s] with the one new voice [voice] registered: in
    [this.voices], with the cleanup timer due 100 ms after its end, its
    nodes of the given kinds and all connected; the parameters stay. *)
Definition registered_voice (s s' : BaseDrumSynth.t)
    (voice : BaseDrumSynth.DrumVoice) (kinds : list WebAudio.NodeKind) : Prop :=
  BaseDrumSynth.voices s' = {[BaseDrumSynth.fresh s]} ∪ BaseDrumSynth.voices s
  /\ BaseDrumSynth.heap s'
     = <[BaseDrumSynth.fresh s := voice]> (BaseDrumSynth.heap s)
  /\ BaseDrumSynth.fresh s' = S (BaseDrumSynth.fresh s)
  /\ BaseDrumSynth.cleanups s'
     = BaseDrumSynth.cleanups s
       ++ [(BaseDrumSynth.fresh s,
            (BaseDrumSynth.endTime voice - BaseDrumSynth.now s) * 1000 + 100)]
  /\ BaseDrumSynth.parameters s' = BaseDrumSynth.parameters s
  /\ map WebAudio.kind (BaseDrumSynth.nodes voice) = kinds
  /\ Forall (fun n => WebAudio.connected n = true) (BaseDrumSynth.nodes voice).

(** The source node [node] plays within the life of [voice]: it starts
    no earlier than the voice and stops, after it started, no later than
    the voice ends. *)
Definition plays_within (voice : BaseDrumSynth.DrumVoice)
    (node : WebAudio.AudioNode) : Prop :=
  exists a b,
    WebAudio.startedAt node = Some a /\ WebAudio.stopAt node = Some b
    /\ BaseDrumSynth.startTime voice <= a /\ a < b
    /\ b <= BaseDrumSynth.endTime voice.

(** * Properties *)

(** ** Numbers *)

(** Goals on [Qc] are sent to [Q], where [lra] and [ring] apply. *)
Ltac to_Q :=
  unfold Qcle, Qclt, Qcdiv, Qcminus, Qcplus, Qcopp, Qcmult, Qcinv, Num.int,
    Num.dec in *;
  cbn [this Q2Qc] in *;
  repeat (rewrite ?Qred_correct in *; cbn [this Q2Qc] in * ).

Lemma ltb_lt (x y : Qc) : Num.ltb x y = true <-> x < y.
Proof.
  unfold Num.ltb. rewrite Qclt_alt.
  destruct (x ?= y); intuition congruence.
Qed.

Lemma ltb_ge (x y : Qc) : Num.ltb x y = false <-> y <= x.
Proof.
  rewrite Qcle_ngt, <- ltb_lt.
  destruct (Num.ltb x y); intuition congruence.
Qed.

Lemma gtb_gt (x y : Qc) : Num.gtb x y = true <-> y < x.
Proof. apply ltb_lt. Qed.

Lemma int_succ (n : nat) (x : Qc) :
  Num.int (Z.of_nat (S n)) * x = Num.int (Z.of_nat n) * x + x.
Proof.
  apply Qc_is_canon. to_Q.
  rewrite Nat2Z.inj_succ. unfold Z.succ. rewrite inject_Z_plus. ring.
Qed.

Lemma plus_le_r (a b c : Qc) : 0 <= c -> a <= b -> a <= b + c.
Proof. intros. to_Q. lra. Qed.

Lemma window_shrinks (limit next inc sps f : Qc) :
  limit - next <= f + sps -> sps <= inc -> limit - (next + inc) <= f.
Proof. intros. to_Q. lra. Qed.

Lemma window_closed (limit next : Qc) :
  limit - next <= 0 -> limit <= next.
Proof. intros. to_Q. lra. Qed.

Lemma le_plus_nonneg (a b : Qc) : 0 <= b -> a <= a + b.
Proof. intros. to_Q. lra. Qed.


Lemma zero_times (x : Qc) : Num.int (Z.of_nat 0) * x = 0.
Proof. apply Qc_is_canon. to_Q. simpl. ring. Qed.

(** ** The scheduler: what each method changes *)

Lemma frame_refl s : frame s s.
Proof. repeat split. Qed.

Lemma frame_trans s1 s2 s3 : frame s1 s2 -> frame s2 s3 -> frame s1 s3.
Proof.
  unfold frame. intros (?&?&?&?&?&?&?) (?&?&?&?&?&?&?).
  repeat split; congruence.
Qed.

Lemma triggerDrum_effect ty v ps s :
  exists s', triggerDrum ty v ps s = Ret tt s' /\ frame s s' /\ drawn s' = drawn s
    /\ (calls (audioEngine s') = calls (audioEngine s)
        \/ exists ctx, context (audioEngine s) = Some ctx
             /\ initialized (audioEngine s) = true
             /\ ty ∈ synths (audioEngine s)
             /\ calls (audioEngine s')
                = calls (audioEngine s)
                  ++ [{| call_synth := ty; call_time := currentTime ctx;
                         call_velocity := v / 127; call_params := ps |}]).
Proof.
  unfold triggerDrum, console_put.
  destruct (context (audioEngine s)) as [ctx|] eqn:Hc.
  - destruct (initialized (audioEngine s)) eqn:Hi; simpl.
    + case_bool_decide; simpl.
      * eexists; split; [reflexivity|]. repeat split; try done.
        right. exists ctx. done.
      * eexists; split; [reflexivity|]. repeat split; auto.
    + eexists; split; [reflexivity|]. repeat split; auto.
  - eexists; split; [reflexivity|]. repeat split; auto.
Qed.

Lemma frame_clock s s' : frame s s' -> clock s' = clock s.
Proof. intros (_&H&_). unfold clock. by rewrite H. Qed.

Lemma scheduleTrack_effect h step track sd s :
  Track.steps track !! step = Some sd ->
  exists s', scheduleTrack h step track s = Ret tt s' /\ frame s s'
    /\ (calls (audioEngine s') = calls (audioEngine s)
        \/ (eligible h track sd
            /\ ~ StepData.probability sd < random s (drawn s)
            /\ exists c, dispatch_of track sd (clock s) c
                 /\ calls (audioEngine s') = calls (audioEngine s) ++ [c])).
Proof.
  intros Hsd. unfold scheduleTrack. rewrite Hsd.
  destruct (StepData.active sd) eqn:Ha; simpl;
    [|exists s; auto using frame_refl].
  destruct (Track.mute track) eqn:Hm; simpl;
    [exists s; auto using frame_refl|].
  destruct (h && negb (Track.solo track)) eqn:Hs;
    [exists s; auto using frame_refl|].
  unfold bind, Math_random.
  destruct (Num.gtb _ _) eqn:Hp.
  { eexists; split; [reflexivity|]. split; [repeat split|]. by left. }
  destruct (triggerDrum_effect (Track.synthType track)
              (StepData.velocity sd * Track.volume track)
              (Some (spread (Track.synthParams track) (StepData.parameters sd)))
              (set_drawn (S (drawn s)) s)) as (s' & -> & Hf & _ & Hc).
  exists s'. split; [done|]. split.
  { eapply frame_trans; [|exact Hf]. repeat split. }
  destruct Hc as [Hc | (ctx & Hctx & _ & _ & Hc)]; [by left|right].
  split.
  { repeat split; auto. intros ->. simpl in Hs. by destruct (Track.solo track). }
  split.
  { intros Hlt. apply gtb_gt in Hlt. congruence. }
  eexists; split; [|exact Hc].
  repeat split; simpl. unfold clock. simpl in Hctx. by rewrite Hctx.
Qed.

Lemma forEach_scheduleTrack h step tracks s :
  exists s' new,
    state_of (forEach (scheduleTrack h step) tracks s) = Some s'
    /\ frame s s'
    /\ calls (audioEngine s') = calls (audioEngine s) ++ new
    /\ Forall (fun c => exists track sd,
                 track ∈ tracks /\ Track.steps track !! step = Some sd
                 /\ eligible h track sd /\ dispatch_of track sd (clock s) c) new
    /\ (Forall (fun track => is_Some (Track.steps track !! step)) tracks ->
        forEach (scheduleTrack h step) tracks s = Ret tt s').
Proof.
  revert s. induction tracks as [|track tracks IH]; intros s.
  { exists s, []. simpl. rewrite app_nil_r. auto using frame_refl. }
  simpl. unfold bind.
  destruct (Track.steps track !! step) as [sd|] eqn:Hsd.
  - destruct (scheduleTrack_effect h step track sd s Hsd) as (s1 & -> & Hf & Hc).
    destruct (IH s1) as (s' & new & Hst & Hf' & Hc' & Hall & Hret).
    rewrite (frame_clock _ _ Hf) in Hall.
    destruct Hc as [Hc | (He & _ & c & Hd & Hc)].
    + exists s', new. split; [done|]. split; [by eapply frame_trans|].
      split; [congruence|]. split.
      { eapply List.Forall_impl; [|exact Hall]. intros c (t & sd' & ? & ?).
        exists t, sd'. split; [by right|done]. }
      intros Hwf. apply Hret. by inversion Hwf.
    + exists s', (c :: new). split; [done|]. split; [by eapply frame_trans|].
      split; [rewrite Hc', Hc, <- app_assoc; done|]. split.
      { constructor.
        - exists track, sd. split; [by left|done].
        - eapply List.Forall_impl; [|exact Hall]. intros c' (t & sd' & ? & ?).
          exists t, sd'. split; [by right|done]. }
      intros Hwf. apply Hret. by inversion Hwf.
  - unfold scheduleTrack at 1. rewrite Hsd. simpl.
    exists s, []. rewrite app_nil_r. split; [done|]. split; [apply frame_refl|].
    split; [done|]. split; [constructor|].
    intros Hwf. inversion Hwf as [|? ? [? ?] ?]; congruence.
Qed.

Lemma scheduleStep_effect p step time s :
  pattern (sequencer s) = Some p ->
  exists s' new,
    state_of (scheduleStep step time s) = Some s'
    /\ frame s s'
    /\ calls (audioEngine s') = calls (audioEngine s) ++ new
    /\ Forall (sent_by p step (clock s)) new
    /\ (Forall (fun track => is_Some (Track.steps track !! step))
               (Pattern.tracks p) ->
        scheduleStep step time s = Ret tt s').
Proof.
  intros Hp. unfold scheduleStep. rewrite Hp. unfold bind.
  set (s1 := match onStepCallback (sequencer s) with
             | Some cb => _
             | None => _
             end).
  assert (exists s0, s1 s = Ret tt s0 /\ frame s s0
                     /\ calls (audioEngine s0) = calls (audioEngine s))
    as (s0 & -> & Hf & Hc).
  { subst s1. destruct (onStepCallback (sequencer s)).
    - eexists. split; [reflexivity|]. split; [repeat split|done].
    - exists s. split; [done|]. split; [apply frame_refl|done]. }
  destruct (forEach_scheduleTrack (existsb Track.solo (Pattern.tracks p)) step
              (Pattern.tracks p) s0) as (s' & new & Hst & Hf' & Hc' & Hall & Hret).
  exists s', new. split; [done|]. split; [by eapply frame_trans|].
  split; [congruence|]. split; [|done].
  rewrite (frame_clock _ _ Hf) in Hall. exact Hall.
Qed.

Lemma secondsPerStep_pos p : 0 < Pattern.bpm p -> 0 < secondsPerStep p.
Proof.
  unfold secondsPerStep. intros H. to_Q.
  apply Qmult_lt_0_compat; [apply Qmult_lt_0_compat|]; try done.
  by apply Qinv_lt_0_compat.
Qed.

Lemma swingOffset_nonneg p step : 0 < Pattern.bpm p -> 0 <= swingOffset p step.
Proof.
  intros Hb. unfold swingOffset.
  destruct (_ && _) eqn:Hc; [|done].
  apply andb_true_iff in Hc as [_ Hs]. apply gtb_gt in Hs.
  pose proof (secondsPerStep_pos p Hb) as Hsps.
  to_Q. apply Qlt_le_weak.
  apply Qmult_lt_0_compat; [apply Qmult_lt_0_compat|]; done.
Qed.

Lemma frame_transport s s' : frame s s' -> transport s s'.
Proof.
  intros (Hs & ? & ? & ? & ? & ? & ?). unfold transport. rewrite Hs. done.
Qed.

Lemma transport_trans s1 s2 s3 :
  transport s1 s2 -> transport s2 s3 -> transport s1 s3.
Proof.
  unfold transport. intros (?&?&?&?&?&?&?&?&?&?) (?&?&?&?&?&?&?&?&?&?).
  repeat split; congruence.
Qed.


Lemma transport_clock s s' : transport s s' -> clock s' = clock s.
Proof. intros (_&_&_&_&H&_). unfold clock. by rewrite H. Qed.

Lemma nextStep_effect p s :
  pattern (sequencer s) = Some p ->
  exists s', nextStep s = Ret tt s' /\ transport s s'
    /\ calls (audioEngine s') = calls (audioEngine s)
    /\ currentStep (sequencer s')
       = ((currentStep (sequencer s) + 1) mod Pattern.steps p)%nat
    /\ nextStepTime (sequencer s')
       = nextStepTime (sequencer s)
         + (secondsPerStep p + swingOffset p (currentStep (sequencer s))).
Proof.
  intros Hp. unfold nextStep. rewrite Hp.
  eexists. split; [reflexivity|]. repeat split.
Qed.

Lemma wf_has_step p step :
  wf_pattern p -> (step < Pattern.steps p)%nat ->
  Forall (fun track => is_Some (Track.steps track !! step)) (Pattern.tracks p).
Proof.
  intros (_ & _ & Hlen) Hlt.
  eapply List.Forall_impl; [|exact Hlen]. simpl. intros track Hl.
  apply lookup_lt_is_Some. lia.
Qed.

Lemma loopBody_effect p s :
  pattern (sequencer s) = Some p -> wf_pattern p ->
  (currentStep (sequencer s) < Pattern.steps p)%nat ->
  exists s' new,
    loopBody s = Ret tt s' /\ transport s s'
    /\ calls (audioEngine s') = calls (audioEngine s) ++ new
    /\ Forall (sent_by p (currentStep (sequencer s)) (clock s)) new
    /\ (currentStep (sequencer s') < Pattern.steps p)%nat
    /\ nextStepTime (sequencer s')
       = nextStepTime (sequencer s)
         + (secondsPerStep p + swingOffset p (currentStep (sequencer s))).
Proof.
  intros Hp Hwf Hlt. unfold loopBody, bind.
  destruct (scheduleStep_effect p (currentStep (sequencer s))
              (nextStepTime (sequencer s)) s Hp)
    as (s1 & new & _ & Hf & Hc & Hall & Hret).
  rewrite (Hret (wf_has_step p _ Hwf Hlt)).
  pose proof Hf as (Hseq & _).
  destruct (nextStep_effect p s1) as (s' & -> & Ht & Hc' & Hcur & Hnext);
    [by rewrite Hseq|].
  exists s', new. split; [done|].
  split; [eapply transport_trans; [by apply frame_transport|done]|].
  split; [congruence|]. split; [done|].
  rewrite Hcur, Hnext, Hseq. split; [|done].
  apply Nat.mod_upper_bound. destruct Hwf as (_ & ? & _). lia.
Qed.

Lemma scheduleLoop_effect p now fuel : forall s,
  pattern (sequencer s) = Some p -> wf_pattern p ->
  (currentStep (sequencer s) < Pattern.steps p)%nat ->
  now + scheduleAheadTime - nextStepTime (sequencer s)
    <= Num.int (Z.of_nat fuel) * secondsPerStep p ->
  exists s' new n,
    scheduleLoop fuel now s = Ret tt s'
    /\ repeatM n loopBody s = Ret tt s'
    /\ (nextStepTime (sequencer s) < now + scheduleAheadTime -> (1 <= n)%nat)
    /\ transport s s'
    /\ calls (audioEngine s') = calls (audioEngine s) ++ new
    /\ Forall (fun c => exists step, sent_by p step (clock s) c) new
    /\ (currentStep (sequencer s') < Pattern.steps p)%nat
    /\ now + scheduleAheadTime <= nextStepTime (sequencer s').
Proof.
  induction fuel as [|fuel IH]; intros s Hp Hwf Hlt Hfuel.
  - rewrite zero_times in Hfuel. apply window_closed in Hfuel.
    pose proof Hfuel as Hge. apply ltb_ge in Hfuel.
    exists s, [], 0%nat. simpl. rewrite Hfuel, app_nil_r.
    repeat split; try done.
    intros H. by apply Qclt_not_le in H.
  - simpl. destruct (Num.ltb _ _) eqn:Hcond.
    + unfold bind.
      destruct (loopBody_effect p s Hp Hwf Hlt)
        as (s1 & new1 & Hbody & Ht & Hc & Hall & Hlt1 & Hnext).
      rewrite Hbody.
      pose proof Ht as (_ & _ & Hp1 & _).
      destruct (IH s1) as (s' & new & n & Hloop & Hrep & _ & Ht' & Hc' & Hall' & Hlt' & Hout);
        [congruence|done|done| |].
      { rewrite Hnext. rewrite int_succ in Hfuel.
        eapply window_shrinks; [exact Hfuel|].
        apply le_plus_nonneg, swingOffset_nonneg. by destruct Hwf. }
      exists s', (new1 ++ new), (S n). split; [done|].
      split; [simpl; unfold bind; by rewrite Hbody|].
      split; [intros _; lia|].
      split; [by eapply transport_trans|].
      split; [rewrite Hc', Hc, <- app_assoc; done|].
      split; [|done].
      apply Forall_app. split.
      * eapply List.Forall_impl; [|exact Hall]. intros c Hc0. eauto.
      * by rewrite (transport_clock _ _ Ht) in Hall'.
    + exists s, [], 0%nat. rewrite app_nil_r. repeat split; try done.
      * intros H. apply ltb_lt in H. congruence.
      * by apply ltb_ge.
Qed.

Lemma le_int_ceiling (x : Qc) : x <= Num.int (Z.of_nat (Z.to_nat (Qceiling x))).
Proof.
  to_Q. eapply Qle_trans; [apply Qle_ceiling|].
  rewrite <- Zle_Qle. lia.
Qed.

Lemma loopBound_enough p next now :
  0 < secondsPerStep p ->
  now + scheduleAheadTime - next
    <= Num.int (Z.of_nat (loopBound p next now)) * secondsPerStep p.
Proof.
  intros Hpos. unfold loopBound.
  set (w := now + scheduleAheadTime - next).
  set (d := secondsPerStep p) in *.
  assert (Hd : d <> 0).
  { intros Hd. rewrite Hd in Hpos. by apply Qclt_not_le in Hpos. }
  replace w with (w / d * d) at 1 by (by field).
  apply Qcmult_le_compat_r; [apply le_int_ceiling|by apply Qclt_le_weak].
Qed.

Lemma schedule_effect p s :
  pattern (sequencer s) = Some p -> isPlaying (sequencer s) = true ->
  wf_pattern p -> (currentStep (sequencer s) < Pattern.steps p)%nat ->
  exists s' new n,
    schedule s = Ret tt s'
    /\ repeatM n loopBody s = Ret tt s'
    /\ (nextStepTime (sequencer s) < clock s + scheduleAheadTime -> (1 <= n)%nat)
    /\ transport s s'
    /\ calls (audioEngine s') = calls (audioEngine s) ++ new
    /\ Forall (fun c => exists step, sent_by p step (clock s) c) new
    /\ (currentStep (sequencer s') < Pattern.steps p)%nat
    /\ clock s + scheduleAheadTime <= nextStepTime (sequencer s').
Proof.
  intros Hp Hplay Hwf Hlt. unfold schedule. rewrite Hp, Hplay. simpl.
  unfold bind, getCurrentTime.
  apply scheduleLoop_effect; try done.
  apply loopBound_enough, secondsPerStep_pos. by destruct Hwf.
Qed.

(** ** The accumulator in closed form *)

Lemma half_succ (i : nat) :
  (S i / 2 = i / 2 + (if (i mod 2 =? 1) then 1 else 0))%nat.
Proof.
  destruct (Nat.eqb_spec (i mod 2) 1) as [H|H].
  - pose proof (Nat.div_mod_eq i 2). pose proof (Nat.div_mod_eq (S i) 2).
    pose proof (Nat.mod_upper_bound (S i) 2). lia.
  - pose proof (Nat.div_mod_eq i 2). pose proof (Nat.div_mod_eq (S i) 2).
    pose proof (Nat.mod_upper_bound (S i) 2). pose proof (Nat.mod_upper_bound i 2). lia.
Qed.


Lemma swingOffset_parity p i :
  swingOffset p i = if (i mod 2 =? 1)%nat then swingDelay p else 0.
Proof.
  unfold swingOffset, swingDelay.
  destruct (i mod 2 =? 1)%nat, (Num.gtb (Pattern.swing p) 0); reflexivity.
Qed.

Lemma int_half_succ (i : nat) (d : Qc) :
  Num.int (Z.of_nat (S i / 2)) * d
  = Num.int (Z.of_nat (i / 2)) * d + (if (i mod 2 =? 1)%nat then d else 0).
Proof.
  rewrite half_succ. destruct (i mod 2 =? 1)%nat.
  - rewrite Nat.add_1_r. apply int_succ.
  - rewrite Nat.add_0_r. ring.
Qed.

Lemma accumulator_from p : forall k i s,
  pattern (sequencer s) = Some p -> wf_pattern p ->
  currentStep (sequencer s) = (i mod Pattern.steps p)%nat ->
  (i + k <= Pattern.steps p)%nat ->
  exists s',
    repeatM k loopBody s = Ret tt s'
    /\ pattern (sequencer s') = Some p
    /\ currentStep (sequencer s') = ((i + k) mod Pattern.steps p)%nat
    /\ nextStepTime (sequencer s') + Num.int (Z.of_nat (i / 2)) * swingDelay p
       = nextStepTime (sequencer s)
         + Num.int (Z.of_nat k) * secondsPerStep p
         + Num.int (Z.of_nat ((i + k) / 2)) * swingDelay p.
Proof.
  induction k as [|k IH]; intros i s Hp Hwf Hcur Hle.
  - exists s. rewrite Nat.add_0_r, zero_times. repeat split; try done. ring.
  - assert (Hi : (i mod Pattern.steps p = i)%nat) by (apply Nat.mod_small; lia).
    destruct (loopBody_effect p s Hp Hwf)
      as (s1 & new & Hbody & Ht & _ & _ & Hlt1 & Hnext);
      [rewrite Hcur; apply Nat.mod_upper_bound; lia|].
    pose proof Ht as (_ & _ & Hp1 & _). rewrite Hp in Hp1.
    assert (Hcur1 : currentStep (sequencer s1) = (S i mod Pattern.steps p)%nat).
    { unfold loopBody, bind in Hbody.
      destruct (scheduleStep_effect p (currentStep (sequencer s))
                  (nextStepTime (sequencer s)) s Hp)
        as (s0 & new0 & _ & Hf & _ & _ & Hret).
      assert (Hlt : (currentStep (sequencer s) < Pattern.steps p)%nat)
        by (rewrite Hcur; apply Nat.mod_upper_bound; lia).
      rewrite (Hret (wf_has_step p _ Hwf Hlt)) in Hbody.
      destruct Hf as (Hseq & _).
      destruct (nextStep_effect p s0) as (s2 & Hn & _ & _ & Hc2 & _);
        [by rewrite Hseq|].
      rewrite Hn in Hbody. injection Hbody as <-.
      rewrite Hc2, Hseq, Hcur, Hi. f_equal. lia. }
    destruct (IH (S i) s1 Hp1 Hwf Hcur1) as (s' & Hrep & Hp' & Hcur' & Htime);
      [lia|].
    exists s'. split; [simpl; unfold bind; by rewrite Hbody|].
    split; [done|]. split; [rewrite Hcur'; f_equal; lia|].
    replace (i + S k)%nat with (S i + k)%nat by lia.
    rewrite Hnext, Hcur, Hi, swingOffset_parity in Htime.
    rewrite int_half_succ in Htime. rewrite int_succ.
    set (a := Num.int (Z.of_nat (i / 2)) * swingDelay p) in *.
    set (c := Num.int (Z.of_nat ((S i + k) / 2)) * swingDelay p) in *.
    set (o := if (i mod 2 =? 1)%nat then swingDelay p else 0) in *.
    set (b := Num.int (Z.of_nat k) * secondsPerStep p) in *.
    assert (Hs' : nextStepTime (sequencer s')
                  = nextStepTime (sequencer s) + (secondsPerStep p + o) + b + c
                    - (a + o)) by (rewrite <- Htime; ring).
    rewrite Hs'. ring.
Qed.

(** What the accumulator holds during the first cycle: the [k]-th call of
    [scheduleStep] gets step [k] and the start time plus [k] step periods
    plus one swing delay for every odd step already scheduled. *)
Lemma accumulator_closed_form p s k :
  pattern (sequencer s) = Some p -> wf_pattern p ->
  currentStep (sequencer s) = 0%nat ->
  (k <= Pattern.steps p)%nat ->
  exists s',
    repeatM k loopBody s = Ret tt s'
    /\ currentStep (sequencer s') = (k mod Pattern.steps p)%nat
    /\ nextStepTime (sequencer s')
       = nextStepTime (sequencer s)
         + Num.int (Z.of_nat k) * secondsPerStep p
         + Num.int (Z.of_nat (k / 2)) * swingDelay p.
Proof.
  intros Hp Hwf Hcur Hle.
  destruct (accumulator_from p k 0 s Hp Hwf) as (s' & Hrep & _ & Hc & Ht).
  - rewrite Hcur. symmetry. apply Nat.Div0.mod_0_l.
  - lia.
  - exists s'. split; [done|]. split; [done|].
    rewrite Nat.add_0_l in Ht. change (0 / 2)%nat with 0%nat in Ht.
    rewrite zero_times in Ht. rewrite <- Ht. ring.
Qed.

(** The test state [Scenario.startedWith] is the state [start] prepares
    on a fresh page. *)
Example startedWith_begun (p : Pattern.t) (clock : Qc) (draw : nat -> Qc) :
  Scenario.startedWith p clock draw = begun p None (Scenario.fresh clock draw).
Proof. reflexivity. Qed.

(** ** The sequencer: [start], [stop] and the gates of [scheduleStep] *)

Lemma stop_playing s :
  isPlaying (sequencer s) = true ->
  exists s1, stop s = Ret tt s1
    /\ isPlaying (sequencer s1) = false
    /\ currentStep (sequencer s1) = 0%nat
    /\ timerID (sequencer s1) = None
    /\ (forall h, timerID (sequencer s) = Some h -> h ∉ intervals s1)
    /\ console s1 = console s ++ [LogInfo "Sequencer stopped"].
Proof.
  intros Hp. unfold stop. rewrite Hp. simpl. unfold bind. simpl.
  destruct (timerID (sequencer s)) as [h|] eqn:Ht; simpl.
  - eexists. split; [reflexivity|]. simpl. repeat split.
    intros h' Heq. injection Heq as <-.
    rewrite elem_of_difference, elem_of_singleton. tauto.
  - eexists. split; [reflexivity|]. simpl. rewrite Ht. repeat split.
    intros h' Heq. discriminate Heq.
Qed.

Lemma stop_stopped s :
  isPlaying (sequencer s) = false -> stop s = Ret tt s.
Proof. intros Hp. unfold stop. by rewrite Hp. Qed.





(** C10. [start] on a sequencer that is already playing returns without
    changing anything: the pattern, the callback, the cursor, the
    accumulator, the timer and the rest of the system are as before, and
    the pattern passed in is dropped; [updatePattern] is the method that
    replaces the pattern. *)
Theorem C10_start_while_playing (p2 : Pattern.t) (onStep2 : option Callback)
    (s : Sys) :
  isPlaying (sequencer s) = true ->
  start p2 onStep2 s = Ret tt s
  /\ exists s', updatePattern p2 s = Ret tt s'
       /\ pattern (sequencer s') = Some p2.
Proof.
  intros Hp. split.
  - unfold start. by rewrite Hp.
  - eexists. split; reflexivity.
Qed.

Lemma C10_start_while_playing_witness :
  isPlaying (sequencer (Scenario.started (Scenario.fourOnTheFloor 0) 0)) = true
  /\ start (Scenario.fourOnTheFloor (Num.dec 0.6)) (Some 7%nat)
        (Scenario.started (Scenario.fourOnTheFloor 0) 0)
     = Ret tt (Scenario.started (Scenario.fourOnTheFloor 0) 0).
Proof.
  split; [reflexivity|].
  apply (C10_start_while_playing (Scenario.fourOnTheFloor (Num.dec 0.6))
           (Some 7%nat) (Scenario.started (Scenario.fourOnTheFloor 0) 0)).
  reflexivity.
Defined.

Lemma voice_stop_normal (v : nat) (stopTime : Qc) (k : BaseDrumSynth.t) :
  exists k', BaseDrumSynth.voice_stop v stopTime k = WebAudio.Normal k'
    /\ BaseDrumSynth.voices k' = BaseDrumSynth.voices k ∖ {[v]}
    /\ dom (BaseDrumSynth.heap k') = dom (BaseDrumSynth.heap k)
    /\ BaseDrumSynth.parameters k' = BaseDrumSynth.parameters k
    /\ BaseDrumSynth.fresh k' = BaseDrumSynth.fresh k
    /\ BaseDrumSynth.now k' = BaseDrumSynth.now k.
Proof.
  unfold BaseDrumSynth.voice_stop.
  eexists. split; [reflexivity|]. simpl. repeat split.
  apply dom_alter_L.
Qed.

(** C7. Stopping twice is stopping once.  [Sequencer.stop()] always
    returns; called again on the state it left, it returns that same
    state, in which the sequencer is not playing and, when it was playing
    before, the cursor is 0 and the timer is cleared.  A voice's [stop]
    always returns; called again it returns too and the synthesizer's set
    of voices is the one the first call left. *)
Theorem C7_stop_idempotent (s : Sys) (k : BaseDrumSynth.t) (v : nat)
    (t1 t2 : Qc) :
  (exists s1,
     stop s = Ret tt s1
     /\ stop s1 = Ret tt s1
     /\ isPlaying (sequencer s1) = false
     /\ (isPlaying (sequencer s) = true ->
         currentStep (sequencer s1) = 0%nat
         /\ timerID (sequencer s1) = None
         /\ forall h, timerID (sequencer s) = Some h -> h ∉ intervals s1))
  /\ (exists k1 k2,
        BaseDrumSynth.voice_stop v t1 k = WebAudio.Normal k1
        /\ BaseDrumSynth.voice_stop v t2 k1 = WebAudio.Normal k2
        /\ (v ∉ BaseDrumSynth.voices k1)
        /\ BaseDrumSynth.voices k2 = BaseDrumSynth.voices k1).
Proof.
  split.
  - destruct (isPlaying (sequencer s)) eqn:Hp.
    + destruct (stop_playing s Hp) as (s1 & Hs & Hp1 & Hc & Ht & Hi & _).
      exists s1. split; [done|]. split; [by apply stop_stopped|].
      split; [done|]. auto.
    + exists s. rewrite (stop_stopped s Hp). split; [done|].
      split; [done|]. split; [done|]. discriminate.
  - destruct (voice_stop_normal v t1 k) as (k1 & H1 & Hv1 & _).
    destruct (voice_stop_normal v t2 k1) as (k2 & H2 & Hv2 & _).
    exists k1, k2. split; [done|]. split; [done|].
    rewrite Hv2, Hv1. split.
    + rewrite elem_of_difference, elem_of_singleton. tauto.
    + apply set_eq. intros x.
      rewrite !elem_of_difference, !elem_of_singleton. tauto.
Qed.

(** A kick triggered at 0 s whose voice is stopped at 0.2 s and again at
    0.3 s: the voice is created, the first stop removes it, the second
    changes nothing in the set of voices; the oscillators keep the stop
    time of the last call. *)
Example kick_stopped_twice :
  let k0 := BaseDrumSynth.outcome_state
              (KickSynth.trigger 0 1 None (KickSynth.new 0)) in
  let stop_at t k :=
    match BaseDrumSynth.voice_stop 0 t k with
    | WebAudio.Normal k' => Some k'
    | WebAudio.Abrupt _ => None
    end in
  BaseDrumSynth.voices k0 = {[0%nat]}
  /\ (BaseDrumSynth.voices <$> stop_at (Num.dec 0.2) k0) = Some ∅
  /\ (BaseDrumSynth.voices <$> (stop_at (Num.dec 0.2) k0 ≫= stop_at (Num.dec 0.3)))
     = Some ∅
  /\ (k ← stop_at (Num.dec 0.2) k0 ≫= stop_at (Num.dec 0.3);
      voice ← BaseDrumSynth.heap k !! 0%nat;
      Some (map (fun n => this <$> WebAudio.stopAt n)
                (BaseDrumSynth.nodes voice)))
     = Some [Some (3 # 10)%Q; None; Some (3 # 10)%Q; None; None; None; None].
Proof. repeat split; vm_compute; reflexivity. Qed.

Lemma existsb_solo (tracks : list Track.t) :
  existsb Track.solo tracks = true
  <-> exists other, other ∈ tracks /\ Track.solo other = true.
Proof.
  rewrite existsb_exists. split; intros (x & Hin & Hs); exists x;
    (split; [by apply list_elem_of_In|done]).
Qed.

(** What one track does at one step, gate by gate. *)
Lemma scheduleTrack_gates (hasSolo : bool) (step : nat) (track : Track.t)
    (sd : StepData.t) (s : Sys) :
  Track.steps track !! step = Some sd ->
  (StepData.active sd = false -> scheduleTrack hasSolo step track s = Ret tt s)
  /\ (Track.mute track = true -> scheduleTrack hasSolo step track s = Ret tt s)
  /\ (hasSolo = true -> Track.solo track = false ->
      scheduleTrack hasSolo step track s = Ret tt s)
  /\ (eligible hasSolo track sd ->
      scheduleTrack hasSolo step track s
      = (let! r := Math_random in
         if Num.gtb r (StepData.probability sd) then ret tt
         else triggerDrum (Track.synthType track)
                (StepData.velocity sd * Track.volume track)
                (Some (spread (Track.synthParams track)
                         (StepData.parameters sd)))) s).
Proof.
  intros Hsd. unfold scheduleTrack. rewrite Hsd. repeat split.
  - by intros ->.
  - intros ->. by destruct (StepData.active sd).
  - intros -> ->. simpl.
    destruct (StepData.active sd); [|done]. by destruct (Track.mute track).
  - intros (-> & -> & Hs). simpl.
    destruct hasSolo; [|done]. by rewrite Hs.
Qed.

(** C4. At a scheduled step, every call the engine receives comes from a
    track whose step is active, that is not muted and that is soloed if
    any track of the pattern is; the [forEach] body does nothing for a
    track whose step is inactive, for a muted track, and for a non-solo
    track while some track is soloed; when no track is soloed, a
    non-muted track with an active step goes on to the probability
    draw. *)
Theorem C4_mute_solo_gates (p : Pattern.t) (step : nat) (time : Qc) (s : Sys) :
  pattern (sequencer s) = Some p ->
  let hasSolo := existsb Track.solo (Pattern.tracks p) in
  (exists s' new,
     state_of (scheduleStep step time s) = Some s'
     /\ calls (audioEngine s') = calls (audioEngine s) ++ new
     /\ Forall (fun c =>
                  exists track sd,
                    track ∈ Pattern.tracks p
                    /\ Track.steps track !! step = Some sd
                    /\ call_synth c = Track.synthType track
                    /\ StepData.active sd = true
                    /\ Track.mute track = false
                    /\ ((exists other, other ∈ Pattern.tracks p
                                      /\ Track.solo other = true) ->
                        Track.solo track = true)) new)
  /\ (forall track sd s0,
        track ∈ Pattern.tracks p ->
        Track.steps track !! step = Some sd ->
        (StepData.active sd = false ->
         scheduleTrack hasSolo step track s0 = Ret tt s0)
        /\ (Track.mute track = true ->
            scheduleTrack hasSolo step track s0 = Ret tt s0)
        /\ ((exists other, other ∈ Pattern.tracks p /\ Track.solo other = true) ->
            Track.solo track = false ->
            scheduleTrack hasSolo step track s0 = Ret tt s0)
        /\ ((forall other, other ∈ Pattern.tracks p -> Track.solo other = false) ->
            Track.mute track = false -> StepData.active sd = true ->
            scheduleTrack hasSolo step track s0
            = (let! r := Math_random in
               if Num.gtb r (StepData.probability sd) then ret tt
               else triggerDrum (Track.synthType track)
                      (StepData.velocity sd * Track.volume track)
                      (Some (spread (Track.synthParams track)
                               (StepData.parameters sd)))) s0)).
Proof.
  intros Hp hasSolo. split.
  - destruct (scheduleStep_effect p step time s Hp)
      as (s' & new & Hst & _ & Hc & Hall & _).
    exists s', new. split; [done|]. split; [done|].
    eapply List.Forall_impl; [|exact Hall].
    intros c (track & sd & Hin & Hsd & (Ha & Hm & Hs) & (Hty & _)).
    exists track, sd. repeat split; try done.
    intros Hex. apply Hs. by apply existsb_solo.
  - intros track sd s0 Hin Hsd.
    destruct (scheduleTrack_gates hasSolo step track sd s0 Hsd)
      as (H1 & H2 & H3 & H4).
    repeat split; try done.
    + intros Hex. apply H3. by apply existsb_solo.
    + intros Hno Hm Ha. apply H4. repeat split; try done.
      intros Hs. apply existsb_solo in Hs as (other & Ho & Hs).
      rewrite (Hno other Ho) in Hs. discriminate.
Qed.

Lemma C4_mute_solo_gates_witness :
  pattern (sequencer (Scenario.started (Scenario.fourOnTheFloor 0) 0))
  = Some (Scenario.fourOnTheFloor 0)
  /\ exists s' new,
       state_of (scheduleStep 0 0 (Scenario.started (Scenario.fourOnTheFloor 0) 0))
       = Some s'
       /\ calls (audioEngine s')
          = calls (audioEngine (Scenario.started (Scenario.fourOnTheFloor 0) 0))
            ++ new.
Proof.
  split; [reflexivity|].
  destruct (C4_mute_solo_gates (Scenario.fourOnTheFloor 0) 0 0
              (Scenario.started (Scenario.fourOnTheFloor 0) 0) eq_refl)
    as [(s' & new & Hst & Hc & _) _].
  exists s', new. split; assumption.
Defined.




(** The kick of the four-on-the-floor pattern at step 0: velocity 100 at
    volume 1 reaches the synthesizer as 100/127. *)
Example kick_velocity :
  option_map (fun s => map (fun c => this (call_velocity c))
                           (calls (audioEngine s)))
    (state_of (scheduleStep 0 0 (Scenario.started (Scenario.fourOnTheFloor 0) 0)))
  = Some [100 # 127].
Proof. vm_compute. reflexivity. Qed.

Lemma lookup_spread (a : SynthParameters) (b : option SynthParameters)
    (key : string) :
  spread a b !! key
  = match b ≫= (fun o => o !! key) with
    | Some x => Some x
    | None => a !! key
    end.
Proof.
  destruct b as [o|]; simpl; [|done].
  rewrite lookup_union. destruct (o !! key), (a !! key); done.
Qed.

(** C9. Scheduling a step leaves the sequencer's pattern, and with it
    every track's [synthParams], as it was.  The parameter object of each
    call holds, key by key, the step's override where there is one and
    the track's value otherwise; and at a step scheduled afterwards, a
    call sent for step data without overrides carries the track's
    [synthParams] themselves. *)
Theorem C9_override_isolation (p : Pattern.t) (step1 step2 : nat)
    (time1 time2 : Qc) (s s1 s2 : Sys) :
  pattern (sequencer s) = Some p ->
  state_of (scheduleStep step1 time1 s) = Some s1 ->
  state_of (scheduleStep step2 time2 s1) = Some s2 ->
  pattern (sequencer s1) = Some p
  /\ pattern (sequencer s2) = Some p
  /\ (exists new1,
        calls (audioEngine s1) = calls (audioEngine s) ++ new1
        /\ Forall (fun c =>
                     exists track sd merged,
                       track ∈ Pattern.tracks p
                       /\ Track.steps track !! step1 = Some sd
                       /\ call_synth c = Track.synthType track
                       /\ call_params c = Some merged
                       /\ forall key,
                            merged !! key
                            = match StepData.parameters sd
                                    ≫= (fun o => o !! key) with
                              | Some x => Some x
                              | None => Track.synthParams track !! key
                              end) new1)
  /\ (exists new2,
        calls (audioEngine s2) = calls (audioEngine s1) ++ new2
        /\ Forall (fun c =>
                     exists track sd,
                       track ∈ Pattern.tracks p
                       /\ Track.steps track !! step2 = Some sd
                       /\ call_synth c = Track.synthType track
                       /\ (StepData.parameters sd = None ->
                           call_params c = Some (Track.synthParams track)))
                  new2).
Proof.
  intros Hp H1 H2.
  destruct (scheduleStep_effect p step1 time1 s Hp)
    as (s1' & new1 & Hst1 & Hf1 & Hc1 & Hall1 & _).
  rewrite H1 in Hst1. injection Hst1 as <-.
  assert (Hp1 : pattern (sequencer s1) = Some p).
  { destruct Hf1 as (-> & _). done. }
  destruct (scheduleStep_effect p step2 time2 s1 Hp1)
    as (s2' & new2 & Hst2 & Hf2 & Hc2 & Hall2 & _).
  rewrite H2 in Hst2. injection Hst2 as <-.
  split; [done|]. split.
  { destruct Hf2 as (-> & _). done. }
  split.
  - exists new1. split; [done|].
    eapply List.Forall_impl; [|exact Hall1].
    intros c (track & sd & Hin & Hsd & _ & (Hty & _ & _ & Hps)).
    exists track, sd, (spread (Track.synthParams track) (StepData.parameters sd)).
    repeat split; try done. intros key. apply lookup_spread.
  - exists new2. split; [done|].
    eapply List.Forall_impl; [|exact Hall2].
    intros c (track & sd & Hin & Hsd & _ & (Hty & _ & _ & Hps)).
    exists track, sd. repeat split; try done.
    intros Hnone. by rewrite Hps, Hnone.
Qed.

Lemma C9_override_isolation_witness :
  let p := Scenario.overriding in
  let s := Scenario.started p 0 in
  let s1 := Scenario.after (scheduleStep 0 0 s) s in
  let s2 := Scenario.after (scheduleStep 1 (Num.dec 0.125) s1) s1 in
  pattern (sequencer s) = Some p
  /\ Scenario.received "pitch" s2 = [("kick", Some (999 # 1)%Q); ("kick", Some (60 # 1)%Q)]
  /\ pattern (sequencer s2) = Some p.
Proof.
  intros p s s1 s2.
  split; [reflexivity|]. split; [vm_compute; reflexivity|].
  apply (C9_override_isolation p 0 1 0 (Num.dec 0.125) s s1 s2).
  - reflexivity.
  - vm_compute; reflexivity.
  - vm_compute; reflexivity.
Defined.

(** The probability gate of an eligible step whose engine is ready: the
    call is sent exactly when the draw is not above the probability. *)
Lemma scheduleTrack_probability (hasSolo : bool) (step : nat)
    (track : Track.t) (sd : StepData.t) (s : Sys) (ctx : AudioContext) :
  Track.steps track !! step = Some sd ->
  eligible hasSolo track sd ->
  context (audioEngine s) = Some ctx ->
  initialized (audioEngine s) = true ->
  Track.synthType track ∈ synths (audioEngine s) ->
  exists s', scheduleTrack hasSolo step track s = Ret tt s'
    /\ (StepData.probability sd < random s (drawn s) ->
        calls (audioEngine s') = calls (audioEngine s))
    /\ (random s (drawn s) <= StepData.probability sd ->
        exists c, dispatch_of track sd (currentTime ctx) c
          /\ calls (audioEngine s') = calls (audioEngine s) ++ [c]).
Proof.
  intros Hsd He Hctx Hi Hty.
  destruct (scheduleTrack_gates hasSolo step track sd s Hsd) as (_ & _ & _ & ->);
    [|done].
  unfold bind, Math_random.
  destruct (Num.gtb _ _) eqn:Hg.
  - eexists. split; [reflexivity|]. split; [done|].
    intros Hle. apply gtb_gt in Hg. by apply Qcle_not_lt in Hle.
  - unfold triggerDrum. simpl. rewrite Hctx, Hi. simpl.
    rewrite bool_decide_eq_true_2 by done. simpl.
    eexists. split; [reflexivity|]. split.
    + intros Hlt. apply gtb_gt in Hlt. congruence.
    + intros _. eexists. split; [|reflexivity]. repeat split.
Qed.

(** Away from the draw 0: with probability 1 an eligible step is sent for
    every draw below 1, with probability 0 it is not sent for any draw
    above 0. *)
Lemma probability_boundaries (hasSolo : bool) (step : nat)
    (track : Track.t) (sd : StepData.t) (s : Sys) (ctx : AudioContext) :
  Track.steps track !! step = Some sd ->
  eligible hasSolo track sd ->
  context (audioEngine s) = Some ctx ->
  initialized (audioEngine s) = true ->
  Track.synthType track ∈ synths (audioEngine s) ->
  exists s', scheduleTrack hasSolo step track s = Ret tt s'
    /\ (StepData.probability sd = 1 -> random s (drawn s) < 1 ->
        exists c, dispatch_of track sd (currentTime ctx) c
          /\ calls (audioEngine s') = calls (audioEngine s) ++ [c])
    /\ (StepData.probability sd = 0 -> 0 < random s (drawn s) ->
        calls (audioEngine s') = calls (audioEngine s)).
Proof.
  intros Hsd He Hctx Hi Hty.
  destruct (scheduleTrack_probability hasSolo step track sd s ctx)
    as (s' & Hs & Hskip & Hfire); try done.
  exists s'. split; [done|]. split.
  - intros Hp Hr. apply Hfire. rewrite Hp. by apply Qclt_le_weak.
  - intros Hp Hr. apply Hskip. by rewrite Hp.
Qed.

(** C5, at the draw 0.  [Math.random()] may return 0; an eligible step
    with probability 0 is then sent to the engine, because the gate skips
    only when the draw is strictly above the probability. *)
Theorem C5_probability_zero_draw_zero :
  let s := Scenario.startedWith (Scenario.oneShot 0) 0 (fun _ => 0) in
  (0 <= random s (drawn s) /\ random s (drawn s) < 1)
  /\ Scenario.dispatched (scheduleStep 0 0 s) = Some [("kick", 0%Q)].
Proof.
  split; [split|].
  - apply Qcle_refl.
  - apply ltb_lt. reflexivity.
  - vm_compute. reflexivity.
Qed.

(** Whatever the accumulator says, the calls of one [schedule()] pass all
    carry the time the audio clock read during that pass. *)
Lemma schedule_dispatches_at_clock (p : Pattern.t) (s : Sys) :
  pattern (sequencer s) = Some p -> isPlaying (sequencer s) = true ->
  wf_pattern p -> (currentStep (sequencer s) < Pattern.steps p)%nat ->
  exists s' new,
    schedule s = Ret tt s'
    /\ calls (audioEngine s') = calls (audioEngine s) ++ new
    /\ Forall (fun c => call_time c = clock s) new.
Proof.
  intros Hp Hplay Hwf Hlt.
  destruct (schedule_effect p s Hp Hplay Hwf Hlt)
    as (s' & new & n & Hs & _ & _ & _ & Hc & Hall & _).
  exists s', new. split; [done|]. split; [done|].
  eapply List.Forall_impl; [|exact Hall].
  intros c (step & track & sd & _ & _ & _ & (_ & Ht & _)). exact Ht.
Qed.

(** C1, on the four-on-the-floor pattern (bpm 120, 16 steps, swing 0, the
    kick on steps 0, 4, 8, 12), started at clock 0 with the timer firing
    every 25 ms.  The accumulator gives the four kick steps the times 0,
    1/2, 1 and 3/2, yet the kick synthesizer is triggered at 0, 17/40,
    37/40 and 57/40: the clock readings of the timer ticks that found the
    steps due. *)
Theorem C1_four_on_the_floor_dispatch :
  let p := Scenario.fourOnTheFloor 0 in
  map (Scenario.accumulator p) [0; 4; 8; 12]%nat
  = [Some (0%nat, 0%Q); Some (4%nat, 1 # 2); Some (8%nat, 1%Q);
     Some (12%nat, 3 # 2)]
  /\ Scenario.dispatched (Scenario.playOnce p)
     = Some [("kick", 0%Q); ("kick", 17 # 40); ("kick", 37 # 40);
             ("kick", 57 # 40)].
Proof. split; vm_compute; reflexivity. Qed.

(** C2, on the same pattern with swing 0.6 (a swing delay of
    [0.125 * 0.6 * 0.5 = 3/80]).  Step 1, odd, is scheduled at its unswung
    time 1/8; step 2, even, is scheduled 3/80 after its unswung time 1/4;
    the delay then stays in the accumulator, so step 4 is 6/80 late. *)
Theorem C2_swing_accumulator :
  let unswung := Scenario.fourOnTheFloor 0 in
  let swung := Scenario.fourOnTheFloor (Num.dec 0.6) in
  this (secondsPerStep swung * Pattern.swing swung * Num.dec 0.5) = 3 # 80
  /\ map (Scenario.accumulator unswung) [0; 1; 2; 3; 4]%nat
     = [Some (0%nat, 0%Q); Some (1%nat, 1 # 8); Some (2%nat, 1 # 4);
        Some (3%nat, 3 # 8); Some (4%nat, 1 # 2)]
  /\ map (Scenario.accumulator swung) [0; 1; 2; 3; 4]%nat
     = [Some (0%nat, 0%Q); Some (1%nat, 1 # 8); Some (2%nat, 23 # 80);
        Some (3%nat, 33 # 80); Some (4%nat, 23 # 40)].
Proof. repeat split; vm_compute; reflexivity. Qed.

(** ** The hi-hat synthesizer: choke groups *)

Section HiHat.
Import WebAudio BaseDrumSynth HiHatSynth.

Lemma stop_node_kind t n : kind (stop_node t n) = kind n.
Proof.
  unfold stop_node. destruct (isAudioScheduledSourceNode (kind n)); [|done].
  unfold node_stop. destruct (Num.ltb t 0); [done|].
  by destruct (startedAt n).
Qed.

Lemma stop_nodes_kinds t voice :
  map kind (nodes (stop_nodes t voice)) = map kind (nodes voice).
Proof.
  simpl. rewrite map_map. apply map_ext. intros n. apply stop_node_kind.
Qed.

Lemma hat_stop_events v t ns :
  map kind ns = hat_kinds ->
  stop_events v t ns = [SourceStop v t; GraphDisconnect v].
Proof.
  intros Hk. unfold stop_events.
  do 8 (destruct ns as [|? ns]; try discriminate Hk).
  injection Hk as H1 H2 H3 H4 H5 H6 H7. simpl.
  rewrite H1, H2, H3, H4, H5, H6, H7. reflexivity.
Qed.

(** [voice.stop] of a hi-hat voice, field by field. *)
Lemma hat_voice_stop v t (s : HiHatSynth.t) :
  exists s',
    HiHatSynth.voice_stop v t s = Normal s'
    /\ voices (base s') = voices (base s) ∖ {[v]}
    /\ activeChokeGroup s'
       = match group_of s v with
         | Some g => if bool_decide (activeChokeGroup s !! g = Some v)
                     then delete g (activeChokeGroup s)
                     else activeChokeGroup s
         | None => activeChokeGroup s
         end
    /\ heap (base s') = alter (stop_nodes t) v (heap (base s))
    /\ (forall u, group_of s' u = group_of s u)
    /\ fresh (base s') = fresh (base s)
    /\ parameters (base s') = parameters (base s)
    /\ noiseBuffer s' = noiseBuffer s
    /\ trace (base s')
       = trace (base s)
         ++ stop_events v t (default [] (nodes <$> heap (base s) !! v)).
Proof.
  unfold HiHatSynth.voice_stop, BaseDrumSynth.voice_stop.
  eexists. split; [reflexivity|]. simpl. repeat split.
  intros u. unfold group_of. simpl. rewrite lookup_alter.
  case_decide as Hu; [subst u|done].
  by destruct (heap (base s) !! v).
Qed.

Lemma consistent_voice_stop v t s s' :
  consistent s -> HiHatSynth.voice_stop v t s = Normal s' -> consistent s'.
Proof.
  intros (I1 & I2 & I3 & I4) Hs.
  destruct (hat_voice_stop v t s)
    as (s'' & Hs' & Hv & Ha & Hh & Hg & Hf & _ & _ & _).
  rewrite Hs in Hs'. injection Hs' as <-.
  assert (Hacg : forall g u, activeChokeGroup s' !! g = Some u
                  <-> activeChokeGroup s !! g = Some u /\ u <> v).
  { intros g u. rewrite Ha. destruct (group_of s v) as [gv|] eqn:Hgv.
    - case_bool_decide as Hcur.
      + rewrite lookup_delete_Some. split.
        * intros [Hne Hl]. split; [done|]. intros ->.
          destruct (I2 _ _ Hl) as [_ Hgu]. congruence.
        * intros [Hl Hne]. split; [|done]. intros ->. congruence.
      + split; [|tauto]. intros Hl. split; [done|]. intros ->.
        destruct (I2 _ _ Hl) as [_ Hgu]. congruence.
    - split; [|tauto]. intros Hl. split; [done|]. intros ->.
      destruct (I2 _ _ Hl) as [_ Hgu]. congruence. }
  split; [|split; [|split]].
  - intros u. rewrite Hv, elem_of_difference, elem_of_singleton.
    intros [Hu Hne]. destruct (I1 u Hu) as (g & Hgu & Hl).
    exists g. rewrite Hg. split; [done|]. apply Hacg. done.
  - intros g u Hl. apply Hacg in Hl as [Hl Hne].
    rewrite Hv, elem_of_difference, elem_of_singleton, Hg.
    destruct (I2 _ _ Hl). done.
  - intros u. rewrite Hh, dom_alter_L, Hf. apply I3.
  - intros u voice Hl. rewrite Hh, lookup_alter in Hl. case_decide as Hu.
    + destruct (heap (base s) !! v) as [w|] eqn:Hw; [|done].
      injection Hl as <-. rewrite stop_nodes_kinds. simpl. by apply I4 in Hw.
    + by apply I4 in Hl.
Qed.

Lemma consistent_ext (s s' : HiHatSynth.t) :
  voices (base s') = voices (base s) ->
  heap (base s') = heap (base s) ->
  fresh (base s') = fresh (base s) ->
  activeChokeGroup s' = activeChokeGroup s ->
  consistent s -> consistent s'.
Proof.
  intros Hv Hh Hf Ha. unfold consistent, group_of.
  rewrite Hv, Hh, Hf, Ha. done.
Qed.

Lemma consistent_new clock : consistent (HiHatSynth.new clock).
Proof.
  split; [|split; [|split]]; simpl.
  - intros v Hv. by apply not_elem_of_empty in Hv.
  - intros g v Hl. by rewrite lookup_empty in Hl.
  - intros v Hv. rewrite dom_empty_L in Hv. by apply not_elem_of_empty in Hv.
  - intros v voice Hl. by rewrite lookup_empty in Hl.
Qed.

Lemma group_of_in_heap s v g :
  group_of s v = Some g -> v ∈ dom (heap (base s)).
Proof.
  unfold group_of. intros H. apply elem_of_dom.
  destruct (heap (base s) !! v); [eauto|done].
Qed.

(** The choke step of [trigger]: afterwards the group has no voice. *)
Lemma choke_effect g time s :
  consistent s ->
  exists sc,
    choke g time s = Done sc
    /\ consistent sc
    /\ activeChokeGroup sc = delete g (activeChokeGroup s)
    /\ fresh (base sc) = fresh (base s)
    /\ parameters (base sc) = parameters (base s)
    /\ noiseBuffer sc = noiseBuffer s
    /\ match activeChokeGroup s !! g with
       | Some prev =>
           voices (base sc) = voices (base s) ∖ {[prev]}
           /\ heap (base sc) = alter (stop_nodes time) prev (heap (base s))
           /\ trace (base sc)
              = trace (base s) ++ [SourceStop prev time; GraphDisconnect prev]
       | None => sc = s
       end.
Proof.
  intros Hc. unfold choke.
  destruct (activeChokeGroup s !! g) as [prev|] eqn:Hprev.
  - destruct (hat_voice_stop prev time s)
      as (s1 & Hs & Hv & Ha & Hh & Hg & Hf & Hp & Hn & Ht).
    rewrite Hs.
    pose proof Hc as (_ & I2 & _ & I4).
    destruct (I2 _ _ Hprev) as [Hin Hgp].
    rewrite Hgp in Ha. rewrite bool_decide_eq_true_2 in Ha by done.
    eexists. split; [reflexivity|]. simpl.
    split.
    { eapply (consistent_ext s1); try done.
      - simpl. by rewrite Ha, delete_delete_eq.
      - by eapply consistent_voice_stop. }
    rewrite Ha, delete_delete_eq. repeat split; try done.
    rewrite Ht. f_equal.
    unfold group_of in Hgp.
    destruct (heap (base s) !! prev) as [w|] eqn:Hw; [|done]. simpl.
    apply hat_stop_events. by destruct (I4 _ _ Hw).
  - exists s. rewrite delete_id by done. split; [done|]. split; [done|].
    repeat split; done.
Qed.

Lemma consistent_add g voice s :
  consistent s ->
  activeChokeGroup s !! g = None ->
  map kind (nodes voice) = hat_kinds ->
  captured_chokeGroup voice = Some g ->
  consistent
    (set_activeChokeGroup (<[g := fresh (base s)]> (activeChokeGroup s))
       (set_base (add_voice voice (base s)) s)).
Proof.
  intros (I1 & I2 & I3 & I4) Hg Hk Hcap.
  assert (Hold : forall v g', group_of s v = Some g' -> v <> fresh (base s)).
  { intros v g' Hv ->. apply group_of_in_heap, I3 in Hv. lia. }
  split; [|split; [|split]]; simpl.
  - intros v. rewrite elem_of_union, elem_of_singleton. intros [->|Hv].
    + exists g. unfold group_of. simpl.
      rewrite lookup_insert_eq. simpl. by rewrite lookup_insert_eq.
    + destruct (I1 v Hv) as (g' & Hgv & Hl). exists g'.
      unfold group_of in *. simpl.
      rewrite lookup_insert_ne by (symmetry; by eapply Hold).
      split; [done|]. rewrite lookup_insert_ne; [done|]. congruence.
  - intros g' v. rewrite lookup_insert. case_decide as Hgg.
    + intros [= <-]. subst g'. unfold group_of. simpl.
      rewrite lookup_insert_eq. simpl.
      rewrite elem_of_union, elem_of_singleton. auto.
    + intros Hl. destruct (I2 _ _ Hl) as [Hv Hgv].
      rewrite elem_of_union. split; [by right|].
      unfold group_of in *. simpl.
      rewrite lookup_insert_ne by (symmetry; by eapply Hold). done.
  - intros v. rewrite dom_insert_L, elem_of_union, elem_of_singleton.
    intros [->|Hv]; [lia|]. apply I3 in Hv. lia.
  - intros v w. rewrite lookup_insert. case_decide as Hv.
    + intros [= <-]. rewrite Hcap. eauto.
    + apply I4.
Qed.

Lemma trigger_effect time velocity params s :
  consistent s ->
  let g := param params "chokeGroup" 0 (base s) in
  let f := fresh (base s) in
  exists s' evs,
    (HiHatSynth.trigger time velocity params s = Done s'
     \/ exists e, HiHatSynth.trigger time velocity params s = Raised e s')
    /\ (consistent s' /\ noiseBuffer s' = noiseBuffer s)
    /\ trace (base s') = trace (base s) ++ evs
    /\ (forall prev, activeChokeGroup s !! g = Some prev ->
          (prev ∉ voices (base s'))
          /\ exists rest,
               evs = SourceStop prev time :: GraphDisconnect prev :: rest
               /\ (rest = [] \/ rest = [SourceStart f time]))
    /\ (activeChokeGroup s !! g = None ->
        evs = [] \/ evs = [SourceStart f time])
    /\ (forall v, v ∈ voices (base s) -> group_of s v <> Some g ->
          v ∈ voices (base s') /\ heap (base s') !! v = heap (base s) !! v)
    /\ (HiHatSynth.trigger time velocity params s = Done s' ->
        noiseBuffer s = true ->
        f ∈ voices (base s')
        /\ activeChokeGroup s' !! g = Some f
        /\ group_of s' f = Some g).
Proof.
  intros Hc g f.
  destruct (choke_effect g time s Hc)
    as (sc & Hchoke & Hcc & Hacg & Hfr & Hpar & Hnb & Hmatch).
  pose proof Hc as (I1 & I2 & I3 & I4).
  (* what the choke step did, in a form that does not depend on the case *)
  assert (exists evs0,
            trace (base sc) = trace (base s) ++ evs0
            /\ (forall prev, activeChokeGroup s !! g = Some prev ->
                  (prev ∉ voices (base sc)) /\ (prev < f)%nat
                  /\ evs0 = [SourceStop prev time; GraphDisconnect prev])
            /\ (activeChokeGroup s !! g = None -> evs0 = [])
            /\ (forall v, v ∈ voices (base s) -> group_of s v <> Some g ->
                  v ∈ voices (base sc)
                  /\ heap (base sc) !! v = heap (base s) !! v))
    as (evs0 & Htr & Hprev & Hnone & Hkeep).
  { destruct (activeChokeGroup s !! g) as [prev|] eqn:Hl.
    - destruct Hmatch as (Hv & Hh & Ht).
      destruct (I2 _ _ Hl) as [Hin Hgp].
      exists [SourceStop prev time; GraphDisconnect prev].
      split; [done|]. split; [|split; [done|]].
      + intros ? [= <-]. split; [|split; [|done]].
        * rewrite Hv, elem_of_difference, elem_of_singleton. tauto.
        * by apply group_of_in_heap, I3 in Hgp.
      + intros v Hin' Hne. assert (v <> prev) by congruence.
        rewrite Hv, Hh, elem_of_difference, elem_of_singleton.
        rewrite lookup_alter_ne by done. done.
    - subst sc. exists []. rewrite app_nil_r. repeat split; done. }
  assert (Hg0 : activeChokeGroup sc !! g = None).
  { rewrite Hacg. apply lookup_delete_eq. }
  unfold HiHatSynth.trigger. fold g. rewrite Hchoke.
  destruct (noiseBuffer sc) eqn:Hbuf; simpl.
  2:{ exists sc, evs0. split; [by left|]. split; [split; congruence|]. split; [done|].
      split; [|split; [|split]].
      - intros prev Hl. destruct (Hprev prev Hl) as (? & _ & ->).
        split; [done|]. exists []. auto.
      - intros Hl. left. auto.
      - done.
      - intros _ Hb. congruence. }
  unfold node_start. simpl.
  destruct (Num.ltb time 0) eqn:Htime.
  { exists sc, evs0. split; [right; eauto|]. split; [split; congruence|]. split; [done|].
    split; [|split; [|split]].
    - intros prev Hl. destruct (Hprev prev Hl) as (? & _ & ->).
      split; [done|]. exists []. auto.
    - intros Hl. left. auto.
    - done.
    - intros [=]. }
  set (s2 := set_base (log_event (SourceStart (fresh (base sc)) time) (base sc)) sc).
  assert (Hc2 : consistent s2) by (by eapply (consistent_ext sc)).
  unfold node_stop. simpl.
  destruct (Num.ltb (time + _ + _) 0) eqn:Hend.
  { exists s2, (evs0 ++ [SourceStart f time]).
    split; [right; eexists; reflexivity|]. split; [split; [done|simpl; congruence]|].
    split; [simpl; rewrite Htr, Hfr, <- app_assoc; done|].
    split; [|split; [|split]].
    - intros prev Hl. destruct (Hprev prev Hl) as (? & _ & ->).
      split; [done|]. exists [SourceStart f time]. auto.
    - intros Hl. right. by rewrite (Hnone Hl).
    - done.
    - intros [=]. }
  eexists _, (evs0 ++ [SourceStart f time]).
  split; [left; reflexivity|].
  split.
  { split; [apply (consistent_add g _ s2); done|simpl; congruence]. }
  split; [simpl; rewrite Htr, Hfr, <- app_assoc; done|].
  split; [|split; [|split]]; simpl.
  - intros prev Hl. destruct (Hprev prev Hl) as (Hnot & Hlt & ->).
    split; [|exists [SourceStart f time]; auto].
    rewrite elem_of_union, elem_of_singleton. intros [->|Hin]; [|done].
    rewrite Hfr in Hlt. fold f in Hlt. lia.
  - intros Hl. right. by rewrite (Hnone Hl).
  - intros v Hin Hne. destruct (Hkeep v Hin Hne) as [Hin' Hh'].
    rewrite elem_of_union. split; [by right|].
    rewrite lookup_insert_ne; [done|].
    intros Heq. destruct (I1 v Hin) as (gv & Hgv & _).
    apply group_of_in_heap, I3 in Hgv. rewrite Hfr in Heq. lia.
  - intros _ _. rewrite elem_of_union, elem_of_singleton, Hfr.
    split; [by left|]. split; [apply lookup_insert_eq|].
    unfold group_of. simpl. rewrite ?Hfr. by rewrite lookup_insert_eq.
Qed.

Lemma stop_all_fold (l : list nat) : forall s0,
  consistent s0 ->
  exists s',
    foldl (fun acc v =>
             match acc with
             | Normal s1 => HiHatSynth.voice_stop v (now (base s1)) s1
             | Abrupt e => Abrupt e
             end) (Normal s0) l = Normal s'
    /\ consistent s'
    /\ forall v, v ∈ voices (base s') <-> v ∈ voices (base s0) /\ v ∉ l.
Proof.
  induction l as [|u l IH]; intros s0 Hc; simpl.
  - exists s0. split; [done|]. split; [done|]. intros v.
    rewrite elem_of_nil. tauto.
  - destruct (hat_voice_stop u (now (base s0)) s0) as (s1 & Hs & Hv & _).
    rewrite Hs.
    destruct (IH s1) as (s' & Hf & Hc' & Hvs); [by eapply consistent_voice_stop|].
    exists s'. split; [done|]. split; [done|]. intros v.
    rewrite Hvs, Hv, elem_of_difference, elem_of_singleton, elem_of_cons. tauto.
Qed.

Lemma consistent_dispose s s' :
  consistent s -> HiHatSynth.dispose s = Normal s' -> consistent s'.
Proof.
  intros Hc. unfold dispose, stop_all.
  destruct (stop_all_fold (merge_sort le (elements (voices (base s)))) s Hc)
    as (s1 & -> & Hc1 & Hv).
  intros [= <-].
  assert (He : voices (base s1) = ∅).
  { apply set_eq. intros v. rewrite Hv, merge_sort_Permutation, elem_of_elements.
    split; [tauto|]. intros H. by apply not_elem_of_empty in H. }
  eapply (consistent_ext s1); [simpl; by rewrite He|done..].
Qed.

Lemma consistent_cleanup v s s' :
  consistent s -> HiHatSynth.cleanup v s = Normal s' -> consistent s'.
Proof.
  intros Hc. unfold cleanup. case_bool_decide.
  - by apply consistent_voice_stop.
  - by intros [= <-].
Qed.

Lemma consistent_step s s' : consistent s -> step s s' -> consistent s'.
Proof.
  intros Hc Hstep. destruct Hstep as
    [time velocity params s s' Ht | time velocity params e s s' Ht
    | v s s' _ Hcl | s s' Hd | name value s | clock s].
  - destruct (trigger_effect time velocity params s Hc)
      as (s1 & evs & [H1 | (e & H1)] & [Hc1 _] & _); congruence.
  - destruct (trigger_effect time velocity params s Hc)
      as (s1 & evs & [H1 | (e' & H1)] & [Hc1 _] & _); congruence.
  - by eapply consistent_cleanup.
  - by eapply consistent_dispose.
  - by eapply (consistent_ext s).
  - by eapply (consistent_ext s).
Qed.

Lemma reachable_consistent s : reachable s -> consistent s.
Proof.
  intros (clock & Hr). revert s Hr. apply (rtc_ind_r consistent).
  - apply consistent_new.
  - intros s1 s2 _ Hstep IH. by eapply consistent_step.
Qed.


Lemma stop_all_noiseBuffer (l : list nat) : forall s0 s',
  foldl (fun acc v =>
           match acc with
           | Normal s1 => HiHatSynth.voice_stop v (now (base s1)) s1
           | Abrupt e => Abrupt e
           end) (Normal s0) l = Normal s' ->
  noiseBuffer s' = noiseBuffer s0.
Proof.
  induction l as [|u l IH]; intros s0 s'; simpl.
  - by intros [= <-].
  - destruct (hat_voice_stop u (now (base s0)) s0)
      as (s1 & Hs & _ & _ & _ & _ & _ & _ & Hn & _).
    rewrite Hs. intros Hf. rewrite (IH _ _ Hf). done.
Qed.

Lemma reachable_noiseBuffer s : reachable s -> noiseBuffer s = true.
Proof.
  intros (clock & Hr).
  assert (consistent s /\ noiseBuffer s = true) as [_ H]; [|done].
  revert s Hr.
  apply (rtc_ind_r (fun s => consistent s /\ noiseBuffer s = true)).
  - split; [apply consistent_new|done].
  - intros s1 s2 _ Hstep [Hc Hn]. split; [by eapply consistent_step|].
    destruct Hstep as
      [time velocity params s s' Ht | time velocity params e s s' Ht
      | v s s' _ Hcl | s s' Hd | name value s | clock' s];
      try done.
    + destruct (trigger_effect time velocity params s Hc)
        as (s1' & evs & [H1 | (e & H1)] & [_ Hn'] & _); congruence.
    + destruct (trigger_effect time velocity params s Hc)
        as (s1' & evs & [H1 | (e' & H1)] & [_ Hn'] & _); congruence.
    + unfold cleanup in Hcl. case_bool_decide; [|congruence].
      destruct (hat_voice_stop v (now (base s)) s)
        as (s1' & Hs & _ & _ & _ & _ & _ & _ & Hn' & _). congruence.
    + unfold dispose in Hd.
      destruct (stop_all s) as [s1'|] eqn:Hall; [|done].
      injection Hd as <-. simpl. apply stop_all_noiseBuffer in Hall. congruence.
Qed.

Lemma reachable_step s s' : reachable s -> step s s' -> reachable s'.
Proof. intros (clock & Hr) Hs. exists clock. by eapply rtc_r. Qed.
End HiHat.



(** Two hits in choke group 0, at 0 s and at 0.1 s: what the Web Audio
    sources were told, in order. *)
Example choke_trace :
  let s1 := BaseDrumSynth.outcome_state
              (HiHatSynth.trigger 0 1 None (HiHatSynth.new 0)) in
  let s2 := BaseDrumSynth.outcome_state
              (HiHatSynth.trigger (Num.dec 0.1) 1 None s1) in
  BaseDrumSynth.trace (HiHatSynth.base s2)
  = [BaseDrumSynth.SourceStart 0 0;
     BaseDrumSynth.SourceStop 0 (Num.dec 0.1);
     BaseDrumSynth.GraphDisconnect 0;
     BaseDrumSynth.SourceStart 1 (Num.dec 0.1)]
  /\ BaseDrumSynth.voices (HiHatSynth.base s2) = {[1%nat]}.
Proof. split; vm_compute; reflexivity. Qed.

(** ** Triggers and the persistent parameters *)

(** Triggering a synthesizer reads its persistent parameters and leaves
    them as they are, whatever the per-trigger [params] say. *)
Lemma kick_trigger_keeps_parameters time velocity params k :
  BaseDrumSynth.parameters
    (BaseDrumSynth.outcome_state (KickSynth.trigger time velocity params k))
  = BaseDrumSynth.parameters k.
Proof.
  unfold KickSynth.trigger, WebAudio.node_start, WebAudio.node_stop. simpl.
  destruct (Num.ltb time 0); [done|].
  destruct (Num.ltb _ 0); done.
Qed.

Lemma hat_trigger_keeps_parameters time velocity params s :
  BaseDrumSynth.parameters
    (HiHatSynth.base
       (BaseDrumSynth.outcome_state (HiHatSynth.trigger time velocity params s)))
  = BaseDrumSynth.parameters (HiHatSynth.base s).
Proof.
  unfold HiHatSynth.trigger.
  assert (Hchoke : exists sc,
             HiHatSynth.choke
               (BaseDrumSynth.param params "chokeGroup" 0 (HiHatSynth.base s))
               time s = BaseDrumSynth.Done sc
             /\ BaseDrumSynth.parameters (HiHatSynth.base sc)
                = BaseDrumSynth.parameters (HiHatSynth.base s)).
  { unfold HiHatSynth.choke.
    destruct (HiHatSynth.activeChokeGroup s !! _) as [prev|]; [|by exists s].
    destruct (hat_voice_stop prev time s)
      as (s1 & -> & _ & _ & _ & _ & _ & Hp & _).
    eexists. split; [reflexivity|]. exact Hp. }
  destruct Hchoke as (sc & -> & Hp).
  destruct (HiHatSynth.noiseBuffer sc); simpl; [|done].
  unfold WebAudio.node_start, WebAudio.node_stop. simpl.
  destruct (Num.ltb time 0); [done|].
  destruct (Num.ltb _ 0); done.
Qed.

(** * Properties of the store, the storage, the engine and the controls *)

(** ** The clamp of the store *)

(** As [to_Q], with the integer literals as fractions. *)
Ltac to_Qz := to_Q; unfold inject_Z in *.

Lemma Qc_eq_Q (x y : Qc) : x = y -> (this x == this y)%Q.
Proof. by intros ->. Qed.

Lemma max_spec (x y : Qc) :
  (x < y /\ Num.max x y = y) \/ (y <= x /\ Num.max x y = x).
Proof.
  unfold Num.max. destruct (Num.ltb x y) eqn:E.
  - left. by apply ltb_lt in E.
  - right. by apply ltb_ge in E.
Qed.

Lemma min_spec (x y : Qc) :
  (y < x /\ Math.min x y = y) \/ (x <= y /\ Math.min x y = x).
Proof.
  unfold Math.min. destruct (Num.ltb y x) eqn:E.
  - left. by apply ltb_lt in E.
  - right. by apply ltb_ge in E.
Qed.

Lemma clamp_range (lo hi x : Qc) :
  lo <= hi -> lo <= Math.clamp lo hi x /\ Math.clamp lo hi x <= hi.
Proof.
  intros H. unfold Math.clamp.
  destruct (min_spec hi x) as [[H1 ->]|[H1 ->]];
    [destruct (max_spec lo x) as [[H2 ->]|[H2 ->]]
    |destruct (max_spec lo hi) as [[H2 ->]|[H2 ->]]];
    to_Q; split; lra.
Qed.

Lemma clamp_id (lo hi x : Qc) :
  lo <= x -> x <= hi -> Math.clamp lo hi x = x.
Proof.
  intros H1 H2. unfold Math.clamp.
  destruct (min_spec hi x) as [[H3 ->]|[H3 ->]].
  - destruct (max_spec lo x) as [[H4 ->]|[H4 ->]]; [done|].
    apply Qcle_antisym; done.
  - assert (x = hi) as -> by (by apply Qcle_antisym).
    destruct (max_spec lo hi) as [[H4 ->]|[H4 ->]]; [done|].
    by apply Qcle_antisym.
Qed.

Lemma clamp_below (lo hi x : Qc) :
  lo <= hi -> x <= lo -> Math.clamp lo hi x = lo.
Proof.
  intros H1 H2. unfold Math.clamp.
  destruct (min_spec hi x) as [[H3 ->]|[H3 ->]].
  - destruct (max_spec lo x) as [[H4 ->]|[H4 ->]]; [|done].
    by apply Qcle_antisym; [|apply Qclt_le_weak].
  - destruct (max_spec lo hi) as [[H4 ->]|[H4 ->]]; [|done].
    apply Qcle_antisym; [|done]. by apply Qcle_trans with x.
Qed.

Lemma clamp_above (lo hi x : Qc) :
  lo <= hi -> hi <= x -> Math.clamp lo hi x = hi.
Proof.
  intros H1 H2. unfold Math.clamp.
  destruct (min_spec hi x) as [[H3 ->]|[H3 ->]].
  - exfalso. to_Q. lra.
  - destruct (max_spec lo hi) as [[H4 ->]|[H4 ->]]; [done|].
    by apply Qcle_antisym.
Qed.

(** ** The pattern store *)

Lemma on_track_Some i f st st' :
  PatternStore.on_track i f st = Some st' ->
  exists track track',
    Pattern.tracks (PatternStore.pattern st) !! i = Some track
    /\ f track = Some track'
    /\ st' = PatternStore.set_pattern
               (fun p => PatternStore.set_tracks
                           (<[i := track']> (Pattern.tracks p)) p) st.
Proof.
  unfold PatternStore.on_track. intros H.
  destruct (Pattern.tracks (PatternStore.pattern st) !! i) as [track|] eqn:E;
    [|done].
  simpl in H. destruct (f track) as [track'|] eqn:F; [|done].
  simpl in H. exists track, track'. by inversion H.
Qed.

Lemma on_step_Some i j f st st' :
  PatternStore.on_step i j f st = Some st' ->
  exists track sd,
    Pattern.tracks (PatternStore.pattern st) !! i = Some track
    /\ Track.steps track !! j = Some sd
    /\ st' = PatternStore.set_pattern
               (fun p => PatternStore.set_tracks
                  (<[i := PatternStore.set_steps
                            (<[j := f sd]> (Track.steps track)) track]>
                     (Pattern.tracks p)) p) st.
Proof.
  unfold PatternStore.on_step. intros H.
  apply on_track_Some in H as (track & track' & Ht & Hf & ->).
  destruct (Track.steps track !! j) as [sd|] eqn:E; [|done].
  simpl in Hf. inversion Hf. by exists track, sd.
Qed.

Lemma on_step_step_at i j f st :
  PatternStore.on_step i j f st
  = match step_at (PatternStore.pattern st) i j with
    | Some sd =>
        match Pattern.tracks (PatternStore.pattern st) !! i with
        | Some track =>
            Some (PatternStore.set_pattern
                    (fun p => PatternStore.set_tracks
                       (<[i := PatternStore.set_steps
                                 (<[j := f sd]> (Track.steps track)) track]>
                          (Pattern.tracks p)) p) st)
        | None => None
        end
    | None => None
    end.
Proof.
  unfold PatternStore.on_step, PatternStore.on_track, step_at.
  destruct (Pattern.tracks (PatternStore.pattern st) !! i) as [track|]; [|done].
  simpl. by destruct (Track.steps track !! j).
Qed.

(** Reading the step data back after a recipe on the step at [(i, j)]. *)
Lemma step_at_on_step i j f st st' i' j' :
  PatternStore.on_step i j f st = Some st' ->
  step_at (PatternStore.pattern st') i' j'
  = if bool_decide (i' = i /\ j' = j)
    then f <$> step_at (PatternStore.pattern st) i j
    else step_at (PatternStore.pattern st) i' j'.
Proof.
  intros H. apply on_step_Some in H as (track & sd & Ht & Hs & ->).
  unfold step_at. simpl.
  destruct (decide (i' = i)) as [->|Hi].
  - rewrite list_lookup_insert_eq by (by eapply lookup_lt_Some).
    rewrite Ht. simpl.
    destruct (decide (j' = j)) as [->|Hj].
    + rewrite bool_decide_eq_true_2 by done.
      rewrite list_lookup_insert_eq by (by eapply lookup_lt_Some).
      by rewrite Hs.
    + rewrite bool_decide_eq_false_2 by tauto.
      by rewrite list_lookup_insert_ne.
  - rewrite bool_decide_eq_false_2 by tauto.
    by rewrite list_lookup_insert_ne.
Qed.

(** X2. [toggleStep] flips the [active] flag of the step at
    [(trackIndex, stepIndex)] and nothing else: every other step, the
    other fields of the tracks and of the pattern, and the playback
    fields of the store stay; when there is no such step the recipe
    raises and the store is left as it was. *)
Theorem X2_toggleStep_effect (i j : nat) (st : PatternStore.PatternState) :
  match step_at (PatternStore.pattern st) i j with
  | None => PatternStore.toggleStep i j st = None
  | Some sd =>
      exists st',
        PatternStore.toggleStep i j st = Some st'
        /\ step_at (PatternStore.pattern st') i j
           = Some (StepData.mk (negb (StepData.active sd))
                     (StepData.velocity sd) (StepData.probability sd)
                     (StepData.microTiming sd) (StepData.parameters sd))
        /\ (forall i' j', (i', j') <> (i, j) ->
              step_at (PatternStore.pattern st') i' j'
              = step_at (PatternStore.pattern st) i' j')
        /\ map (PatternStore.set_steps []) (Pattern.tracks (PatternStore.pattern st'))
           = map (PatternStore.set_steps []) (Pattern.tracks (PatternStore.pattern st))
        /\ PatternStore.set_tracks [] (PatternStore.pattern st')
           = PatternStore.set_tracks [] (PatternStore.pattern st)
        /\ PatternStore.isPlaying st' = PatternStore.isPlaying st
        /\ PatternStore.currentStep st' = PatternStore.currentStep st
        /\ PatternStore.bpm st' = PatternStore.bpm st
        /\ PatternStore.savedPatterns st' = PatternStore.savedPatterns st
  end.
Proof.
  destruct (step_at (PatternStore.pattern st) i j) as [sd|] eqn:E.
  - unfold PatternStore.toggleStep. rewrite on_step_step_at, E.
    pose proof E as E'. unfold step_at in E'.
    destruct (Pattern.tracks (PatternStore.pattern st) !! i) as [track|] eqn:Ht;
      [|done].
    simpl in E'. eexists. split; [done|].
    assert (PatternStore.on_step i j
              (fun sd => PatternStore.set_active (negb (StepData.active sd)) sd) st
            = Some (PatternStore.set_pattern
                      (fun p => PatternStore.set_tracks
                         (<[i := PatternStore.set_steps
                                   (<[j := PatternStore.set_active
                                             (negb (StepData.active sd)) sd]>
                                      (Track.steps track)) track]>
                            (Pattern.tracks p)) p) st)) as Hon
      by (by rewrite on_step_step_at, E, Ht).
    split; [|split; [|split; [|done]]].
    + rewrite (step_at_on_step _ _ _ _ _ i j Hon).
      rewrite bool_decide_eq_true_2 by done. by rewrite E.
    + intros i' j' Hne. rewrite (step_at_on_step _ _ _ _ _ i' j' Hon).
      rewrite bool_decide_eq_false_2; [done|].
      intros [-> ->]. done.
    + simpl. rewrite list_fmap_insert. simpl.
      apply list_insert_id. rewrite list_lookup_fmap, Ht. simpl.
      by destruct track.
  - unfold PatternStore.toggleStep. by rewrite on_step_step_at, E.
Qed.

(** X3. toggling the same step twice gives the store back as it was. *)
Theorem X3_toggleStep_twice (i j : nat) (st st1 : PatternStore.PatternState) :
  PatternStore.toggleStep i j st = Some st1 ->
  PatternStore.toggleStep i j st1 = Some st.
Proof.
  unfold PatternStore.toggleStep. intros H.
  pose proof (step_at_on_step _ _ _ _ _ i j H) as Hat.
  rewrite bool_decide_eq_true_2 in Hat by done.
  apply on_step_Some in H as (track & sd & Ht & Hs & ->).
  rewrite on_step_step_at, Hat. unfold step_at. rewrite Ht. simpl. rewrite Hs.
  simpl. rewrite list_lookup_insert_eq by (by eapply lookup_lt_Some).
  f_equal. destruct st as [p pl cs b sp]. unfold PatternStore.set_pattern.
  simpl in *. f_equal. destruct p as [pid pn pb psw pts pst pc pv].
  unfold PatternStore.set_tracks. simpl in *. f_equal.
  rewrite list_insert_insert_eq. apply list_insert_id. rewrite Ht. f_equal.
  destruct track as [tid tn tty tv tm tso tst tp]. unfold PatternStore.set_steps.
  simpl in *. f_equal. rewrite list_insert_insert_eq. symmetry.
  apply list_insert_id. rewrite Hs. f_equal. destruct sd as [a v q m ps].
  unfold PatternStore.set_active. simpl. by rewrite negb_involutive.
Qed.

Lemma X3_toggleStep_twice_witness :
  exists st1,
    PatternStore.toggleStep 2 5 (PatternStore.initial "a" 0) = Some st1
    /\ PatternStore.toggleStep 2 5 st1 = Some (PatternStore.initial "a" 0).
Proof.
  eexists. split; [reflexivity|].
  apply (X3_toggleStep_twice 2 5 (PatternStore.initial "a" 0)). reflexivity.
Defined.

Lemma bounds_127 : (0 : Qc) <= 127.
Proof. by vm_compute. Qed.

Lemma bounds_1 : (0 : Qc) <= 1.
Proof. by vm_compute. Qed.

Lemma bounds_bpm : (60 : Qc) <= Num.int 300.
Proof. by vm_compute. Qed.

(** X4. [setStepVelocity] and [setStepProbability] store the value
    clamped to 0..127 and to 0..1: a value within the range is read back
    as it was given, one outside as the nearer bound, and the other
    fields of the step stay. *)
Theorem X4_step_levels_clamped (i j : nat) (x : Qc)
    (st st' : PatternStore.PatternState) (sd : StepData.t) :
  step_at (PatternStore.pattern st) i j = Some sd ->
  (PatternStore.setStepVelocity i j x st = Some st' ->
   exists v,
     step_at (PatternStore.pattern st') i j
     = Some (StepData.mk (StepData.active sd) v (StepData.probability sd)
               (StepData.microTiming sd) (StepData.parameters sd))
     /\ 0 <= v /\ v <= 127
     /\ (0 <= x -> x <= 127 -> v = x)
     /\ (x <= 0 -> v = 0)
     /\ (127 <= x -> v = 127))
  /\ (PatternStore.setStepProbability i j x st = Some st' ->
      exists q,
        step_at (PatternStore.pattern st') i j
        = Some (StepData.mk (StepData.active sd) (StepData.velocity sd) q
                  (StepData.microTiming sd) (StepData.parameters sd))
        /\ 0 <= q /\ q <= 1
        /\ (0 <= x -> x <= 1 -> q = x)
        /\ (x <= 0 -> q = 0)
        /\ (1 <= x -> q = 1)).
Proof.
  intros Hsd. split; intros H.
  - exists (Math.clamp 0 127 x).
    rewrite (step_at_on_step _ _ _ _ _ i j H).
    rewrite bool_decide_eq_true_2 by done. rewrite Hsd.
    split; [done|].
    destruct (clamp_range 0 127 x bounds_127) as [H1 H2].
    split; [done|]. split; [done|].
    split; [apply clamp_id|].
    split; [apply clamp_below, bounds_127|apply clamp_above, bounds_127].
  - exists (Math.clamp 0 1 x).
    rewrite (step_at_on_step _ _ _ _ _ i j H).
    rewrite bool_decide_eq_true_2 by done. rewrite Hsd.
    split; [done|].
    destruct (clamp_range 0 1 x bounds_1) as [H1 H2].
    split; [done|]. split; [done|].
    split; [apply clamp_id|].
    split; [apply clamp_below, bounds_1|apply clamp_above, bounds_1].
Qed.

Lemma X4_step_levels_clamped_witness :
  exists st',
    PatternStore.setStepVelocity 0 3 (Num.int 200) (PatternStore.initial "a" 0)
    = Some st'
    /\ exists v,
         step_at (PatternStore.pattern st') 0 3
         = Some (StepData.mk false v 1 0 None)
         /\ 0 <= v /\ v <= 127
         /\ (0 <= Num.int 200 -> Num.int 200 <= 127 -> v = Num.int 200)
         /\ (Num.int 200 <= 0 -> v = 0)
         /\ (127 <= Num.int 200 -> v = 127).
Proof.
  eexists. split; [reflexivity|].
  apply (X4_step_levels_clamped 0 3 (Num.int 200) (PatternStore.initial "a" 0)
           _ PatternStore.defaultStep); reflexivity.
Defined.

Lemma secondsPerStep_range (p : Pattern.t) :
  60 <= Pattern.bpm p -> Pattern.bpm p <= Num.int 300 ->
  Num.dec 0.05 <= secondsPerStep p /\ secondsPerStep p <= Num.dec 0.25.
Proof.
  intros H1 H2. unfold secondsPerStep.
  assert (0 < Pattern.bpm p) as Hpos by (to_Qz; lra).
  assert (Pattern.bpm p <> 0) as Hne.
  { intros E. rewrite E in Hpos. by apply Qclt_not_le in Hpos. }
  assert (60 / Pattern.bpm p / 4 * (4 * Pattern.bpm p) = 60) as Heq.
  { field. split; [done|]. intros E. discriminate E. }
  set (x := 60 / Pattern.bpm p / 4) in *. clearbody x.
  split.
  - destruct (Qclt_le_dec x (Num.dec 0.05)) as [Hlt|]; [|done].
    exfalso. 
    assert (x * (4 * Pattern.bpm p) < 60); [|rewrite Heq in *; by apply Qclt_not_le in H].
    to_Qz. nra.
  - destruct (Qclt_le_dec (Num.dec 0.25) x) as [Hlt|]; [|done].
    exfalso.
    assert (60 < x * (4 * Pattern.bpm p)); [|rewrite Heq in *; by apply Qclt_not_le in H].
    to_Qz. nra.
Qed.

(** X5. [setBpm] stores the tempo clamped to 60..300 and mirrors it in
    [state.bpm]; setting the same tempo again changes nothing; a step
    of the stored tempo lasts between 50 ms and 250 ms. *)
Theorem X5_setBpm_clamps (v : Qc) (st : PatternStore.PatternState) :
  let st' := PatternStore.setBpm v st in
  60 <= PatternStore.bpm st' /\ PatternStore.bpm st' <= Num.int 300
  /\ Pattern.bpm (PatternStore.pattern st') = PatternStore.bpm st'
  /\ (60 <= v -> v <= Num.int 300 -> PatternStore.bpm st' = v)
  /\ (v <= 60 -> PatternStore.bpm st' = 60)
  /\ (Num.int 300 <= v -> PatternStore.bpm st' = Num.int 300)
  /\ PatternStore.setBpm v st' = st'
  /\ Num.dec 0.05 <= secondsPerStep (PatternStore.pattern st')
  /\ secondsPerStep (PatternStore.pattern st') <= Num.dec 0.25.
Proof.
  simpl. destruct (clamp_range 60 (Num.int 300) v bounds_bpm) as [H1 H2].
  split; [done|]. split; [done|]. split; [done|].
  split; [apply clamp_id|].
  split; [apply clamp_below, bounds_bpm|].
  split; [apply clamp_above, bounds_bpm|].
  split; [done|].
  by apply secondsPerStep_range.
Qed.

Lemma step_at_clearPattern st i j :
  step_at (PatternStore.pattern (PatternStore.clearPattern st)) i j
  = PatternStore.set_active false <$> step_at (PatternStore.pattern st) i j.
Proof.
  unfold step_at. simpl. rewrite list_lookup_fmap.
  destruct (Pattern.tracks (PatternStore.pattern st) !! i) as [track|]; [|done].
  simpl. by rewrite list_lookup_fmap.
Qed.

(** X6. [clearPattern] switches every step off and keeps its velocity,
    probability, timing and overrides; a sequencer playing the cleared
    pattern sends nothing to the engine, whatever the step. *)
Theorem X6_clearPattern_silences (st : PatternStore.PatternState) (step : nat)
    (time : Qc) (s : Sys) :
  pattern (sequencer s)
  = Some (PatternStore.pattern (PatternStore.clearPattern st)) ->
  (forall i j,
     step_at (PatternStore.pattern (PatternStore.clearPattern st)) i j
     = (fun sd => StepData.mk false (StepData.velocity sd)
                    (StepData.probability sd) (StepData.microTiming sd)
                    (StepData.parameters sd))
         <$> step_at (PatternStore.pattern st) i j)
  /\ exists s',
       state_of (scheduleStep step time s) = Some s'
       /\ calls (audioEngine s') = calls (audioEngine s).
Proof.
  intros Hp. split; [apply step_at_clearPattern|].
  destruct (scheduleStep_effect _ step time s Hp)
    as (s' & new & Hs & _ & Hc & Hnew & _).
  exists s'. split; [done|].
  destruct new as [|c new]; [by rewrite app_nil_r in Hc|].
  exfalso. apply Forall_cons in Hnew as [(track & sd & Hin & Hsd & Hel & _) _].
  destruct Hel as (Hact & _).
  simpl in Hin. apply list_elem_of_fmap in Hin as (t0 & -> & _).
  simpl in Hsd. rewrite list_lookup_fmap in Hsd.
  destruct (Track.steps t0 !! step); [|done].
  simpl in Hsd. inversion Hsd; subst. done.
Qed.

Lemma X6_clearPattern_silences_witness :
  exists s',
    state_of (scheduleStep 0 0
                (Scenario.started
                   (PatternStore.pattern
                      (PatternStore.clearPattern
                         (PatternStore.loadPattern (Scenario.fourOnTheFloor 0)
                            (PatternStore.initial "a" 0)))) 0)) = Some s'
    /\ calls (audioEngine s') = [].
Proof.
  apply (X6_clearPattern_silences
           (PatternStore.loadPattern (Scenario.fourOnTheFloor 0)
              (PatternStore.initial "a" 0)) 0 0
           (Scenario.started
              (PatternStore.pattern
                 (PatternStore.clearPattern
                    (PatternStore.loadPattern (Scenario.fourOnTheFloor 0)
                       (PatternStore.initial "a" 0)))) 0)).
  reflexivity.
Defined.

(** ** [randomizePattern] *)

Lemma int_plus (a b : Z) : Num.int a + Num.int b = Num.int (a + b).
Proof.
  apply Qc_is_canon. to_Q. by rewrite inject_Z_plus.
Qed.

Lemma floor_draw (r : Qc) :
  0 <= r -> r < 1 ->
  exists n : Z, (0 <= n <= 46)%Z /\ Math.floor (r * Num.int 47) = Num.int n.
Proof.
  intros H0 H1. unfold Math.floor. exists (Qfloor (this (r * Num.int 47)%Qc)).
  split; [|done].
  pose proof (Qfloor_le (this (r * Num.int 47)%Qc)) as Hle.
  pose proof (Qlt_floor (this (r * Num.int 47)%Qc)) as Hlt.
  set (n := Qfloor (this (r * Num.int 47)%Qc)) in *. clearbody n.
  assert (this (r * Num.int 47) == this r * 47)%Q as E.
  { to_Q. reflexivity. }
  rewrite E in Hle, Hlt. clear E.
  assert (0 <= this r)%Q as H0' by (by to_Q).
  assert (this r < 1)%Q as H1' by (by to_Q).
  split.
  - assert (inject_Z (-1) < inject_Z n)%Q as Hn.
    { rewrite inject_Z_plus in Hlt. unfold inject_Z in *. lra. }
    rewrite <- Zlt_Qlt in Hn. lia.
  - assert (inject_Z n < inject_Z 47)%Q as Hn.
    { unfold inject_Z in *. lra. }
    rewrite <- Zlt_Qlt in Hn. lia.
Qed.

Lemma randomizeStep_randomized draw i sd n :
  unit_draws draw ->
  randomized sd (PatternStore.randomizeStep draw i sd n).1.
Proof.
  intros Hd. unfold PatternStore.randomizeStep.
  destruct (Num.ltb (draw n) (PatternStore.density i)); simpl.
  - split; [done|]. split; [done|]. simpl.
    destruct (Hd (S n)) as [Ha Hb]. destruct (Hd (S (S n))) as [Hc He].
    destruct (floor_draw _ Ha Hb) as (z & Hz & ->).
    split; [exists (80 + z)%Z; split; [lia|apply int_plus]|].
    set (r := draw (S (S n))) in *. clearbody r.
    split; to_Qz; lra.
  - split; [done|]. split; [done|]. done.
Qed.

Lemma randomizeSteps_randomized draw i : forall sds n,
  unit_draws draw ->
  Forall2 randomized sds (PatternStore.randomizeSteps draw i sds n).1.
Proof.
  induction sds as [|sd sds IH]; intros n Hd; simpl; [constructor|].
  pose proof (randomizeStep_randomized draw i sd n Hd) as H1.
  destruct (PatternStore.randomizeStep draw i sd n) as [sd' n1].
  specialize (IH n1 Hd).
  destruct (PatternStore.randomizeSteps draw i sds n1) as [rest n2].
  simpl in *. by constructor.
Qed.

Lemma randomizeTracks_randomized draw : forall ts i n,
  unit_draws draw ->
  Forall2 (fun t t' =>
             PatternStore.set_steps [] t' = PatternStore.set_steps [] t
             /\ Forall2 randomized (Track.steps t) (Track.steps t'))
          ts (PatternStore.randomizeTracks draw i ts n).1.
Proof.
  induction ts as [|t ts IH]; intros i n Hd; simpl; [constructor|].
  pose proof (randomizeSteps_randomized draw i (Track.steps t) n Hd) as H1.
  destruct (PatternStore.randomizeSteps draw i (Track.steps t) n) as [sds n1].
  specialize (IH (S i) n1 Hd).
  destruct (PatternStore.randomizeTracks draw (S i) ts n1) as [rest n2].
  simpl in *. constructor; [|done]. split; [done|]. done.
Qed.

(** X7. with [Math.random()] in [0, 1), [randomizePattern] gives every
    step it switches on a whole velocity between 80 and 126 and a
    probability of at least 0.7 and below 1; a step it switches off keeps
    its velocity and probability; timing, overrides, the other fields of
    the tracks and the number of steps and tracks stay. *)
Theorem X7_randomizePattern_bounds (draw : nat -> Qc)
    (st : PatternStore.PatternState) :
  unit_draws draw ->
  Forall2 (fun t t' =>
             PatternStore.set_steps [] t' = PatternStore.set_steps [] t
             /\ Forall2 randomized (Track.steps t) (Track.steps t'))
          (Pattern.tracks (PatternStore.pattern st))
          (Pattern.tracks
             (PatternStore.pattern (PatternStore.randomizePattern draw st))).
Proof.
  intros Hd. simpl. by apply randomizeTracks_randomized.
Qed.

Lemma X7_randomizePattern_bounds_witness :
  Forall2 (fun t t' =>
             PatternStore.set_steps [] t' = PatternStore.set_steps [] t
             /\ Forall2 randomized (Track.steps t) (Track.steps t'))
          (Pattern.tracks (PatternStore.pattern (PatternStore.initial "a" 0)))
          (Pattern.tracks
             (PatternStore.pattern
                (PatternStore.randomizePattern (fun _ => Num.dec 0.2)
                   (PatternStore.initial "a" 0)))).
Proof.
  apply (X7_randomizePattern_bounds (fun _ => Num.dec 0.2)
           (PatternStore.initial "a" 0)).
  intros n. split; by vm_compute.
Defined.

(** ** What the store's actions preserve *)

(** A pattern within the store's ranges is one the scheduler handles. *)
Lemma valid_wf (p : Pattern.t) : valid_pattern p -> wf_pattern p.
Proof.
  intros (H1 & _ & _ & _ & Hs & _ & Ht). split; [to_Qz; lra|].
  split; [lia|]. rewrite Hs.
  eapply List.Forall_impl; [|exact Ht]. by intros t (Hl & _).
Qed.

Lemma on_track_valid i f st st' :
  (forall t t', f t = Some t' -> valid_track 16 t -> valid_track 16 t') ->
  PatternStore.on_track i f st = Some st' ->
  valid_pattern (PatternStore.pattern st) ->
  valid_pattern (PatternStore.pattern st')
  /\ PatternStore.bpm st' = PatternStore.bpm st
  /\ Pattern.bpm (PatternStore.pattern st') = Pattern.bpm (PatternStore.pattern st)
  /\ PatternStore.currentStep st' = PatternStore.currentStep st.
Proof.
  intros Hf H (H1 & H2 & H3 & H4 & H5 & H6 & H7).
  apply on_track_Some in H as (track & track' & Ht & Hft & ->).
  split; [|done]. unfold valid_pattern. simpl.
  split; [done|]. split; [done|]. split; [done|]. split; [done|].
  split; [done|]. split; [by rewrite length_insert|].
  apply Forall_insert; [done|]. eapply Hf; [done|].
  by eapply Forall_lookup_1 in H7.
Qed.

Lemma on_step_valid i j f st st' :
  (forall sd, valid_step sd -> valid_step (f sd)) ->
  PatternStore.on_step i j f st = Some st' ->
  valid_pattern (PatternStore.pattern st) ->
  valid_pattern (PatternStore.pattern st')
  /\ PatternStore.bpm st' = PatternStore.bpm st
  /\ Pattern.bpm (PatternStore.pattern st') = Pattern.bpm (PatternStore.pattern st)
  /\ PatternStore.currentStep st' = PatternStore.currentStep st.
Proof.
  intros Hf. apply on_track_valid. intros t t' Ht (Hl & Hv1 & Hv2 & Hs).
  destruct (Track.steps t !! j) as [sd|] eqn:E; [|done].
  simpl in Ht. inversion Ht; subst. split; [by simpl; rewrite length_insert|].
  split; [done|]. split; [done|]. simpl.
  apply Forall_insert; [done|]. apply Hf. by eapply Forall_lookup_1 in Hs.
Qed.

Lemma createDefaultPattern_valid uuid now :
  valid_pattern (PatternStore.createDefaultPattern uuid now).
Proof.
  split; [by vm_compute|]. split; [by vm_compute|].
  split; [by vm_compute|]. split; [by vm_compute|].
  split; [done|]. split; [done|].
  simpl. repeat constructor; by vm_compute.
Qed.

Lemma randomized_valid sd sd' :
  randomized sd sd' -> valid_step sd -> valid_step sd'.
Proof.
  intros (_ & _ & H) (H1 & H2 & H3 & H4). unfold valid_step.
  destruct (StepData.active sd').
  - destruct H as ((n & Hn & ->) & Ha & Hb).
    assert (0 <= Num.int n /\ Num.int n <= 127) as [? ?].
    { to_Q. rewrite !Zle_Qle in Hn. unfold inject_Z in *. simpl in *.
      destruct Hn. split; lra. }
    split; [done|]. split; [done|].
    set (q := StepData.probability sd') in *. clearbody q.
    split; to_Qz; lra.
  - destruct H as [-> ->]. done.
Qed.

Lemma action_invariant st st' :
  action st st' ->
  valid_pattern (PatternStore.pattern st)
  /\ PatternStore.bpm st = Pattern.bpm (PatternStore.pattern st)
  /\ (PatternStore.currentStep st < 16)%nat ->
  valid_pattern (PatternStore.pattern st')
  /\ PatternStore.bpm st' = Pattern.bpm (PatternStore.pattern st')
  /\ (PatternStore.currentStep st' < 16)%nat.
Proof.
  intros Ha (Hv & Hb & Hc).
  assert (forall f i j,
            (forall sd, valid_step sd -> valid_step (f sd)) ->
            PatternStore.on_step i j f st = Some st' ->
            valid_pattern (PatternStore.pattern st')
            /\ PatternStore.bpm st' = Pattern.bpm (PatternStore.pattern st')
            /\ (PatternStore.currentStep st' < 16)%nat) as Hstep.
  { intros f i j Hf H.
    destruct (on_step_valid i j f st st' Hf H Hv) as (? & E1 & E2 & E3).
    rewrite E1, E2, E3. done. }
  assert (forall f i,
            (forall t t', f t = Some t' -> valid_track 16 t -> valid_track 16 t') ->
            PatternStore.on_track i f st = Some st' ->
            valid_pattern (PatternStore.pattern st')
            /\ PatternStore.bpm st' = Pattern.bpm (PatternStore.pattern st')
            /\ (PatternStore.currentStep st' < 16)%nat) as Htrack.
  { intros f i Hf H.
    destruct (on_track_valid i f st st' Hf H Hv) as (? & E1 & E2 & E3).
    rewrite E1, E2, E3. done. }
  pose proof Hv as (H1 & H2 & H3 & H4 & H5 & H6 & H7).
  destruct Ha.
  - eapply Hstep; [|done]. by intros sd.
  - eapply Hstep; [|done]. intros sd (?&?&?&?).
    destruct (clamp_range 0 127 v bounds_127). by split.
  - eapply Hstep; [|done]. intros sd (?&?&?&?).
    destruct (clamp_range 0 1 q bounds_1). by split.
  - destruct (clamp_range 60 (Num.int 300) v bounds_bpm).
    split; [|done]. by split.
  - destruct (clamp_range 0 1 v bounds_1).
    split; [|done]. simpl. by split.
  - split; [done|]. split; [done|]. simpl.
    destruct (negb (negb _)); [lia|done].
  - split; [done|]. split; [done|]. simpl. rewrite H5.
    apply Nat.mod_upper_bound. lia.
  - eapply Htrack; [|done]. intros t t' Ht (?&?&?&?). inversion Ht; subst.
    destruct (clamp_range 0 1 v bounds_1). by split.
  - eapply Htrack; [|done]. intros t t' Ht ?. by inversion Ht; subst.
  - eapply Htrack; [|done]. intros t t' Ht ?. by inversion Ht; subst.
  - eapply Htrack; [|done]. intros t t' Ht ?. by inversion Ht; subst.
  - split; [|done]. unfold valid_pattern. simpl.
    split; [done|]. split; [done|]. split; [done|].
    split; [done|]. split; [done|]. split; [by rewrite length_map|].
    apply Forall_fmap. eapply List.Forall_impl; [|exact H7].
    intros t (Hl & ? & ? & Hs). split; [by simpl; rewrite length_map|].
    split; [done|]. split; [done|]. simpl. apply Forall_fmap.
    eapply List.Forall_impl; [|exact Hs]. by intros sd.
  - split; [|done]. unfold valid_pattern. simpl.
    split; [done|]. split; [done|]. split; [done|].
    split; [done|]. split; [done|].
    pose proof (randomizeTracks_randomized draw
                  (Pattern.tracks (PatternStore.pattern st)) 0 0 H) as Hr.
    split; [by rewrite <- (Forall2_length _ _ _ Hr)|].
    revert H7 Hr. generalize (Pattern.tracks (PatternStore.pattern st)).
    generalize (PatternStore.randomizeTracks draw 0
                  (Pattern.tracks (PatternStore.pattern st)) 0).1.
    intros ts' ts Hl Hr. induction Hr as [|t t' l l' [Hh Hss] Hr IH];
      [constructor|].
    apply Forall_cons in Hl as [(Hlen & ? & ? & Hs) Hl].
    constructor; [|by apply IH].
    assert (Track.volume t' = Track.volume t) as Hvol.
    { destruct t, t'. by inversion Hh. }
    split; [by rewrite <- (Forall2_length _ _ _ Hss)|]. rewrite Hvol.
    split; [done|]. split; [done|].
    clear Hlen. induction Hss as [|sd sd' ? ? Hsd ? IH2]; [constructor|].
    apply Forall_cons in Hs as [? ?].
    constructor; [by eapply randomized_valid|by apply IH2].
  - split; [done|]. split; [done|]. simpl. lia.
  - split; [apply createDefaultPattern_valid|]. split; [done|]. simpl. lia.
  - done.
  - done.
Qed.

(** X1. whatever sequence of actions the store has gone through since it
    was created, its pattern has eight tracks of sixteen steps with the
    tempo in 60..300, the swing, the track volumes and the step
    probabilities in 0..1 and the velocities in 0..127; it is a pattern
    the sequencer's loop terminates on; [state.bpm] equals
    [pattern.bpm]; and the cursor is one of the sixteen steps. *)
Theorem X1_store_invariant (uuid : string) (now : Qc)
    (st : PatternStore.PatternState) :
  rtc action (PatternStore.initial uuid now) st ->
  valid_pattern (PatternStore.pattern st)
  /\ wf_pattern (PatternStore.pattern st)
  /\ PatternStore.bpm st = Pattern.bpm (PatternStore.pattern st)
  /\ (PatternStore.currentStep st < Pattern.steps (PatternStore.pattern st))%nat.
Proof.
  intros Hr.
  assert (valid_pattern (PatternStore.pattern st)
          /\ PatternStore.bpm st = Pattern.bpm (PatternStore.pattern st)
          /\ (PatternStore.currentStep st < 16)%nat) as (Hv & Hb & Hc).
  { revert st Hr. apply (rtc_ind_r _ (PatternStore.initial uuid now)).
    - split; [apply createDefaultPattern_valid|]. split; [done|]. simpl. lia.
    - intros st st' _ Ha IH. by eapply action_invariant. }
  split; [done|]. split; [by apply valid_wf|]. split; [done|].
  destruct Hv as (_ & _ & _ & _ & -> & _). done.
Qed.

Lemma X1_store_invariant_witness :
  valid_pattern
    (PatternStore.pattern
       (PatternStore.setCurrentStep 37
          (PatternStore.setBpm (Num.int 500) (PatternStore.initial "a" 0))))
  /\ wf_pattern
       (PatternStore.pattern
          (PatternStore.setCurrentStep 37
             (PatternStore.setBpm (Num.int 500) (PatternStore.initial "a" 0))))
  /\ PatternStore.bpm
       (PatternStore.setCurrentStep 37
          (PatternStore.setBpm (Num.int 500) (PatternStore.initial "a" 0)))
     = Pattern.bpm
         (PatternStore.pattern
            (PatternStore.setCurrentStep 37
               (PatternStore.setBpm (Num.int 500) (PatternStore.initial "a" 0))))
  /\ (PatternStore.currentStep
        (PatternStore.setCurrentStep 37
           (PatternStore.setBpm (Num.int 500) (PatternStore.initial "a" 0)))
      < Pattern.steps
          (PatternStore.pattern
             (PatternStore.setCurrentStep 37
                (PatternStore.setBpm (Num.int 500)
                   (PatternStore.initial "a" 0)))))%nat.
Proof.
  apply (X1_store_invariant "a" 0).
  eapply rtc_l; [apply (act_setBpm (Num.int 500))|].
  eapply rtc_l; [apply (act_setCurrentStep 37)|].
  apply rtc_refl.
Defined.

(** ** The pattern storage *)

Lemma ensure_store s :
  PatternStorage.store (PatternStorage.ensure s) = PatternStorage.store s
  /\ PatternStorage.db (PatternStorage.ensure s) = true.
Proof. unfold PatternStorage.ensure. by destruct (PatternStorage.db s) eqn:E. Qed.

(** X8. a saved pattern is loaded back under its [id], replacing what
    was stored under that [id] and nothing else; after [deletePattern]
    the [id] loads [null], after [clearAll] every [id] does; each of
    these calls leaves the database open. *)
Theorem X8_storage_round_trip (p : Pattern.t) (id : string)
    (s : PatternStorage.t) :
  (PatternStorage.loadPattern (Pattern.id p) (PatternStorage.savePattern p s)).1
  = Some p
  /\ (id <> Pattern.id p ->
      (PatternStorage.loadPattern id (PatternStorage.savePattern p s)).1
      = (PatternStorage.loadPattern id s).1)
  /\ (PatternStorage.loadPattern id (PatternStorage.deletePattern id s)).1 = None
  /\ (id <> Pattern.id p ->
      (PatternStorage.loadPattern (Pattern.id p)
         (PatternStorage.deletePattern id (PatternStorage.savePattern p s))).1
      = Some p)
  /\ (PatternStorage.loadPattern id (PatternStorage.clearAll s)).1 = None
  /\ PatternStorage.db (PatternStorage.savePattern p s) = true
  /\ PatternStorage.db (PatternStorage.deletePattern id s) = true
  /\ PatternStorage.db (PatternStorage.loadPattern id s).2 = true.
Proof.
  destruct s as [[] m];
    unfold PatternStorage.loadPattern, PatternStorage.savePattern,
      PatternStorage.deletePattern, PatternStorage.clearAll,
      PatternStorage.ensure, PatternStorage.init; simpl.
  all: split; [apply lookup_insert_eq|].
  all: split; [intros Hne; by apply lookup_insert_ne|].
  all: split; [apply lookup_delete_eq|].
  all: split;
    [intros Hne; rewrite lookup_delete_ne by done; apply lookup_insert_eq|].
  all: done.
Qed.

Lemma insert_newest_perm x l : PatternStorage.insert_newest x l ≡ₚ x :: l.
Proof.
  induction l as [|y l IH]; simpl; [done|].
  destruct (Num.ltb _ _); [|done]. rewrite IH. apply Permutation_swap.
Qed.

Lemma sort_newest_perm l : PatternStorage.sort_newest l ≡ₚ l.
Proof.
  induction l as [|x l IH]; simpl; [done|].
  rewrite insert_newest_perm. by rewrite IH.
Qed.

Lemma insert_newest_sorted x l :
  newest_first l -> newest_first (PatternStorage.insert_newest x l).
Proof.
  unfold newest_first. induction l as [|y l IH]; intros Hs; simpl.
  - repeat constructor.
  - destruct (Num.ltb (Pattern.created x) (Pattern.created y)) eqn:E.
    + apply Sorted_inv in Hs as [Hs Hd]. constructor; [by apply IH|].
      destruct l as [|z l]; simpl.
      * constructor. apply ltb_lt in E. by apply Qclt_le_weak.
      * destruct (Num.ltb (Pattern.created x) (Pattern.created z)).
        -- constructor. by apply HdRel_inv in Hd.
        -- constructor. apply ltb_lt in E. by apply Qclt_le_weak.
    + constructor; [done|]. constructor. by apply ltb_ge in E.
Qed.

Lemma sort_newest_sorted l : newest_first (PatternStorage.sort_newest l).
Proof.
  induction l as [|x l IH]; simpl; [constructor|].
  by apply insert_newest_sorted.
Qed.

Lemma getAll_perm m : PatternStorage.getAll m ≡ₚ (map_to_list m).*2.
Proof.
  unfold PatternStorage.getAll. by rewrite merge_sort_Permutation.
Qed.

Lemma elem_of_getAllPatterns s p :
  p ∈ (PatternStorage.getAllPatterns s).1
  <-> exists k, PatternStorage.store s !! k = Some p.
Proof.
  unfold PatternStorage.getAllPatterns. simpl.
  rewrite sort_newest_perm, getAll_perm.
  destruct (ensure_store s) as [-> _].
  rewrite list_elem_of_fmap. split.
  - intros ([k q] & -> & Hin). exists k. by apply elem_of_map_to_list in Hin.
  - intros [k Hk]. exists (k, p). split; [done|].
    by apply elem_of_map_to_list.
Qed.

Lemma getAllPatterns_ids s :
  keyed s -> NoDup (Pattern.id <$> (PatternStorage.getAllPatterns s).1).
Proof.
  intros Hk. unfold PatternStorage.getAllPatterns. simpl.
  rewrite sort_newest_perm, getAll_perm.
  destruct (ensure_store s) as [-> _].
  assert (Pattern.id <$> (map_to_list (PatternStorage.store s)).*2
          = (map_to_list (PatternStorage.store s)).*1) as ->.
  { rewrite <- list_fmap_compose. apply list_fmap_ext.
    intros i [k p] Hi. simpl. apply Hk.
    apply elem_of_map_to_list. by eapply list_elem_of_lookup_2. }
  apply NoDup_fst_map_to_list.
Qed.

(** X9. [getAllPatterns] returns the stored patterns, each once, from
    the newest to the oldest. *)
Theorem X9_getAllPatterns_newest_first (s : PatternStorage.t) :
  newest_first (PatternStorage.getAllPatterns s).1
  /\ (PatternStorage.getAllPatterns s).1
     ≡ₚ (map_to_list (PatternStorage.store s)).*2
  /\ (forall p, p ∈ (PatternStorage.getAllPatterns s).1
                <-> exists k, PatternStorage.store s !! k = Some p)
  /\ length (PatternStorage.getAllPatterns s).1 = size (PatternStorage.store s)
  /\ PatternStorage.store (PatternStorage.getAllPatterns s).2
     = PatternStorage.store s.
Proof.
  split; [apply sort_newest_sorted|].
  assert ((PatternStorage.getAllPatterns s).1
          ≡ₚ (map_to_list (PatternStorage.store s)).*2) as Hp.
  { unfold PatternStorage.getAllPatterns. simpl.
    rewrite sort_newest_perm, getAll_perm.
    by destruct (ensure_store s) as [-> _]. }
  split; [done|]. split; [apply elem_of_getAllPatterns|].
  split; [|apply ensure_store].
  rewrite Hp, length_fmap. by rewrite length_map_to_list.
Qed.

Lemma keyed_savePattern p s : keyed s -> keyed (PatternStorage.savePattern p s).
Proof.
  intros Hk k q. unfold PatternStorage.savePattern. simpl.
  destruct (ensure_store s) as [-> _].
  destruct (decide (k = Pattern.id p)) as [->|Hne].
  - rewrite lookup_insert_eq. by intros [= <-].
  - rewrite lookup_insert_ne by done. apply Hk.
Qed.

Lemma keyed_deletePattern id s :
  keyed s -> keyed (PatternStorage.deletePattern id s).
Proof.
  intros Hk k q. unfold PatternStorage.deletePattern. simpl.
  destruct (ensure_store s) as [-> _].
  intros H. apply lookup_delete_Some in H as [_ H]. by apply Hk.
Qed.

Lemma ensure_idem s :
  PatternStorage.ensure (PatternStorage.ensure s) = PatternStorage.ensure s.
Proof. by destruct s as [[] m]. Qed.

Lemma loadSavedPatterns_fields st db :
  PatternStore.savedPatterns (PatternStore.loadSavedPatterns (st, db)).1
  = (PatternStorage.getAllPatterns db).1
  /\ PatternStore.pattern (PatternStore.loadSavedPatterns (st, db)).1
     = PatternStore.pattern st
  /\ (PatternStore.loadSavedPatterns (st, db)).2 = PatternStorage.ensure db.
Proof. done. Qed.

(** X10. after [saveCurrentPattern] the library lists the current
    pattern, newest first, no [id] twice, and holds what the storage
    holds; the pattern being edited is untouched; saving again without an
    edit changes neither the store nor the storage. *)
Theorem X10_saveCurrentPattern_listed (st : PatternStore.PatternState)
    (db : PatternStorage.t) :
  keyed db ->
  let w := PatternStore.saveCurrentPattern (st, db) in
  PatternStore.pattern st ∈ PatternStore.savedPatterns w.1
  /\ newest_first (PatternStore.savedPatterns w.1)
  /\ NoDup (Pattern.id <$> PatternStore.savedPatterns w.1)
  /\ (forall p, p ∈ PatternStore.savedPatterns w.1
                <-> exists k, PatternStorage.store w.2 !! k = Some p)
  /\ PatternStore.pattern w.1 = PatternStore.pattern st
  /\ keyed w.2
  /\ PatternStore.saveCurrentPattern w = w.
Proof.
  intros Hk w.
  destruct (loadSavedPatterns_fields st
              (PatternStorage.savePattern (PatternStore.pattern st) db))
    as (Hl & Hp & Hd).
  assert (w = PatternStore.loadSavedPatterns
                (st, PatternStorage.savePattern (PatternStore.pattern st) db))
    as Hw by done.
  clearbody w. subst w. rewrite Hl, Hp, Hd.
  assert (PatternStorage.ensure
            (PatternStorage.savePattern (PatternStore.pattern st) db)
          = PatternStorage.savePattern (PatternStore.pattern st) db) as He.
  { by destruct db as [[] m]. }
  rewrite He.
  split.
  { apply elem_of_getAllPatterns. exists (Pattern.id (PatternStore.pattern st)).
    unfold PatternStorage.savePattern. simpl. apply lookup_insert_eq. }
  split; [apply sort_newest_sorted|].
  split; [by apply getAllPatterns_ids, keyed_savePattern|].
  split; [apply elem_of_getAllPatterns|].
  split; [done|]. split; [by apply keyed_savePattern|].
  set (S1 := PatternStorage.savePattern (PatternStore.pattern st) db) in *.
  assert (PatternStorage.savePattern (PatternStore.pattern st)
            (PatternStorage.ensure S1) = S1) as Hs.
  { rewrite He. unfold S1. destruct db as [[] m];
      unfold PatternStorage.savePattern, PatternStorage.ensure,
        PatternStorage.init; simpl; by rewrite insert_insert_eq. }
  change (PatternStore.loadSavedPatterns
            ((PatternStore.loadSavedPatterns (st, S1)).1,
             PatternStorage.savePattern (PatternStore.pattern st)
               (PatternStorage.ensure S1))
          = PatternStore.loadSavedPatterns (st, S1)).
  rewrite Hs. done.
Qed.

Lemma X10_saveCurrentPattern_listed_witness :
  let w := PatternStore.saveCurrentPattern
             (PatternStore.initial "a" 0,
              {| PatternStorage.db := false; PatternStorage.store := ∅ |}) in
  PatternStore.pattern (PatternStore.initial "a" 0)
    ∈ PatternStore.savedPatterns w.1
  /\ newest_first (PatternStore.savedPatterns w.1)
  /\ NoDup (Pattern.id <$> PatternStore.savedPatterns w.1)
  /\ (forall p, p ∈ PatternStore.savedPatterns w.1
                <-> exists k, PatternStorage.store w.2 !! k = Some p)
  /\ PatternStore.pattern w.1 = PatternStore.pattern (PatternStore.initial "a" 0)
  /\ keyed w.2
  /\ PatternStore.saveCurrentPattern w = w.
Proof.
  apply (X10_saveCurrentPattern_listed (PatternStore.initial "a" 0)
           {| PatternStorage.db := false; PatternStorage.store := ∅ |}).
  intros k p H. simpl in H. by rewrite lookup_empty in H.
Defined.

(** X11. after [deletePattern(id)] the library lists no pattern with that
    [id] and still lists every other stored pattern; the pattern being
    edited stays loaded, also when it is the one deleted. *)
Theorem X11_deletePattern_unlisted (id : string) (st : PatternStore.PatternState)
    (db : PatternStorage.t) :
  keyed db ->
  let w := PatternStore.deletePattern id (st, db) in
  (forall p, p ∈ PatternStore.savedPatterns w.1 -> Pattern.id p <> id)
  /\ (forall p, Pattern.id p <> id ->
        (p ∈ PatternStore.savedPatterns w.1
         <-> exists k, PatternStorage.store db !! k = Some p))
  /\ newest_first (PatternStore.savedPatterns w.1)
  /\ PatternStore.pattern w.1 = PatternStore.pattern st
  /\ (PatternStorage.loadPattern id w.2).1 = None.
Proof.
  intros Hk w.
  destruct (loadSavedPatterns_fields st (PatternStorage.deletePattern id db))
    as (Hl & Hp & Hd).
  assert (w = PatternStore.loadSavedPatterns
                (st, PatternStorage.deletePattern id db)) as Hw by done.
  clearbody w. subst w. rewrite Hl, Hp, Hd.
  assert (PatternStorage.store (PatternStorage.deletePattern id db)
          = delete id (PatternStorage.store db)) as Hst.
  { unfold PatternStorage.deletePattern. simpl.
    by destruct (ensure_store db) as [-> _]. }
  split.
  { intros p Hin. apply elem_of_getAllPatterns in Hin as [k Hin].
    rewrite Hst in Hin. apply lookup_delete_Some in Hin as [Hne Hin].
    apply Hk in Hin. congruence. }
  split.
  { intros p Hne. rewrite elem_of_getAllPatterns, Hst. split.
    - intros [k Hin]. exists k. by apply lookup_delete_Some in Hin as [_ Hin].
    - intros [k Hin]. exists k. apply lookup_delete_Some. split; [|done].
      apply Hk in Hin. congruence. }
  split; [apply sort_newest_sorted|]. split; [done|].
  unfold PatternStorage.loadPattern. simpl.
  destruct (ensure_store (PatternStorage.ensure
                            (PatternStorage.deletePattern id db))) as [-> _].
  destruct (ensure_store (PatternStorage.deletePattern id db)) as [-> _].
  rewrite Hst. apply lookup_delete_eq.
Qed.

Lemma X11_deletePattern_unlisted_witness :
  let w := PatternStore.deletePattern "a"
             (PatternStore.saveCurrentPattern
                (PatternStore.initial "a" 0,
                 {| PatternStorage.db := false; PatternStorage.store := ∅ |})) in
  (forall p, p ∈ PatternStore.savedPatterns w.1 -> Pattern.id p <> "a")
  /\ PatternStore.pattern w.1 = PatternStore.pattern (PatternStore.initial "a" 0).
Proof.
  pose proof (X11_deletePattern_unlisted "a"
                (PatternStore.saveCurrentPattern
                   (PatternStore.initial "a" 0,
                    {| PatternStorage.db := false;
                       PatternStorage.store := ∅ |})).1
                (PatternStore.saveCurrentPattern
                   (PatternStore.initial "a" 0,
                    {| PatternStorage.db := false;
                       PatternStorage.store := ∅ |})).2) as H.
  simpl in H. simpl.
  destruct H as (H1 & _ & _ & H4 & _); [|by split].
  intros k p Hl. simpl in Hl.
  destruct (decide (k = "a")) as [->|Hne].
  - rewrite lookup_insert_eq in Hl. by inversion Hl.
  - rewrite lookup_insert_ne in Hl by done. by rewrite lookup_empty in Hl.
Defined.

(** X12. [duplicatePattern] gives the pattern a new [id], a new creation
    time and the name with [" (copy)"] appended, and keeps tempo, swing,
    tracks and steps; saved under an [id] not used before, the copy is
    listed beside every pattern that was stored, the original among
    them. *)
Theorem X12_duplicate_then_save (uuid : string) (now : Qc)
    (st : PatternStore.PatternState) (db : PatternStorage.t) :
  keyed db ->
  PatternStorage.store db !! uuid = None ->
  let st' := PatternStore.duplicatePattern uuid now st in
  let w := PatternStore.saveCurrentPattern (st', db) in
  Pattern.id (PatternStore.pattern st') = uuid
  /\ Pattern.created (PatternStore.pattern st') = now
  /\ Pattern.name (PatternStore.pattern st')
     = (Pattern.name (PatternStore.pattern st) ++ " (copy)")%string
  /\ Pattern.bpm (PatternStore.pattern st') = Pattern.bpm (PatternStore.pattern st)
  /\ Pattern.swing (PatternStore.pattern st')
     = Pattern.swing (PatternStore.pattern st)
  /\ Pattern.tracks (PatternStore.pattern st')
     = Pattern.tracks (PatternStore.pattern st)
  /\ Pattern.steps (PatternStore.pattern st')
     = Pattern.steps (PatternStore.pattern st)
  /\ PatternStore.pattern st' ∈ PatternStore.savedPatterns w.1
  /\ (forall k p, PatternStorage.store db !! k = Some p ->
        p ∈ PatternStore.savedPatterns w.1)
  /\ length (PatternStore.savedPatterns w.1)
     = S (size (PatternStorage.store db)).
Proof.
  intros Hk Hnew st' w.
  split; [done|]. split; [done|]. split; [done|]. split; [done|].
  split; [done|]. split; [done|]. split; [done|].
  destruct (loadSavedPatterns_fields st'
              (PatternStorage.savePattern (PatternStore.pattern st') db))
    as (Hl & _ & _).
  assert (w = PatternStore.loadSavedPatterns
                (st', PatternStorage.savePattern (PatternStore.pattern st') db))
    as Hw by done.
  clearbody w. subst w. rewrite Hl.
  assert (PatternStorage.store
            (PatternStorage.savePattern (PatternStore.pattern st') db)
          = <[uuid := PatternStore.pattern st']> (PatternStorage.store db))
    as Hst.
  { unfold PatternStorage.savePattern. simpl.
    by destruct (ensure_store db) as [-> _]. }
  split.
  { apply elem_of_getAllPatterns. exists uuid. rewrite Hst.
    apply lookup_insert_eq. }
  split.
  { intros k p Hin. apply elem_of_getAllPatterns. exists k. rewrite Hst.
    rewrite lookup_insert_ne; [done|]. intros <-. congruence. }
  destruct (X9_getAllPatterns_newest_first
              (PatternStorage.savePattern (PatternStore.pattern st') db))
    as (_ & _ & _ & -> & _).
  rewrite Hst. by rewrite map_size_insert_None.
Qed.

Lemma X12_duplicate_then_save_witness :
  let st' := PatternStore.duplicatePattern "b" 1 (PatternStore.initial "a" 0) in
  let w := PatternStore.saveCurrentPattern
             (st', {| PatternStorage.db := false; PatternStorage.store := ∅ |}) in
  Pattern.id (PatternStore.pattern st') = "b"
  /\ Pattern.name (PatternStore.pattern st') = "New Pattern (copy)"
  /\ PatternStore.pattern st' ∈ PatternStore.savedPatterns w.1.
Proof.
  destruct (X12_duplicate_then_save "b" 1 (PatternStore.initial "a" 0)
              {| PatternStorage.db := false; PatternStorage.store := ∅ |})
    as (H1 & _ & H3 & _ & _ & _ & _ & H8 & _).
  - intros k p H. simpl in H. by rewrite lookup_empty in H.
  - reflexivity.
  - split; [exact H1|]. split; [exact H3|]. exact H8.
Defined.

(** ** The audio engine and its synthesizers *)

Lemma base_setParameter key value x :
  BaseDrumSynth.parameters (Engine.base (Engine.setParameter key value x))
  = <[key := value]> (BaseDrumSynth.parameters (Engine.base x))
  /\ BaseDrumSynth.voices (Engine.base (Engine.setParameter key value x))
     = BaseDrumSynth.voices (Engine.base x)
  /\ BaseDrumSynth.heap (Engine.base (Engine.setParameter key value x))
     = BaseDrumSynth.heap (Engine.base x)
  /\ BaseDrumSynth.output_connected
       (Engine.base (Engine.setParameter key value x))
     = BaseDrumSynth.output_connected (Engine.base x).
Proof. by destruct x. Qed.

Lemma setParameters_list (l : list (string * Qc)) x :
  BaseDrumSynth.parameters
    (Engine.base (foldr (fun kv acc => Engine.setParameter kv.1 kv.2 acc) x l))
  = list_to_map l ∪ BaseDrumSynth.parameters (Engine.base x)
  /\ BaseDrumSynth.voices
       (Engine.base (foldr (fun kv acc => Engine.setParameter kv.1 kv.2 acc) x l))
     = BaseDrumSynth.voices (Engine.base x)
  /\ BaseDrumSynth.heap
       (Engine.base (foldr (fun kv acc => Engine.setParameter kv.1 kv.2 acc) x l))
     = BaseDrumSynth.heap (Engine.base x)
  /\ BaseDrumSynth.output_connected
       (Engine.base (foldr (fun kv acc => Engine.setParameter kv.1 kv.2 acc) x l))
     = BaseDrumSynth.output_connected (Engine.base x).
Proof.
  induction l as [|[k v] l (IH1 & IH2 & IH3 & IH4)]; simpl.
  - by rewrite (left_id_L ∅ (∪)).
  - destruct (base_setParameter k v
                (foldr (fun kv acc => Engine.setParameter kv.1 kv.2 acc) x l))
      as (-> & -> & -> & ->).
    rewrite IH1. by rewrite insert_union_l.
Qed.

Lemma setParameters_effect params x :
  BaseDrumSynth.parameters (Engine.base (Engine.setParameters params x))
  = params ∪ BaseDrumSynth.parameters (Engine.base x)
  /\ BaseDrumSynth.voices (Engine.base (Engine.setParameters params x))
     = BaseDrumSynth.voices (Engine.base x)
  /\ BaseDrumSynth.heap (Engine.base (Engine.setParameters params x))
     = BaseDrumSynth.heap (Engine.base x)
  /\ BaseDrumSynth.output_connected
       (Engine.base (Engine.setParameters params x))
     = BaseDrumSynth.output_connected (Engine.base x).
Proof.
  unfold Engine.setParameters.
  destruct (setParameters_list (map_to_list params) x) as (-> & -> & -> & ->).
  by rewrite list_to_map_to_list.
Qed.

Lemma getParameter_union key d params (b b' : BaseDrumSynth.t) :
  BaseDrumSynth.parameters b' = params ∪ BaseDrumSynth.parameters b ->
  BaseDrumSynth.getParameter key d b'
  = Num.nullish (params !! key) (BaseDrumSynth.getParameter key d b).
Proof.
  intros H. unfold BaseDrumSynth.getParameter. rewrite H.
  destruct (params !! key) as [v|] eqn:E; simpl.
  - by rewrite (lookup_union_Some_l _ _ _ _ E).
  - by rewrite lookup_union_r.
Qed.

(** X14. [updateSynthParams] writes every given parameter into the
    synthesizer registered under [synthType]: a parameter given is read
    back, one not given keeps its value; the voices of that synthesizer,
    the other synthesizers and the rest of the engine stay.  For a type
    that is not registered (or before [initialize]) it does nothing. *)
Theorem X14_updateSynthParams_read_back (synthType : string)
    (params : gmap string Qc) (e : Engine.t) :
  match Engine.synths e !! synthType with
  | None => Engine.updateSynthParams synthType params e = e
  | Some x =>
      exists x',
        Engine.synths (Engine.updateSynthParams synthType params e) !! synthType
        = Some x'
        /\ (forall key d,
              BaseDrumSynth.getParameter key d (Engine.base x')
              = Num.nullish (params !! key)
                  (BaseDrumSynth.getParameter key d (Engine.base x)))
        /\ BaseDrumSynth.voices (Engine.base x')
           = BaseDrumSynth.voices (Engine.base x)
        /\ BaseDrumSynth.heap (Engine.base x')
           = BaseDrumSynth.heap (Engine.base x)
        /\ (forall other, other <> synthType ->
              Engine.synths (Engine.updateSynthParams synthType params e) !! other
              = Engine.synths e !! other)
        /\ Engine.context (Engine.updateSynthParams synthType params e)
           = Engine.context e
        /\ Engine.masterGain (Engine.updateSynthParams synthType params e)
           = Engine.masterGain e
        /\ Engine.initialized (Engine.updateSynthParams synthType params e)
           = Engine.initialized e
  end.
Proof.
  unfold Engine.updateSynthParams.
  destruct (Engine.synths e !! synthType) as [x|] eqn:E; [|done].
  exists (Engine.setParameters params x). simpl.
  destruct (setParameters_effect params x) as (Hp & Hv & Hh & _).
  split; [apply lookup_insert_eq|].
  split; [intros key d; by apply getParameter_union|].
  split; [done|]. split; [done|].
  split; [intros other Hne; by apply lookup_insert_ne|]. done.
Qed.

(** X13. [initialize] on an engine that is not initialised creates the
    context and the master gain (at 0.8, connected to the destination),
    and registers under each of the eight keys a synthesizer with the
    defaults of its class, no voice, its output connected; entries under
    other keys stay; the engine is then initialised, and a second
    [initialize] does nothing. *)
Theorem X13_initialize_registers (e : Engine.t) :
  Engine.initialized e = false ->
  let e' := Engine.initialize e in
  Engine.initialized e' = true
  /\ Engine.context e' = Some {| Engine.time := 0; Engine.closed := false |}
  /\ Engine.masterGain e'
     = Some {| Engine.gain := Num.dec 0.8; Engine.to_destination := true |}
  /\ Forall (fun kd =>
               exists x,
                 Engine.synths e' !! kd.1 = Some x
                 /\ BaseDrumSynth.parameters (Engine.base x) = kd.2
                 /\ BaseDrumSynth.voices (Engine.base x) = ∅
                 /\ BaseDrumSynth.output_connected (Engine.base x) = true)
            registered
  /\ (forall key, key ∉ registered.*1 ->
        Engine.synths e' !! key = Engine.synths e !! key)
  /\ Engine.initialize e' = e'.
Proof.
  intros Hi e'. unfold e', Engine.initialize. rewrite Hi.
  unfold Engine.initializeSynths. simpl.
  split; [done|]. split; [done|]. split; [done|].
  split.
  { unfold registered.
    repeat (apply Forall_cons; split); [..|apply Forall_nil_2]; simpl.
    all: eexists; split;
      [rewrite ?lookup_insert_ne by done; apply lookup_insert_eq
      |by split]. }
  split; [|done].
  intros key Hk. rewrite !lookup_insert_ne; [done|..].
  all: intros <-; apply Hk; unfold registered; simpl; set_solver.
Qed.

Lemma X13_initialize_registers_witness :
  let e' := Engine.initialize Engine.new in
  Engine.initialized e' = true
  /\ dom (Engine.synths e')
     = list_to_set ["kick"; "snare"; "hihat"; "clap"; "rim"; "tom";
                    "perc1"; "perc2"].
Proof.
  destruct (X13_initialize_registers Engine.new) as (H1 & _); [reflexivity|].
  split; [exact H1|]. simpl. rewrite !dom_insert_L, dom_empty_L. set_solver.
Defined.

Lemma lookup_updateSynthParams ty params e key :
  Engine.synths (Engine.updateSynthParams ty params e) !! key
  = if decide (key = ty)
    then Engine.setParameters params <$> Engine.synths e !! ty
    else Engine.synths e !! key.
Proof.
  unfold Engine.updateSynthParams.
  destruct (Engine.synths e !! ty) as [x|] eqn:E; simpl.
  - destruct (decide (key = ty)) as [->|Hne].
    + apply lookup_insert_eq.
    + by apply lookup_insert_ne.
  - destruct (decide (key = ty)) as [->|Hne]; done.
Qed.

(** The loop of [initializeAudio] over the tracks. *)
Lemma updates_keep ty key (ts : list Track.t) : forall e x,
  Engine.synths e !! ty = Some x ->
  Forall (fun t => Track.synthType t = ty -> Track.synthParams t !! key = None)
         ts ->
  exists x',
    Engine.synths
      (foldl (fun e track =>
                Engine.updateSynthParams (Track.synthType track)
                  (Track.synthParams track) e) e ts) !! ty = Some x'
    /\ BaseDrumSynth.parameters (Engine.base x') !! key
       = BaseDrumSynth.parameters (Engine.base x) !! key.
Proof.
  induction ts as [|t ts IH]; intros e x Hx Hts; simpl; [by exists x|].
  apply Forall_cons in Hts as [Ht Hts].
  destruct (decide (Track.synthType t = ty)) as [Hty|Hne].
  - destruct (IH (Engine.updateSynthParams (Track.synthType t)
                    (Track.synthParams t) e)
                (Engine.setParameters (Track.synthParams t) x))
      as (x' & Hx' & Hp); [|done|].
    { rewrite lookup_updateSynthParams, Hty. rewrite decide_True by done.
      by rewrite Hx. }
    exists x'. split; [done|]. rewrite Hp.
    destruct (setParameters_effect (Track.synthParams t) x) as (-> & _).
    rewrite lookup_union_r; [done|]. by apply Ht.
  - destruct (IH (Engine.updateSynthParams (Track.synthType t)
                    (Track.synthParams t) e) x) as (x' & Hx' & Hp);
      [|done|by exists x'].
    rewrite lookup_updateSynthParams. by rewrite decide_False.
Qed.

Lemma updates_is_Some ty (ts : list Track.t) : forall e,
  is_Some (Engine.synths e !! ty) ->
  is_Some (Engine.synths
             (foldl (fun e track =>
                       Engine.updateSynthParams (Track.synthType track)
                         (Track.synthParams track) e) e ts) !! ty).
Proof.
  induction ts as [|t ts IH]; intros e Hx; simpl; [done|].
  apply IH. rewrite lookup_updateSynthParams.
  destruct (decide (ty = Track.synthType t)) as [->|]; [|done].
  destruct Hx as [x ->]. by eexists.
Qed.

Lemma updates_initialized (ts : list Track.t) : forall e,
  Engine.initialized
    (foldl (fun e track =>
              Engine.updateSynthParams (Track.synthType track)
                (Track.synthParams track) e) e ts)
  = Engine.initialized e.
Proof.
  induction ts as [|t ts IH]; intros e; simpl; [done|].
  rewrite IH. unfold Engine.updateSynthParams.
  by destruct (Engine.synths e !! Track.synthType t).
Qed.

Lemma initialize_registered e ty :
  Engine.initialized e = false ->
  ty ∈ registered.*1 ->
  is_Some (Engine.synths (Engine.initialize e) !! ty).
Proof.
  intros Hi Hty. unfold Engine.initialize. rewrite Hi.
  unfold Engine.initializeSynths. simpl.
  unfold registered in Hty. simpl in Hty.
  repeat (apply elem_of_cons in Hty as [->|Hty];
          [rewrite ?lookup_insert_ne by done; rewrite lookup_insert_eq;
           by eexists|]).
  by apply elem_of_nil in Hty.
Qed.

(** X15. [initializeAudio] initialises the engine and then writes the
    parameters of every track into the synthesizer of its type, in the
    order of the tracks: a parameter of a track is what its synthesizer
    holds afterwards unless a later track of the same type sets that
    parameter too (tracks of one type share one synthesizer).  Once
    [audioInitialized] is set the function does nothing. *)
Theorem X15_initializeAudio_parameters (p : Pattern.t) (e : Engine.t) (i : nat)
    (track : Track.t) (key : string) (v : Qc) :
  Engine.initialized e = false ->
  Pattern.tracks p !! i = Some track ->
  Track.synthType track ∈ registered.*1 ->
  Track.synthParams track !! key = Some v ->
  (forall j other,
     (i < j)%nat -> Pattern.tracks p !! j = Some other ->
     Track.synthType other = Track.synthType track ->
     Track.synthParams other !! key = None) ->
  let r := App.initializeAudio false p e in
  r.1 = true
  /\ Engine.initialized r.2 = true
  /\ (exists x,
        Engine.synths r.2 !! Track.synthType track = Some x
        /\ forall d, BaseDrumSynth.getParameter key d (Engine.base x) = v)
  /\ App.initializeAudio r.1 p r.2 = r.
Proof.
  intros Hi Ht Hreg Hv Hlater r. unfold r, App.initializeAudio. simpl.
  split; [done|].
  split.
  { rewrite updates_initialized. unfold Engine.initialize. by rewrite Hi. }
  split; [|done].
  rewrite <- (take_drop_middle _ _ _ Ht), foldl_app. simpl.
  set (e1 := foldl _ (Engine.initialize e) (take i (Pattern.tracks p))).
  assert (is_Some (Engine.synths e1 !! Track.synthType track)) as [x1 Hx1].
  { apply updates_is_Some. by apply initialize_registered. }
  destruct (updates_keep (Track.synthType track) key
              (drop (S i) (Pattern.tracks p))
              (Engine.updateSynthParams (Track.synthType track)
                 (Track.synthParams track) e1)
              (Engine.setParameters (Track.synthParams track) x1))
    as (x' & Hx' & Hp).
  { rewrite lookup_updateSynthParams. rewrite decide_True by done.
    by rewrite Hx1. }
  { apply Forall_forall. intros other Hin Hty.
    apply list_elem_of_lookup in Hin as [j Hj]. rewrite lookup_drop in Hj.
    eapply (Hlater (S i + j)%nat); [lia|done|done]. }
  exists x'. split; [done|]. intros d. unfold BaseDrumSynth.getParameter.
  rewrite Hp.
  destruct (setParameters_effect (Track.synthParams track) x1) as (-> & _).
  by rewrite (lookup_union_Some_l _ _ _ _ Hv).
Qed.

Lemma X15_initializeAudio_parameters_witness :
  let r := App.initializeAudio false (PatternStore.createDefaultPattern "a" 0)
             Engine.new in
  exists x,
    Engine.synths r.2 !! "hihat" = Some x
    /\ forall d,
         BaseDrumSynth.getParameter "decay" d (Engine.base x) = Num.dec 0.15.
Proof.
  destruct (X15_initializeAudio_parameters
              (PatternStore.createDefaultPattern "a" 0) Engine.new 3
              (PatternStore.defaultTrack "3" "Open HH" "hihat" (Num.dec 0.5)
                 (Num.int 8000) (Num.dec 0.15) (Num.dec 0.6))
              "decay" (Num.dec 0.15)) as (_ & _ & H & _).
  - reflexivity.
  - reflexivity.
  - apply (bool_decide_unpack _). by vm_compute.
  - reflexivity.
  - intros j other Hj Hl Hty.
    destruct j as [|[|[|[|[|[|[|[|j]]]]]]]]; try lia; simpl in Hl;
      inversion Hl; subst; discriminate Hty.
  - exact H.
Defined.

(** ** Tearing voices down *)

Lemma stop_node_disconnected t n :
  WebAudio.connected (BaseDrumSynth.stop_node t n) = false.
Proof. done. Qed.

Lemma stop_nodes_torn_down t voice : torn_down (BaseDrumSynth.stop_nodes t voice).
Proof.
  unfold torn_down. simpl. apply Forall_fmap, Forall_true. intros n.
  apply stop_node_disconnected.
Qed.

(** Stopping the voices of [l] one after the other leaves each of them
    with every node disconnected. *)
Lemma drum_stop_fold (l : list nat) : forall s,
  exists s',
    foldl (fun acc v =>
             match acc with
             | WebAudio.Normal s' =>
                 BaseDrumSynth.voice_stop v (BaseDrumSynth.now s') s'
             | WebAudio.Abrupt e => WebAudio.Abrupt e
             end) (WebAudio.Normal s) l = WebAudio.Normal s'
    /\ BaseDrumSynth.parameters s' = BaseDrumSynth.parameters s
    /\ BaseDrumSynth.fresh s' = BaseDrumSynth.fresh s
    /\ BaseDrumSynth.cleanups s' = BaseDrumSynth.cleanups s
    /\ dom (BaseDrumSynth.heap s') = dom (BaseDrumSynth.heap s)
    /\ (forall v, v ∈ BaseDrumSynth.voices s'
          <-> v ∈ BaseDrumSynth.voices s /\ v ∉ l)
    /\ (forall v voice,
          BaseDrumSynth.heap s' !! v = Some voice ->
          v ∈ l \/ (exists voice0, BaseDrumSynth.heap s !! v = Some voice0
                                   /\ torn_down voice0) ->
          torn_down voice).
Proof.
  induction l as [|v0 l IH]; intros s; simpl.
  - exists s. split; [done|]. split; [done|]. split; [done|]. split; [done|].
    split; [done|]. split; [set_solver|].
    intros v voice Hv [Hin|(voice0 & Hv0 & Ht)]; [by apply elem_of_nil in Hin|].
    congruence.
  - destruct (IH {| BaseDrumSynth.now := BaseDrumSynth.now s;
                    BaseDrumSynth.parameters := BaseDrumSynth.parameters s;
                    BaseDrumSynth.voices := BaseDrumSynth.voices s ∖ {[v0]};
                    BaseDrumSynth.heap :=
                      alter (BaseDrumSynth.stop_nodes (BaseDrumSynth.now s)) v0
                        (BaseDrumSynth.heap s);
                    BaseDrumSynth.fresh := BaseDrumSynth.fresh s;
                    BaseDrumSynth.cleanups := BaseDrumSynth.cleanups s;
                    BaseDrumSynth.trace :=
                      BaseDrumSynth.trace s
                      ++ BaseDrumSynth.stop_events v0 (BaseDrumSynth.now s)
                           (default [] (BaseDrumSynth.nodes
                                          <$> BaseDrumSynth.heap s !! v0));
                    BaseDrumSynth.output_connected :=
                      BaseDrumSynth.output_connected s |})
      as (s' & Hf & Hp & Hfr & Hcl & Hd & Hv & Ht).
    exists s'. split; [exact Hf|]. simpl in *.
    split; [done|]. split; [done|]. split; [done|].
    split; [by rewrite Hd, dom_alter_L|].
    split; [intros v; rewrite Hv; set_solver|].
    intros v voice Hl Hor. apply (Ht v voice Hl).
    destruct (decide (v = v0)) as [->|Hne].
    + right. rewrite lookup_alter_eq.
      assert (is_Some (BaseDrumSynth.heap s !! v0)) as [voice0 Hv0].
      { apply elem_of_dom. rewrite <- (dom_alter_L
          (BaseDrumSynth.stop_nodes (BaseDrumSynth.now s)) _ v0), <- Hd.
        apply elem_of_dom. by eexists. }
      rewrite Hv0. simpl. eexists. split; [done|]. apply stop_nodes_torn_down.
    + destruct Hor as [Hin|(voice0 & Hv0 & Htd)].
      * left. apply elem_of_cons in Hin as [?|?]; done.
      * right. exists voice0. by rewrite lookup_alter_ne.
Qed.

Lemma disposeDrum_effect (b : BaseDrumSynth.t) :
  exists b',
    Engine.disposeDrum b = WebAudio.Normal b'
    /\ BaseDrumSynth.voices b' = ∅
    /\ BaseDrumSynth.output_connected b' = false
    /\ BaseDrumSynth.parameters b' = BaseDrumSynth.parameters b
    /\ (forall v voice',
          v ∈ BaseDrumSynth.voices b ->
          BaseDrumSynth.heap b' !! v = Some voice' -> torn_down voice').
Proof.
  unfold Engine.disposeDrum.
  destruct (drum_stop_fold (merge_sort le (elements (BaseDrumSynth.voices b))) b)
    as (s' & -> & Hp & _ & _ & _ & _ & Ht).
  eexists. split; [done|]. simpl. split; [done|]. split; [done|].
  split; [done|]. intros v voice' Hv Hl. apply (Ht v voice' Hl). left.
  rewrite merge_sort_Permutation. by apply elem_of_elements.
Qed.

Lemma hat_stop_fold (l : list nat) : forall s,
  exists s',
    foldl (fun acc v =>
             match acc with
             | WebAudio.Normal s1 =>
                 HiHatSynth.voice_stop v
                   (BaseDrumSynth.now (HiHatSynth.base s1)) s1
             | WebAudio.Abrupt e => WebAudio.Abrupt e
             end) (WebAudio.Normal s) l = WebAudio.Normal s'
    /\ BaseDrumSynth.parameters (HiHatSynth.base s')
       = BaseDrumSynth.parameters (HiHatSynth.base s)
    /\ (forall v voice,
          BaseDrumSynth.heap (HiHatSynth.base s') !! v = Some voice ->
          v ∈ l \/ (exists voice0,
                      BaseDrumSynth.heap (HiHatSynth.base s) !! v = Some voice0
                      /\ torn_down voice0) ->
          torn_down voice).
Proof.
  induction l as [|v0 l IH]; intros s; simpl.
  - exists s. split; [done|]. split; [done|].
    intros v voice Hv [Hin|(voice0 & Hv0 & Ht)]; [by apply elem_of_nil in Hin|].
    congruence.
  - destruct (hat_voice_stop v0 (BaseDrumSynth.now (HiHatSynth.base s)) s)
      as (s1 & -> & _ & _ & Hh & _ & _ & Hp1 & _).
    destruct (IH s1) as (s' & Hf & Hp & Ht).
    exists s'. split; [exact Hf|]. split; [congruence|].
    intros v voice Hl Hor. apply (Ht v voice Hl). rewrite Hh.
    destruct (decide (v = v0)) as [->|Hne].
    + destruct Hor as [_|(voice0 & Hv0 & Htd)].
      * destruct (BaseDrumSynth.heap (HiHatSynth.base s) !! v0) as [voice0|]
          eqn:Hv0.
        -- right. rewrite lookup_alter_eq, Hv0. simpl. eexists.
           split; [done|]. apply stop_nodes_torn_down.
        -- right. exfalso.
           assert (v0 ∈ dom (BaseDrumSynth.heap (HiHatSynth.base s'))) as Hin
             by (apply elem_of_dom; by eexists).
           clear -Hf Hv0 Hh Hin.
           assert (forall l s1 s',
                     foldl (fun acc v =>
                       match acc with
                       | WebAudio.Normal s1 =>
                           HiHatSynth.voice_stop v
                             (BaseDrumSynth.now (HiHatSynth.base s1)) s1
                       | WebAudio.Abrupt e => WebAudio.Abrupt e
                       end) (WebAudio.Normal s1) l = WebAudio.Normal s' ->
                     dom (BaseDrumSynth.heap (HiHatSynth.base s'))
                     = dom (BaseDrumSynth.heap (HiHatSynth.base s1))) as Hdom.
           { clear. induction l as [|u l IH]; intros s1 s' Hf; simpl in Hf.
             - by inversion Hf.
             - destruct (hat_voice_stop u
                           (BaseDrumSynth.now (HiHatSynth.base s1)) s1)
                 as (s2 & E & _ & _ & Hh & _).
               rewrite E in Hf. rewrite (IH _ _ Hf), Hh.
               by rewrite dom_alter_L. }
           rewrite (Hdom _ _ _ Hf), Hh, dom_alter_L in Hin.
           apply elem_of_dom in Hin as [? Hin]. congruence.
      * right. rewrite lookup_alter_eq, Hv0. simpl. eexists.
        split; [done|]. apply stop_nodes_torn_down.
    + destruct Hor as [Hin|(voice0 & Hv0 & Htd)].
      * left. apply elem_of_cons in Hin as [?|?]; done.
      * right. exists voice0. by rewrite lookup_alter_ne.
Qed.

Lemma disposeHat_effect (h : HiHatSynth.t) :
  exists h',
    HiHatSynth.dispose h = WebAudio.Normal h'
    /\ BaseDrumSynth.voices (HiHatSynth.base h') = ∅
    /\ BaseDrumSynth.output_connected (HiHatSynth.base h') = false
    /\ BaseDrumSynth.parameters (HiHatSynth.base h')
       = BaseDrumSynth.parameters (HiHatSynth.base h)
    /\ (forall v voice',
          v ∈ BaseDrumSynth.voices (HiHatSynth.base h) ->
          BaseDrumSynth.heap (HiHatSynth.base h') !! v = Some voice' ->
          torn_down voice').
Proof.
  unfold HiHatSynth.dispose, HiHatSynth.stop_all.
  destruct (hat_stop_fold
              (merge_sort le (elements (BaseDrumSynth.voices (HiHatSynth.base h))))
              h) as (s' & -> & Hp & Ht).
  eexists. split; [done|]. simpl. split; [done|]. split; [done|].
  split; [done|]. intros v voice' Hv Hl. apply (Ht v voice' Hl). left.
  rewrite merge_sort_Permutation. by apply elem_of_elements.
Qed.

Lemma disposeSynth_effect (x : Engine.Synth) :
  exists x',
    Engine.disposeSynth x = WebAudio.Normal x'
    /\ BaseDrumSynth.voices (Engine.base x') = ∅
    /\ BaseDrumSynth.output_connected (Engine.base x') = false
    /\ BaseDrumSynth.parameters (Engine.base x')
       = BaseDrumSynth.parameters (Engine.base x)
    /\ (forall v voice',
          v ∈ BaseDrumSynth.voices (Engine.base x) ->
          BaseDrumSynth.heap (Engine.base x') !! v = Some voice' ->
          torn_down voice').
Proof.
  destruct x as [h|b]; simpl.
  - destruct (disposeHat_effect h) as (h' & -> & ?). by exists (Engine.Hat h').
  - destruct (disposeDrum_effect b) as (b' & -> & ?). by exists (Engine.Drum b').
Qed.

(** X16. [dispose] never raises.  It stops every voice of every
    synthesizer (all nodes of a voice that was sounding end up
    disconnected), disconnects the synthesizers, empties the map,
    disconnects the master gain and closes the context, keeping both
    objects, and clears [initialized]: the engine then answers every
    [triggerDrum] with the warning and sends nothing, until
    [initialize] is called again. *)
Theorem X16_dispose_releases (e : Engine.t) :
  exists e' disposed,
    Engine.dispose e = WebAudio.Normal (e', disposed)
    /\ Engine.synths e' = ∅
    /\ Engine.initialized e' = false
    /\ Engine.context e'
       = (fun c => {| Engine.time := Engine.time c; Engine.closed := true |})
           <$> Engine.context e
    /\ Engine.masterGain e'
       = (fun g => {| Engine.gain := Engine.gain g;
                      Engine.to_destination := false |})
           <$> Engine.masterGain e
    /\ (forall key,
          match Engine.synths e !! key with
          | None => disposed !! key = None
          | Some x =>
              exists x',
                disposed !! key = Some x'
                /\ BaseDrumSynth.voices (Engine.base x') = ∅
                /\ BaseDrumSynth.output_connected (Engine.base x') = false
                /\ BaseDrumSynth.parameters (Engine.base x')
                   = BaseDrumSynth.parameters (Engine.base x)
                /\ forall v voice',
                     v ∈ BaseDrumSynth.voices (Engine.base x) ->
                     BaseDrumSynth.heap (Engine.base x') !! v = Some voice' ->
                     torn_down voice'
          end)
    /\ (forall sent synthType velocity params s,
          audioEngine s = view e' sent ->
          exists s',
            triggerDrum synthType velocity params s = Ret tt s'
            /\ calls (audioEngine s') = sent
            /\ console s'
               = console s ++ [LogWarn "Audio engine not initialized"])
    /\ Engine.initialized (Engine.initialize e') = true.
Proof.
  unfold Engine.dispose.
  assert (exists disposed : gmap string Engine.Synth,
            map_fold (fun key x acc =>
                        match acc, Engine.disposeSynth x with
                        | WebAudio.Normal m, WebAudio.Normal x' =>
                            WebAudio.Normal (<[key := x']> m)
                        | WebAudio.Abrupt err, _ => WebAudio.Abrupt err
                        | _, WebAudio.Abrupt err => WebAudio.Abrupt err
                        end) (WebAudio.Normal ∅) (Engine.synths e)
            = WebAudio.Normal disposed
            /\ forall key,
                 match Engine.synths e !! key with
                 | None => disposed !! key = None
                 | Some x =>
                     exists x',
                       disposed !! key = Some x'
                       /\ Engine.disposeSynth x = WebAudio.Normal x'
                 end) as (disposed & -> & Hd).
  { apply (map_fold_weak_ind
             (fun r (m : gmap string Engine.Synth) =>
                exists disposed : gmap string Engine.Synth,
                  r = WebAudio.Normal disposed
                  /\ forall key,
                       match m !! key with
                       | None => disposed !! key = None
                       | Some x =>
                           exists x',
                             disposed !! key = Some x'
                             /\ Engine.disposeSynth x = WebAudio.Normal x'
                       end)).
    - exists ∅. split; [done|]. intros key. by rewrite !lookup_empty.
    - intros k x m r Hk (d & -> & Hd).
      destruct (disposeSynth_effect x) as (x' & Hx' & _). rewrite Hx'.
      eexists. split; [done|]. intros key.
      destruct (decide (key = k)) as [->|Hne].
      + rewrite !lookup_insert_eq. by exists x'.
      + rewrite !lookup_insert_ne by done. apply Hd. }
  eexists _, disposed. split; [done|]. simpl.
  split; [done|]. split; [done|]. split; [done|]. split; [done|].
  split.
  { intros key. specialize (Hd key).
    destruct (Engine.synths e !! key) as [x|]; [|done].
    destruct Hd as (x' & Hl & Hx).
    destruct (disposeSynth_effect x) as (x'' & Hx'' & H1 & H2 & H3 & H4).
    rewrite Hx in Hx''. inversion Hx''; subst. by exists x''. }
  split; [|done].
  intros sent synthType velocity params s Hs.
  unfold triggerDrum, console_put. rewrite Hs. simpl.
  destruct (Engine.context e); simpl; eexists; (split; [done|]);
    simpl; by rewrite Hs.
Qed.

(** X17. [setMasterVolume] sets the gain to the volume clamped to 0..1 and
    touches nothing else; before the master gain exists it does
    nothing. *)
Theorem X17_setMasterVolume_clamped (volume : Qc) (e : Engine.t) :
  match Engine.masterGain e with
  | None => Engine.setMasterVolume volume e = e
  | Some g =>
      exists g',
        Engine.masterGain (Engine.setMasterVolume volume e) = Some g'
        /\ 0 <= Engine.gain g' /\ Engine.gain g' <= 1
        /\ (0 <= volume -> volume <= 1 -> Engine.gain g' = volume)
        /\ (volume <= 0 -> Engine.gain g' = 0)
        /\ (1 <= volume -> Engine.gain g' = 1)
        /\ Engine.to_destination g' = Engine.to_destination g
        /\ Engine.synths (Engine.setMasterVolume volume e) = Engine.synths e
        /\ Engine.context (Engine.setMasterVolume volume e) = Engine.context e
        /\ Engine.initialized (Engine.setMasterVolume volume e)
           = Engine.initialized e
  end.
Proof.
  unfold Engine.setMasterVolume.
  destruct (Engine.masterGain e) as [g|]; [|done].
  eexists. split; [done|]. simpl.
  destruct (clamp_range 0 1 volume bounds_1) as [H1 H2].
  split; [done|]. split; [done|]. split; [apply clamp_id|].
  split; [apply clamp_below, bounds_1|].
  split; [apply clamp_above, bounds_1|]. done.
Qed.

(** ** The synthesizer controls *)

Lemma handleParameterChange_effect i track param value st e st' e' :
  Pattern.tracks (PatternStore.pattern st) !! i = Some track ->
  SynthControls.handleParameterChange i track param value (st, e)
  = Some (st', e') ->
  Pattern.tracks (PatternStore.pattern st')
  = <[i := PatternStore.set_synthParams
             (<[param := value]> (Track.synthParams track)) track]>
      (Pattern.tracks (PatternStore.pattern st))
  /\ e' = Engine.updateSynthParams (Track.synthType track)
            {[ param := value ]} e.
Proof.
  intros Ht H. unfold SynthControls.handleParameterChange in H. simpl in H.
  destruct (PatternStore.setSynthParameter i param value st) as [st1|] eqn:E;
    [|done].
  simpl in H. inversion H; subst. split; [|done].
  apply on_track_Some in E as (t & t' & Ht' & Hf & ->).
  rewrite Ht in Ht'. inversion Ht'; subst. by inversion Hf.
Qed.

(** X18. a change of a knob reaches the store and the engine: the track
    holds the new value, and so does the synthesizer of the track's
    type, so that every other track of that type which does not set the
    parameter itself (in its own parameters or in a step override) is
    triggered with the new value too; the other tracks of the store
    stay as they were. *)
Theorem X18_shared_synthesizer_parameter (i : nat) (track : Track.t)
    (param : string) (value : Qc)
    (st st' : PatternStore.PatternState) (e e' : Engine.t) :
  Pattern.tracks (PatternStore.pattern st) !! i = Some track ->
  is_Some (Engine.synths e !! Track.synthType track) ->
  SynthControls.handleParameterChange i track param value (st, e)
  = Some (st', e') ->
  (exists track',
     Pattern.tracks (PatternStore.pattern st') !! i = Some track'
     /\ Track.synthParams track' !! param = Some value
     /\ Track.synthType track' = Track.synthType track)
  /\ (forall j, j <> i ->
        Pattern.tracks (PatternStore.pattern st') !! j
        = Pattern.tracks (PatternStore.pattern st) !! j)
  /\ exists x',
       Engine.synths e' !! Track.synthType track = Some x'
       /\ (forall d,
             BaseDrumSynth.getParameter param d (Engine.base x') = value)
       /\ forall j other overrides d,
            j <> i ->
            Pattern.tracks (PatternStore.pattern st') !! j = Some other ->
            Track.synthType other = Track.synthType track ->
            spread (Track.synthParams other) overrides !! param = None ->
            BaseDrumSynth.param
              (Some (spread (Track.synthParams other) overrides)) param d
              (Engine.base x')
            = value.
Proof.
  intros Ht [x Hx] H.
  destruct (handleParameterChange_effect _ _ _ _ _ _ _ _ Ht H) as [Hts ->].
  split.
  { eexists. rewrite Hts.
    split; [apply list_lookup_insert_eq; by eapply lookup_lt_Some|].
    split; [apply lookup_insert_eq|done]. }
  split; [intros j Hne; rewrite Hts; by apply list_lookup_insert_ne|].
  exists (Engine.setParameters {[ param := value ]} x).
  split.
  { rewrite lookup_updateSynthParams. rewrite decide_True by done.
    by rewrite Hx. }
  assert (forall d,
            BaseDrumSynth.getParameter param d
              (Engine.base (Engine.setParameters {[param := value]} x))
            = value) as Hget.
  { intros d. rewrite (getParameter_union param d {[ param := value ]}
                         (Engine.base x)).
    - by rewrite lookup_singleton_eq.
    - apply setParameters_effect. }
  split; [done|].
  intros j other overrides d Hne Hj Hty Hnone.
  unfold BaseDrumSynth.param. simpl. rewrite Hnone. simpl. apply Hget.
Qed.

Lemma X18_shared_synthesizer_parameter_witness :
  let st := PatternStore.initial "a" 0 in
  let e := Engine.initialize Engine.new in
  exists st' e' x',
    SynthControls.handleParameterChange 2
      (PatternStore.defaultTrack "2" "Closed HH" "hihat" (Num.dec 0.6)
         (Num.int 8000) (Num.dec 0.05) (Num.dec 0.7))
      "color" (Num.int 6000) (st, e) = Some (st', e')
    /\ Engine.synths e' !! "hihat" = Some x'
    /\ forall d, BaseDrumSynth.getParameter "color" d (Engine.base x')
                 = Num.int 6000.
Proof.
  intros st e.
  destruct (X18_shared_synthesizer_parameter 2
              (PatternStore.defaultTrack "2" "Closed HH" "hihat" (Num.dec 0.6)
                 (Num.int 8000) (Num.dec 0.05) (Num.dec 0.7))
              "color" (Num.int 6000) st _ e _ eq_refl
              (mk_is_Some _ _ eq_refl) eq_refl)
    as (_ & _ & x' & Hx & Hg & _).
  eexists _, _, x'. split; [reflexivity|]. split; [exact Hx|exact Hg].
Defined.

(** ** The knob *)

Lemma midpoint_range (lo hi : Qc) :
  lo <= hi ->
  lo <= (lo + hi) / Num.int 2 /\ (lo + hi) / Num.int 2 <= hi.
Proof.
  intros H.
  assert ((lo + hi) / Num.int 2 * Num.int 2 = lo + hi) as E.
  { field. intros E. discriminate E. }
  set (m := (lo + hi) / Num.int 2) in *. clearbody m.
  apply Qc_eq_Q in E. split; to_Qz; lra.
Qed.

(** X20. a drag of a knob calls [onChange] with a value between [min]
    and [max], and with nothing when the knob is not being dragged; a
    double click gives the middle of the range, which lies within it;
    for [min < max] the pointer goes from -135 degrees at [min] to +135 at
    [max] and stays between them for the values in between. *)
Theorem X20_knob_in_range (startY startValue lo hi step clientY val : Qc) :
  lo <= hi ->
  (exists v,
     Knob.handleMouseMove true startY startValue lo hi step clientY = Some v
     /\ lo <= v /\ v <= hi)
  /\ Knob.handleMouseMove false startY startValue lo hi step clientY = None
  /\ lo <= Knob.handleDoubleClick lo hi
  /\ Knob.handleDoubleClick lo hi <= hi
  /\ (lo < hi ->
      Knob.valueToAngle lo hi lo = - Num.int 135
      /\ Knob.valueToAngle lo hi hi = Num.int 135
      /\ Knob.valueToAngle lo hi (Knob.handleDoubleClick lo hi) = 0
      /\ (lo <= val -> val <= hi ->
          - Num.int 135 <= Knob.valueToAngle lo hi val
          /\ Knob.valueToAngle lo hi val <= Num.int 135)).
Proof.
  intros H. split.
  { unfold Knob.handleMouseMove. simpl. eexists. split; [done|].
    by apply clamp_range. }
  split; [done|].
  destruct (midpoint_range lo hi H) as [H1 H2].
  split; [done|]. split; [done|].
  intros Hlt. unfold Knob.valueToAngle, Knob.handleDoubleClick.
  assert (hi - lo <> 0) as Hne.
  { intros E. apply (Qclt_not_le _ _ Hlt).
    replace hi with (hi - lo + lo) by ring. rewrite E.
    replace (0 + lo) with lo by ring. apply Qcle_refl. }
  assert (Num.int 270 = Num.int 135 + Num.int 135) as ->
    by (apply Qc_is_canon; by vm_compute).
  assert (Num.int 2 = 1 + 1) as -> by (apply Qc_is_canon; by vm_compute).
  cbv zeta.
  split; [field; done|]. split; [field; done|].
  split; [field; split; [intros E; discriminate E|done]|].
  intros Ha Hb.
  assert ((val - lo) / (hi - lo) * (hi - lo) = val - lo) as E by (by field).
  set (n := (val - lo) / (hi - lo)) in *. clearbody n.
  apply Qc_eq_Q in E.
  assert (0 <= n /\ n <= 1) as [Hn0 Hn1].
  { split.
    - destruct (Qclt_le_dec n 0) as [Hlt0|]; [|done]. exfalso.
      to_Qz. nra.
    - destruct (Qclt_le_dec 1 n) as [Hlt1|]; [|done]. exfalso.
      to_Qz. nra. }
  split; to_Qz; lra.
Qed.

Lemma X20_knob_in_range_witness :
  exists v,
    Knob.handleMouseMove true 100 (Num.int 60) (Num.int 20) (Num.int 200)
      (Num.dec 0.01) (Num.int (-900)) = Some v
    /\ Num.int 20 <= v /\ v <= Num.int 200.
Proof.
  destruct (X20_knob_in_range 100 (Num.int 60) (Num.int 20) (Num.int 200)
              (Num.dec 0.01) (Num.int (-900)) 0) as (H & _);
    [by vm_compute|exact H].
Defined.

Lemma handleParameterChange_store i track t param value st e :
  Pattern.tracks (PatternStore.pattern st) !! i = Some t ->
  exists st',
    SynthControls.handleParameterChange i track param value (st, e)
    = Some (st', Engine.updateSynthParams (Track.synthType track)
                   {[ param := value ]} e)
    /\ Pattern.tracks (PatternStore.pattern st')
       = <[i := PatternStore.set_synthParams
                 (<[param := value]> (Track.synthParams t)) t]>
          (Pattern.tracks (PatternStore.pattern st)).
Proof.
  intros Ht. unfold SynthControls.handleParameterChange,
    PatternStore.setSynthParameter, PatternStore.on_track. simpl.
  rewrite Ht. simpl. eexists. split; [done|]. done.
Qed.

(** The tables of [getParameterConfig]: no key twice, no empty range. *)
Lemma getParameterConfig_table synthType :
  NoDup (SynthControls.key <$> SynthControls.getParameterConfig synthType)
  /\ Forall (fun c => SynthControls.min c < SynthControls.max c)
            (SynthControls.getParameterConfig synthType).
Proof.
  unfold SynthControls.getParameterConfig.
  repeat (match goal with
          | |- context [if ?b then _ else _] => destruct b
          end);
    (split; [apply (bool_decide_unpack _); by vm_compute
            |repeat (apply Forall_cons; split); [..|apply Forall_nil_2];
             by vm_compute]).
Qed.

(** The loop of the reset button over a list of knobs. *)
Lemma reset_loop i track (l : list SynthControls.Config) : forall st e t x,
  Pattern.tracks (PatternStore.pattern st) !! i = Some t ->
  Engine.synths e !! Track.synthType track = Some x ->
  NoDup (SynthControls.key <$> l) ->
  exists st' e' t' x',
    foldl (fun acc param =>
             w ← acc;
             SynthControls.handleParameterChange i track
               (SynthControls.key param)
               ((SynthControls.min param + SynthControls.max param) / Num.int 2)
               w) (Some (st, e)) l = Some (st', e')
    /\ Pattern.tracks (PatternStore.pattern st') !! i = Some t'
    /\ Engine.synths e' !! Track.synthType track = Some x'
    /\ Track.synthType t' = Track.synthType t
    /\ Track.steps t' = Track.steps t
    /\ (forall j, j <> i ->
          Pattern.tracks (PatternStore.pattern st') !! j
          = Pattern.tracks (PatternStore.pattern st) !! j)
    /\ (forall c, c ∈ l ->
          Track.synthParams t' !! SynthControls.key c
          = Some ((SynthControls.min c + SynthControls.max c) / Num.int 2)
          /\ BaseDrumSynth.parameters (Engine.base x') !! SynthControls.key c
             = Some ((SynthControls.min c + SynthControls.max c) / Num.int 2))
    /\ (forall k, k ∉ SynthControls.key <$> l ->
          Track.synthParams t' !! k = Track.synthParams t !! k
          /\ BaseDrumSynth.parameters (Engine.base x') !! k
             = BaseDrumSynth.parameters (Engine.base x) !! k).
Proof.
  induction l as [|c l IH]; intros st e t x Ht Hx Hnd.
  - exists st, e, t, x. simpl. split; [done|]. split; [done|].
    split; [done|]. split; [done|]. split; [done|]. split; [done|].
    split; [intros c Hc; by apply elem_of_nil in Hc|done].
  - rewrite fmap_cons in Hnd. apply NoDup_cons in Hnd as [Hc Hnd].
    set (mid := (SynthControls.min c + SynthControls.max c) / Num.int 2).
    destruct (handleParameterChange_store i track t (SynthControls.key c) mid
                st e Ht) as (st1 & Hh & Hts).
    simpl. unfold mid in Hh. rewrite Hh. fold mid.
    destruct (IH st1
                (Engine.updateSynthParams (Track.synthType track)
                   {[ SynthControls.key c := mid ]} e)
                (PatternStore.set_synthParams
                   (<[SynthControls.key c := mid]> (Track.synthParams t)) t)
                (Engine.setParameters {[ SynthControls.key c := mid ]} x))
      as (st' & e' & t' & x' & Hf & Ht' & Hx' & Hty & Hst & Hoth & Hin & Hout).
    { rewrite Hts. apply list_lookup_insert_eq. by eapply lookup_lt_Some. }
    { rewrite lookup_updateSynthParams. rewrite decide_True by done.
      by rewrite Hx. }
    { done. }
    exists st', e', t', x'. split; [exact Hf|]. split; [done|].
    split; [done|]. split; [done|]. split; [done|].
    split.
    { intros j Hne. rewrite (Hoth j Hne), Hts.
      by apply list_lookup_insert_ne. }
    destruct (setParameters_effect {[ SynthControls.key c := mid ]} x)
      as (Hp & _).
    split.
    + intros c' Hc'. apply elem_of_cons in Hc' as [->|Hc']; [|by apply Hin].
      destruct (Hout (SynthControls.key c) Hc) as [-> ->]. simpl.
      rewrite lookup_insert_eq. split; [done|]. rewrite Hp.
      apply lookup_union_Some_l. apply lookup_singleton_eq.
    + intros k Hk. simpl in Hk. apply not_elem_of_cons in Hk as [Hk1 Hk2].
      destruct (Hout k Hk2) as [-> ->]. simpl.
      rewrite lookup_insert_ne by done. split; [done|]. rewrite Hp.
      rewrite lookup_union_r; [done|]. by apply lookup_singleton_ne.
Qed.

(** X19. "Reset to Default" puts every knob of the selected track at the
    middle of its range, in the store and in the synthesizer of the
    track's type; the knob then shows that value, which lies within the
    range; parameters without a knob, the steps of the track and the
    other tracks stay. *)
Theorem X19_reset_to_midpoint (i : nat) (track : Track.t)
    (st : PatternStore.PatternState) (e : Engine.t) :
  Pattern.tracks (PatternStore.pattern st) !! i = Some track ->
  is_Some (Engine.synths e !! Track.synthType track) ->
  exists st' e' track' x',
    SynthControls.reset i track (st, e) = Some (st', e')
    /\ Pattern.tracks (PatternStore.pattern st') !! i = Some track'
    /\ Engine.synths e' !! Track.synthType track = Some x'
    /\ Track.steps track' = Track.steps track
    /\ (forall j, j <> i ->
          Pattern.tracks (PatternStore.pattern st') !! j
          = Pattern.tracks (PatternStore.pattern st) !! j)
    /\ Forall (fun c =>
                 let mid := (SynthControls.min c + SynthControls.max c)
                            / Num.int 2 in
                 Track.synthParams track' !! SynthControls.key c = Some mid
                 /\ (forall d, BaseDrumSynth.getParameter (SynthControls.key c) d
                                 (Engine.base x') = mid)
                 /\ SynthControls.shown track' c = mid
                 /\ SynthControls.min c <= SynthControls.shown track' c
                 /\ SynthControls.shown track' c <= SynthControls.max c)
              (SynthControls.getParameterConfig (Track.synthType track))
    /\ (forall k,
          k ∉ SynthControls.key
                <$> SynthControls.getParameterConfig (Track.synthType track) ->
          Track.synthParams track' !! k = Track.synthParams track !! k).
Proof.
  intros Ht [x Hx].
  destruct (getParameterConfig_table (Track.synthType track)) as [Hnd Hrange].
  destruct (reset_loop i track
              (SynthControls.getParameterConfig (Track.synthType track))
              st e track x Ht Hx Hnd)
    as (st' & e' & t' & x' & Hf & Ht' & Hx' & Hty & Hst & Hoth & Hin & Hout).
  exists st', e', t', x'. split; [exact Hf|]. split; [done|]. split; [done|].
  split; [done|]. split; [done|]. split.
  - apply Forall_forall. intros c Hc. destruct (Hin c Hc) as [H1 H2].
    rewrite Forall_forall in Hrange. specialize (Hrange c Hc).
    assert (SynthControls.shown t' c
            = (SynthControls.min c + SynthControls.max c) / Num.int 2) as Hs.
    { unfold SynthControls.shown. by rewrite H1. }
    split; [done|].
    split; [intros d; unfold BaseDrumSynth.getParameter; by rewrite H2|].
    split; [done|]. rewrite Hs. apply midpoint_range.
    by apply Qclt_le_weak.
  - intros k Hk. by apply Hout.
Qed.

Lemma X19_reset_to_midpoint_witness :
  exists st' e' track',
    SynthControls.reset 0
      (PatternStore.defaultTrack "0" "Kick" "kick" 1 60 (Num.dec 0.5)
         (Num.dec 0.5))
      (PatternStore.initial "a" 0, Engine.initialize Engine.new)
    = Some (st', e')
    /\ Pattern.tracks (PatternStore.pattern st') !! 0%nat = Some track'
    /\ Track.synthParams track' !! "pitch" = Some (Num.int 110).
Proof.
  destruct (X19_reset_to_midpoint 0
              (PatternStore.defaultTrack "0" "Kick" "kick" 1 60 (Num.dec 0.5)
                 (Num.dec 0.5))
              (PatternStore.initial "a" 0) (Engine.initialize Engine.new)
              eq_refl (mk_is_Some _ _ eq_refl))
    as (st' & e' & track' & x' & H1 & H2 & _ & _ & _ & H6 & _).
  exists st', e', track'. split; [exact H1|]. split; [exact H2|].
  apply Forall_cons in H6 as [(H6 & _) _].
  etransitivity; [exact H6|]. f_equal. apply Qc_is_canon. by vm_compute.
Defined.

(** ** More on the scheduling loop *)











(** ** The step callback *)

Lemma triggerDrum_timeouts ty v ps s :
  exists s', triggerDrum ty v ps s = Ret tt s' /\ timeouts s' = timeouts s.
Proof.
  unfold triggerDrum, console_put.
  destruct (context (audioEngine s)); [|by eexists].
  destruct (negb _); [by eexists|]. destruct (negb _); by eexists.
Qed.

Lemma scheduleTrack_timeouts h step track s :
  exists s',
    state_of (scheduleTrack h step track s) = Some s'
    /\ timeouts s' = timeouts s.
Proof.
  unfold scheduleTrack, throw, ret.
  destruct (Track.steps track !! step) as [sd|]; [|by eexists].
  destruct (negb _); [by eexists|]. destruct (Track.mute track); [by eexists|].
  destruct (_ && _); [by eexists|].
  unfold bind, Math_random. simpl.
  destruct (Num.gtb _ _); [by eexists|].
  destruct (triggerDrum_timeouts (Track.synthType track)
              (StepData.velocity sd * Track.volume track)
              (Some (spread (Track.synthParams track) (StepData.parameters sd)))
              (set_drawn (S (drawn s)) s)) as (s' & -> & Ht).
  by exists s'.
Qed.

Lemma forEach_timeouts h step (tracks : list Track.t) : forall s,
  exists s',
    state_of (forEach (scheduleTrack h step) tracks s) = Some s'
    /\ timeouts s' = timeouts s.
Proof.
  induction tracks as [|t ts IH]; intros s; simpl; [by exists s|].
  unfold bind.
  destruct (scheduleTrack_timeouts h step t s) as (s1 & H1 & Ht1).
  destruct (scheduleTrack h step t s) as [[] s0|e s0|]; simpl in H1;
    [|by exists s1|done].
  inversion H1; subst. destruct (IH s1) as (s' & H' & Ht').
  exists s'. split; [done|]. congruence.
Qed.

(** X23. with a step callback installed, [scheduleStep] registers exactly
    one timeout for it, carrying the step, before any track is looked at
    (so also when a track then raises); its delay is the time left until
    the step is due less 10 ms, and 0 when less than 10 ms are left; for
    a step inside the look-ahead window it is below 90 ms.  Without a
    callback no timeout is registered. *)
Theorem X23_step_callback_timeout (p : Pattern.t) (step : nat) (time : Qc)
    (s : Sys) :
  pattern (sequencer s) = Some p ->
  exists s',
    state_of (scheduleStep step time s) = Some s'
    /\ timeouts s'
       = timeouts s
         ++ match onStepCallback (sequencer s) with
            | Some cb =>
                [{| to_callback := cb; to_step := step;
                    to_delay := Num.max 0 ((time - clock s) * 1000 - 10) |}]
            | None => []
            end
    /\ 0 <= Num.max 0 ((time - clock s) * 1000 - 10)
    /\ (time <= clock s + Num.dec 0.01 ->
        Num.max 0 ((time - clock s) * 1000 - 10) = 0)
    /\ (clock s + Num.dec 0.01 <= time ->
        Num.max 0 ((time - clock s) * 1000 - 10)
        = (time - clock s) * 1000 - 10)
    /\ (time < clock s + scheduleAheadTime ->
        Num.max 0 ((time - clock s) * 1000 - 10) < Num.int 90).
Proof.
  intros Hp. unfold scheduleStep. rewrite Hp.
  set (d := (time - clock s) * 1000 - 10).
  assert (exists s',
            state_of
              ((let! _ := match onStepCallback (sequencer s) with
                          | Some cb =>
                              let! now := getCurrentTime in
                              let uiDelay := Num.max 0 ((time - now) * 1000 - 10) in
                              setTimeout cb step uiDelay
                          | None => ret tt
                          end in
                forEach (scheduleTrack (existsb Track.solo (Pattern.tracks p))
                           step) (Pattern.tracks p)) s) = Some s'
            /\ timeouts s'
               = timeouts s
                 ++ match onStepCallback (sequencer s) with
                    | Some cb => [{| to_callback := cb; to_step := step;
                                     to_delay := Num.max 0 d |}]
                    | None => []
                    end) as (s' & Hs & Ht).
  { unfold bind. destruct (onStepCallback (sequencer s)) as [cb|].
    - unfold getCurrentTime, setTimeout. simpl.
      destruct (forEach_timeouts (existsb Track.solo (Pattern.tracks p)) step
                  (Pattern.tracks p)
                  (set_timeouts
                     (fun l => l ++ [{| to_callback := cb; to_step := step;
                                        to_delay := Num.max 0 d |}]) s))
        as (s' & H & Ht).
      by exists s'.
    - unfold ret. simpl.
      destruct (forEach_timeouts (existsb Track.solo (Pattern.tracks p)) step
                  (Pattern.tracks p) s) as (s' & H & Ht).
      exists s'. split; [done|]. by rewrite app_nil_r. }
  exists s'. split; [exact Hs|]. split; [exact Ht|].
  unfold scheduleAheadTime.
  assert (d = (time - clock s) * 1000 - 10) as Hd by done.
  clearbody d. set (c := clock s) in *. clearbody c.
  destruct (max_spec 0 d) as [[H1 ->]|[H1 ->]].
  - split; [by apply Qclt_le_weak|].
    split; [intros H; exfalso; subst d; to_Qz; lra|].
    split; [done|]. intros H. subst d. to_Qz. lra.
  - split; [apply Qcle_refl|]. split; [done|].
    split; [intros H; apply Qcle_antisym; [|done]; subst d; to_Qz; lra|].
    intros _. by vm_compute.
Qed.

Lemma X23_step_callback_timeout_witness :
  exists s',
    state_of (scheduleStep 3 (Num.dec 0.05)
                (begun (Scenario.fourOnTheFloor 0) (Some 7%nat)
                   (Scenario.fresh 0 (fun _ => 0)))) = Some s'
    /\ map (fun t => (to_callback t, to_step t, this (to_delay t))) (timeouts s')
       = [(7%nat, 3%nat, 40%Q)].
Proof.
  destruct (X23_step_callback_timeout (Scenario.fourOnTheFloor 0) 3 (Num.dec 0.05)
              (begun (Scenario.fourOnTheFloor 0) (Some 7%nat)
                 (Scenario.fresh 0 (fun _ => 0))) eq_refl)
    as (s' & H1 & H2 & _).
  exists s'. split; [exact H1|]. rewrite H2. by vm_compute.
Defined.

(** ** A pattern with a step missing *)




(** ** The kick synthesizer *)

Lemma kick_trigger_cases time velocity params (s : BaseDrumSynth.t) :
  let decay := BaseDrumSynth.param params "decay" (Num.dec 0.5) s in
  let endTime := time + decay + Num.dec 0.1 in
  let f := BaseDrumSynth.fresh s in
  (time < 0 /\ KickSynth.trigger time velocity params s
               = BaseDrumSynth.Raised "RangeError" s)
  \/ (0 <= time /\ endTime < 0
      /\ KickSynth.trigger time velocity params s
         = BaseDrumSynth.Raised "RangeError"
             (BaseDrumSynth.log_event (BaseDrumSynth.SourceStart f time)
                (BaseDrumSynth.log_event (BaseDrumSynth.SourceStart f time) s)))
  \/ (0 <= time /\ 0 <= endTime
      /\ exists voice,
           KickSynth.trigger time velocity params s
           = BaseDrumSynth.Done
               (BaseDrumSynth.add_voice voice
                  (BaseDrumSynth.log_event (BaseDrumSynth.SourceStart f time)
                     (BaseDrumSynth.log_event
                        (BaseDrumSynth.SourceStart f time) s)))
           /\ BaseDrumSynth.startTime voice = time
           /\ BaseDrumSynth.endTime voice = endTime
           /\ map WebAudio.kind (BaseDrumSynth.nodes voice) = kick_kinds
           /\ Forall (fun n => WebAudio.connected n = true)
                     (BaseDrumSynth.nodes voice)
           /\ map (fun n => (WebAudio.startedAt n, WebAudio.stopAt n))
                  (BaseDrumSynth.nodes voice)
              = [(Some time, Some endTime); (None, None);
                 (Some time, Some endTime); (None, None); (None, None);
                 (None, None); (None, None)]).
Proof.
  intros decay endTime f. unfold KickSynth.trigger.
  fold decay. unfold WebAudio.node_start, WebAudio.node_stop. simpl.
  destruct (Num.ltb time 0) eqn:Ht.
  - left. apply ltb_lt in Ht. done.
  - right. apply ltb_ge in Ht. fold endTime.
    destruct (Num.ltb endTime 0) eqn:He.
    + left. apply ltb_lt in He. done.
    + right. apply ltb_ge in He. split; [done|]. split; [done|].
      eexists. split; [done|]. simpl. split; [done|]. split; [done|].
      split; [done|]. split; [by repeat constructor|done].
Qed.

(** X25. what a trigger of the kick leaves behind.  With a negative
    [time] the call raises and nothing has changed.  For a [time] that is
    not negative and parameters the frequency and gain automation (which
    the model of the kick leaves out) accepts, that is a pitch other than
    0 and ramps that end at a time that is not negative, the call returns
    with one new voice of seven connected nodes, both oscillators running
    from [time] to [time + decay + 0.1], and a cleanup timer for it due
    100 ms after its end; the parameters stay. *)
Theorem X25_kick_trigger_outcomes (time velocity : Qc)
    (params : option SynthParameters) (s : BaseDrumSynth.t) :
  let pitch := BaseDrumSynth.param params "pitch" 60 s in
  let decay := BaseDrumSynth.param params "decay" (Num.dec 0.5) s in
  let pitchDecay := BaseDrumSynth.param params "pitchDecay" (Num.dec 0.05) s in
  let endTime := time + decay + Num.dec 0.1 in
  let f := BaseDrumSynth.fresh s in
  (time < 0 ->
   KickSynth.trigger time velocity params s
   = BaseDrumSynth.Raised "RangeError" s)
  /\ (0 <= time -> pitch <> 0 -> 0 <= time + pitchDecay -> 0 <= time + decay ->
      exists s' voice,
        KickSynth.trigger time velocity params s = BaseDrumSynth.Done s'
        /\ BaseDrumSynth.voices s' = {[f]} ∪ BaseDrumSynth.voices s
        /\ BaseDrumSynth.heap s' = <[f := voice]> (BaseDrumSynth.heap s)
        /\ BaseDrumSynth.fresh s' = S f
        /\ BaseDrumSynth.cleanups s'
           = BaseDrumSynth.cleanups s
             ++ [(f, (endTime - BaseDrumSynth.now s) * 1000 + 100)]
        /\ BaseDrumSynth.parameters s' = BaseDrumSynth.parameters s
        /\ BaseDrumSynth.startTime voice = time
        /\ BaseDrumSynth.endTime voice = endTime
        /\ map WebAudio.kind (BaseDrumSynth.nodes voice) = kick_kinds
        /\ Forall (fun n => WebAudio.connected n = true)
                  (BaseDrumSynth.nodes voice)
        /\ map (fun n => (WebAudio.startedAt n, WebAudio.stopAt n))
               (BaseDrumSynth.nodes voice)
           = [(Some time, Some endTime); (None, None);
              (Some time, Some endTime); (None, None); (None, None);
              (None, None); (None, None)]).
Proof.
  intros pitch decay pitchDecay endTime f.
  destruct (kick_trigger_cases time velocity params s)
    as [[Ht H]|[(Ht & He & H)|(Ht & He & voice & H & Hv)]].
  - split; [done|].
    intros Hge; exfalso; by apply Qclt_not_le in Ht.
  - split; [intros Hlt; exfalso; by apply Qclt_not_le in Hlt|].
    intros _ _ _ Hd. exfalso. fold decay in He.
    clearbody decay. to_Qz. lra.
  - split; [intros Hlt; exfalso; by apply Qclt_not_le in Hlt|].
    intros _ _ _ _. eexists _, voice. split; [exact H|]. simpl.
    destruct Hv as (H1 & H2 & H3 & H4 & H5). rewrite H2.
    split; [done|]. split; [done|]. split; [done|]. split; [done|].
    split; [done|]. split; [done|]. split; [done|]. split; [done|].
    split; [done|]. done.
Qed.

Lemma drum_stop_fold_kinds (l : list nat) : forall s s',
  foldl (fun acc v =>
           match acc with
           | WebAudio.Normal s' =>
               BaseDrumSynth.voice_stop v (BaseDrumSynth.now s') s'
           | WebAudio.Abrupt e => WebAudio.Abrupt e
           end) (WebAudio.Normal s) l = WebAudio.Normal s' ->
  forall v voice',
    BaseDrumSynth.heap s' !! v = Some voice' ->
    exists voice,
      BaseDrumSynth.heap s !! v = Some voice
      /\ map WebAudio.kind (BaseDrumSynth.nodes voice')
         = map WebAudio.kind (BaseDrumSynth.nodes voice).
Proof.
  induction l as [|v0 l IH]; intros s s' Hf v voice' Hv; simpl in Hf.
  - inversion Hf; subst. by exists voice'.
  - destruct (IH _ _ Hf v voice' Hv) as (voice1 & H1 & Hk). simpl in H1.
    destruct (decide (v = v0)) as [->|Hne].
    + rewrite lookup_alter_eq in H1.
      destruct (BaseDrumSynth.heap s !! v0) as [voice|]; [|done].
      simpl in H1. inversion H1; subst. exists voice. split; [done|].
      rewrite Hk. apply stop_nodes_kinds.
    + rewrite lookup_alter_ne in H1 by done. by exists voice1.
Qed.

Lemma accounted_new clock : accounted (KickSynth.new clock).
Proof.
  split.
  - intros v Hv. simpl in Hv. by apply elem_of_empty in Hv.
  - intros v voice Hv. simpl in Hv. by rewrite lookup_empty in Hv.
Qed.

Lemma accounted_ext (s s' : BaseDrumSynth.t) :
  BaseDrumSynth.voices s' = BaseDrumSynth.voices s ->
  BaseDrumSynth.heap s' = BaseDrumSynth.heap s ->
  BaseDrumSynth.fresh s' = BaseDrumSynth.fresh s ->
  BaseDrumSynth.cleanups s' = BaseDrumSynth.cleanups s ->
  accounted s -> accounted s'.
Proof. unfold accounted. by intros -> -> -> ->. Qed.

Lemma accounted_voice_stop v t s s' :
  accounted s ->
  BaseDrumSynth.voice_stop v t s = WebAudio.Normal s' ->
  accounted s'.
Proof.
  intros [A1 A2] H. inversion H; subst; clear H. split; simpl.
  - intros u Hu. apply elem_of_difference in Hu as [Hu Hne].
    rewrite lookup_alter_ne by (intros ->; apply Hne; by apply elem_of_singleton).
    by apply A1.
  - intros u voice Hu. destruct (decide (u = v)) as [->|Hne].
    + rewrite lookup_alter_eq in Hu.
      destruct (BaseDrumSynth.heap s !! v) as [voice0|] eqn:E; [|done].
      simpl in Hu. inversion Hu; subst.
      destruct (A2 v voice0 E) as (H1 & H2 & _).
      split; [done|]. split; [by rewrite stop_nodes_kinds|].
      intros _. apply stop_nodes_torn_down.
    + rewrite lookup_alter_ne in Hu by done.
      destruct (A2 u voice Hu) as (H1 & H2 & H3).
      split; [done|]. split; [done|]. intros Hn. apply H3.
      intros Hin. apply Hn. apply elem_of_difference. split; [done|].
      intros Hs. apply elem_of_singleton in Hs. done.
Qed.

Lemma accounted_step s s' : accounted s -> KickLife.step s s' -> accounted s'.
Proof.
  intros Ha Hstep. destruct Hstep as
    [time velocity params s s' H|time velocity params e s s' H|v s s' Hv H
    |s s' H| | |].
  - destruct (kick_trigger_cases time velocity params s)
      as [[_ H']|[(_ & _ & H')|(_ & _ & voice & H' & _ & _ & Hk & Hc & _)]];
      rewrite H' in H; try done.
    inversion H; subst; clear H. destruct Ha as [A1 A2]. split; simpl.
    + intros v Hv. apply elem_of_union in Hv as [Hv|Hv].
      * apply elem_of_singleton in Hv as ->. exists voice.
        rewrite lookup_insert_eq. split; [done|]. split; [done|].
        eexists. apply elem_of_app. right. constructor.
      * destruct (A1 v Hv) as (voice0 & H0 & Hcon & d & Hd).
        destruct (A2 v voice0 H0) as (Hlt & _).
        exists voice0. rewrite lookup_insert_ne by lia.
        split; [done|]. split; [done|]. exists d. apply elem_of_app. by left.
    + intros v voice0 Hv.
      destruct (decide (v = BaseDrumSynth.fresh s)) as [->|Hne].
      * rewrite lookup_insert_eq in Hv. inversion Hv; subst.
        split; [lia|]. split; [done|]. intros Hn. exfalso. apply Hn.
        apply elem_of_union. left. by apply elem_of_singleton.
      * rewrite lookup_insert_ne in Hv by done.
        destruct (A2 v voice0 Hv) as (H1 & H2 & H3).
        split; [lia|]. split; [done|]. intros Hn. apply H3. intros Hin.
        apply Hn. apply elem_of_union. by right.
  - destruct (kick_trigger_cases time velocity params s)
      as [[_ H']|[(_ & _ & H')|(_ & _ & voice & H' & _)]];
      rewrite H' in H; try done; inversion H; subst; clear H; [done|].
    by eapply accounted_ext; [..|exact Ha].
  - unfold KickSynth.cleanup in H. destruct (bool_decide _).
    + by eapply accounted_voice_stop.
    + by inversion H; subst.
  - unfold Engine.disposeDrum in H.
    destruct (drum_stop_fold
                (merge_sort le (elements (BaseDrumSynth.voices s))) s)
      as (s1 & Hf & _ & Hfr & Hcl & Hd & Hv & Ht).
    pose proof (drum_stop_fold_kinds _ _ _ Hf) as Hk.
    rewrite Hf in H. inversion H; subst; clear H.
    destruct Ha as [A1 A2]. split; simpl.
    + intros v Hin. by apply elem_of_empty in Hin.
    + intros v voice' Hl. destruct (Hk v voice' Hl) as (voice & H0 & Hkk).
      destruct (A2 v voice H0) as (H1 & H2 & H3).
      split; [by rewrite Hfr|]. split; [by rewrite Hkk|].
      intros _. apply (Ht v voice' Hl).
      destruct (decide (v ∈ BaseDrumSynth.voices s)) as [Hin|Hn].
      * left. rewrite merge_sort_Permutation. by apply elem_of_elements.
      * right. exists voice. split; [done|]. by apply H3.
  - by eapply accounted_ext; [..|exact Ha].
  - by eapply accounted_ext; [..|exact Ha].
  - by eapply accounted_ext; [..|exact Ha].
Qed.

Lemma reachable_accounted s : KickLife.reachable s -> accounted s.
Proof.
  intros [clock Hr]. revert s Hr. apply (rtc_ind_r accounted).
  - apply accounted_new.
  - intros s s' _ Hstep IH. by eapply accounted_step.
Qed.

(** X26. whatever a kick synthesizer has gone through (triggers that
    returned or raised, cleanup timers, [dispose], parameter changes),
    every voice in [this.voices] is a kick voice whose nodes are all
    connected and for which a cleanup timer was registered, and every
    voice that left the set has all its nodes disconnected; the cleanup
    timer of a voice, when it fires, removes that voice, disconnects its
    nodes and leaves the other voices alone, and fired again it does
    nothing. *)
Theorem X26_kick_voices_accounted (s : BaseDrumSynth.t) (v : nat) :
  KickLife.reachable s ->
  accounted s
  /\ exists s',
       KickSynth.cleanup v s = WebAudio.Normal s'
       /\ KickLife.reachable s'
       /\ (v ∉ BaseDrumSynth.voices s')
       /\ BaseDrumSynth.voices s' = BaseDrumSynth.voices s ∖ {[v]}
       /\ (forall voice', BaseDrumSynth.heap s' !! v = Some voice' ->
             torn_down voice')
       /\ (forall u, u <> v ->
             BaseDrumSynth.heap s' !! u = BaseDrumSynth.heap s !! u)
       /\ KickSynth.cleanup v s' = WebAudio.Normal s'.
Proof.
  intros Hr. pose proof (reachable_accounted s Hr) as Ha.
  split; [done|].
  unfold KickSynth.cleanup.
  destruct (decide (v ∈ BaseDrumSynth.voices s)) as [Hin|Hn].
  - rewrite bool_decide_eq_true_2 by done.
    eexists. split; [done|]. simpl.
    destruct Ha as [A1 A2]. destruct (A1 v Hin) as (voice & Hv & _).
    split.
    { destruct Hr as [clock Hr]. exists clock.
      eapply rtc_r; [exact Hr|].
      apply (KickLife.step_cleanup v); [apply elem_of_dom; by eexists|].
      unfold KickSynth.cleanup. by rewrite bool_decide_eq_true_2. }
    split; [set_solver|]. split; [done|].
    split.
    { intros voice'. rewrite lookup_alter_eq, Hv. simpl. intros [= <-].
      apply stop_nodes_torn_down. }
    split; [intros u Hne; by rewrite lookup_alter_ne|].
    rewrite bool_decide_eq_false_2; [done|set_solver].
  - rewrite bool_decide_eq_false_2 by done.
    exists s. split; [done|]. split; [done|]. split; [done|].
    split; [set_solver|].
    split.
    { intros voice' Hv. destruct Ha as [_ A2].
      destruct (A2 v voice' Hv) as (_ & _ & H3). by apply H3. }
    split; [done|]. by rewrite bool_decide_eq_false_2.
Qed.

Lemma X26_kick_voices_accounted_witness :
  let s := BaseDrumSynth.outcome_state
             (KickSynth.trigger 0 1 None (KickSynth.new 0)) in
  KickLife.reachable s
  /\ exists s',
       KickSynth.cleanup 0 s = WebAudio.Normal s'
       /\ BaseDrumSynth.voices s' = BaseDrumSynth.voices s ∖ {[0%nat]}.
Proof.
  intros s.
  assert (KickLife.reachable s) as Hr.
  { exists 0. eapply rtc_l; [|apply rtc_refl].
    apply (KickLife.step_trigger 0 1 None). reflexivity. }
  split; [exact Hr|].
  destruct (X26_kick_voices_accounted s 0 Hr) as (_ & s' & H1 & _ & _ & H4 & _).
  exists s'. split; [exact H1|exact H4].
Defined.

(** X27. [dispose] of a hi-hat synthesizer, in whatever state it is,
    returns with no voice left, the choke-group map empty and the output
    disconnected; every voice that was sounding has all its nodes
    disconnected; the noise buffer and the parameters stay, so the
    synthesizer can be triggered again. *)
Theorem X27_hat_dispose_clears (s : HiHatSynth.t) :
  HiHatSynth.reachable s ->
  exists s',
    HiHatSynth.dispose s = WebAudio.Normal s'
    /\ HiHatSynth.reachable s'
    /\ BaseDrumSynth.voices (HiHatSynth.base s') = ∅
    /\ HiHatSynth.activeChokeGroup s' = ∅
    /\ BaseDrumSynth.output_connected (HiHatSynth.base s') = false
    /\ HiHatSynth.noiseBuffer s' = true
    /\ BaseDrumSynth.parameters (HiHatSynth.base s')
       = BaseDrumSynth.parameters (HiHatSynth.base s)
    /\ (forall v voice',
          v ∈ BaseDrumSynth.voices (HiHatSynth.base s) ->
          BaseDrumSynth.heap (HiHatSynth.base s') !! v = Some voice' ->
          torn_down voice').
Proof.
  intros Hr.
  destruct (disposeHat_effect s) as (s' & Hd & Hv & Ho & Hp & Ht).
  assert (HiHatSynth.reachable s') as Hr'.
  { eapply reachable_step; [exact Hr|]. by apply HiHatSynth.step_dispose. }
  exists s'. split; [done|]. split; [done|]. split; [done|].
  split.
  { apply map_empty. intros g.
    destruct (HiHatSynth.activeChokeGroup s' !! g) as [v|] eqn:E; [|done].
    exfalso. destruct (reachable_consistent s' Hr') as (_ & I2 & _).
    destruct (I2 g v E) as [Hin _]. rewrite Hv in Hin.
    by apply elem_of_empty in Hin. }
  split; [done|]. split; [by apply reachable_noiseBuffer|]. done.
Qed.

Lemma X27_hat_dispose_clears_witness :
  let s := BaseDrumSynth.outcome_state
             (HiHatSynth.trigger 0 1 None (HiHatSynth.new 0)) in
  HiHatSynth.reachable s
  /\ exists s',
       HiHatSynth.dispose s = WebAudio.Normal s'
       /\ HiHatSynth.activeChokeGroup s' = ∅.
Proof.
  intros s.
  assert (HiHatSynth.reachable s) as Hr.
  { exists 0. eapply rtc_l; [|apply rtc_refl].
    apply (HiHatSynth.step_trigger 0 1 None). reflexivity. }
  split; [exact Hr|].
  destruct (X27_hat_dispose_clears s Hr) as (s' & H1 & _ & _ & H4 & _).
  exists s'. split; [exact H1|exact H4].
Defined.

(** ** Automation calls *)

Lemma createEnvelope_eq (time value duration : Qc) :
  AudioParam.createEnvelope time value (Num.dec 0.001) duration
  = if Num.ltb time 0 then Some "RangeError"
    else if Num.ltb (time + duration) 0 then Some "RangeError"
    else None.
Proof.
  unfold AudioParam.createEnvelope, AudioParam.setValueAtTime,
    AudioParam.exponentialRampToValueAtTime. simpl.
  destruct (Num.ltb time 0); [done|].
  by destruct (Num.ltb _ _).
Qed.

Lemma ramp_eq (value time : Qc) :
  AudioParam.exponentialRampToValueAtTime value time
  = if bool_decide (value = 0) then Some "RangeError"
    else if Num.ltb time 0 then Some "RangeError" else None.
Proof. done. Qed.

Lemma sum_nonneg_ltb (a b : Qc) : 0 <= a -> 0 <= b -> Num.ltb (a + b) 0 = false.
Proof. intros Ha Hb. apply ltb_ge. to_Q. lra. Qed.

(** ** The snare synthesizer *)

(** X28. a trigger of the snare either registers one complete voice or
    raises and leaves the synthesizer as it was.  It raises exactly when
    [time], [time + bodyDecay] or [time + noiseDecay] is negative.
    Otherwise the new voice has seven nodes and a cleanup timer; the body
    oscillator plays from [time] to
    [time + max(bodyDecay, noiseDecay) + 0.1] and the noise source from
    [time] to [time + noiseDecay + 0.1], which is within the voice; the
    element at [nodes.length - 4], the one the noise path is connected to
    the master gain through, is the noise source, and the noise gain (the
    sixth node) is connected to nothing. *)
Theorem X28_snare_trigger_outcomes (time velocity : Qc)
    (params : option SynthParameters) (s : BaseDrumSynth.t) :
  let bodyDecay := BaseDrumSynth.param params "bodyDecay" (Num.dec 0.12) s in
  let noiseDecay := BaseDrumSynth.param params "noiseDecay" (Num.dec 0.08) s in
  let endTime := time + Num.max bodyDecay noiseDecay + Num.dec 0.1 in
  let f := BaseDrumSynth.fresh s in
  (time < 0 \/ time + bodyDecay < 0 \/ time + noiseDecay < 0 ->
   SnareSynth.trigger true time velocity params s
   = BaseDrumSynth.Raised "RangeError" s)
  /\ (0 <= time -> 0 <= time + bodyDecay -> 0 <= time + noiseDecay ->
      exists s' voice,
        SnareSynth.trigger true time velocity params s = BaseDrumSynth.Done s'
        /\ BaseDrumSynth.voices s' = {[f]} ∪ BaseDrumSynth.voices s
        /\ BaseDrumSynth.heap s' = <[f := voice]> (BaseDrumSynth.heap s)
        /\ BaseDrumSynth.cleanups s'
           = BaseDrumSynth.cleanups s
             ++ [(f, (endTime - BaseDrumSynth.now s) * 1000 + 100)]
        /\ BaseDrumSynth.parameters s' = BaseDrumSynth.parameters s
        /\ BaseDrumSynth.startTime voice = time
        /\ BaseDrumSynth.endTime voice = endTime
        /\ map WebAudio.kind (BaseDrumSynth.nodes voice) = snare_kinds
        /\ map (fun n => (WebAudio.startedAt n, WebAudio.stopAt n))
               (BaseDrumSynth.nodes voice)
           = [(Some time, Some endTime); (None, None); (None, None);
              (Some time, Some (time + noiseDecay + Num.dec 0.1));
              (None, None); (None, None); (None, None)]
        /\ time + noiseDecay + Num.dec 0.1 <= endTime
        /\ (WebAudio.kind
              <$> BaseDrumSynth.nodes voice
                  !! (length (BaseDrumSynth.nodes voice) - 4)%nat)
           = Some WebAudio.AudioBufferSourceNode
        /\ map WebAudio.connected (BaseDrumSynth.nodes voice)
           = [true; true; true; true; true; false; true]).
Proof.
  intros bodyDecay noiseDecay endTime f.
  unfold SnareSynth.trigger. fold bodyDecay noiseDecay.
  rewrite !createEnvelope_eq.
  unfold AudioParam.setValueAtTime, WebAudio.node_start, WebAudio.node_stop.
  simpl.
  assert (time + noiseDecay + Num.dec 0.1 <= endTime) as Hle.
  { unfold endTime.
    destruct (max_spec bodyDecay noiseDecay) as [[H ->]|[H ->]].
    - apply Qcle_refl.
    - set (t1 := time) in *. clearbody t1. clearbody bodyDecay noiseDecay.
      to_Qz. lra. }
  destruct (Num.ltb time 0) eqn:Ht; simpl.
  { apply ltb_lt in Ht. split; [done|].
    intros Hge; exfalso; by apply Qclt_not_le in Ht. }
  apply ltb_ge in Ht.
  destruct (Num.ltb (time + bodyDecay) 0) eqn:Hb; simpl.
  { apply ltb_lt in Hb. split; [done|].
    intros _ Hge; exfalso; by apply Qclt_not_le in Hb. }
  apply ltb_ge in Hb.
  destruct (Num.ltb (time + noiseDecay) 0) eqn:Hn; simpl.
  { apply ltb_lt in Hn. split; [done|].
    intros _ _ Hge; exfalso; by apply Qclt_not_le in Hn. }
  apply ltb_ge in Hn.
  split.
  { intros [H|[H|H]]; exfalso; by apply Qclt_not_le in H. }
  intros _ _ _.
  assert (Num.ltb (time + noiseDecay + Num.dec 0.1) 0 = false) as ->.
  { apply sum_nonneg_ltb; [done|by vm_compute]. }
  simpl. fold endTime.
  assert (Num.ltb endTime 0 = false) as ->.
  { apply ltb_ge. eapply Qcle_trans; [|exact Hle].
    apply ltb_ge, sum_nonneg_ltb; [done|by vm_compute]. }
  eexists _, _. split; [done|]. simpl.
  split; [done|]. split; [done|]. split; [done|]. split; [done|].
  split; [done|]. split; [done|]. split; [done|]. split; [done|].
  split; [done|]. done.
Qed.

(** ** The clap synthesizer *)

(** What the loop over the layers keeps true of the nodes it has
    pushed, [total] being the number of layers: a node is connected
    unless it is a gain (those are connected after the loop), and a
    source is the source of a layer [j], started at [time + j * spread]
    and stopped [decay * (0.8 + 0.1 j) + 0.05] later. *)
Lemma layers_from_effect (time velocity pitch decay tone spread resonance : Qc)
    (total : nat)
    (P := fun node : WebAudio.AudioNode =>
            (WebAudio.connected node = true
             \/ WebAudio.kind node = WebAudio.GainNode)
            /\ (WebAudio.isAudioScheduledSourceNode (WebAudio.kind node) = true ->
                exists j : nat,
                  (j < total)%nat
                  /\ WebAudio.startedAt node
                     = Some (time + Num.int (Z.of_nat j) * spread)
                  /\ WebAudio.stopAt node
                     = Some (time + Num.int (Z.of_nat j) * spread
                             + decay * (Num.dec 0.8
                                        + Num.int (Z.of_nat j) * Num.dec 0.1)
                             + Num.dec 0.05))) :
  0 <= time -> 0 <= decay -> 0 <= spread ->
  forall n i nodes s,
    (i + n = total)%nat ->
    Forall P nodes ->
    exists nodes' s',
      ClapSynth.layers_from n i time velocity pitch decay tone spread resonance
        nodes s
      = BaseDrumSynth.Done (nodes', s')
      /\ Forall P nodes'
      /\ length nodes' = (length nodes + 3 * n)%nat
      /\ BaseDrumSynth.voices s' = BaseDrumSynth.voices s
      /\ BaseDrumSynth.heap s' = BaseDrumSynth.heap s
      /\ BaseDrumSynth.fresh s' = BaseDrumSynth.fresh s
      /\ BaseDrumSynth.cleanups s' = BaseDrumSynth.cleanups s
      /\ BaseDrumSynth.parameters s' = BaseDrumSynth.parameters s
      /\ BaseDrumSynth.now s' = BaseDrumSynth.now s.
Proof.
  intros Ht Hd Hs. induction n as [|n IH]; intros i nodes s Hi HP.
  - exists nodes, s. simpl. split; [done|]. split; [done|].
    split; [lia|]. done.
  - unfold ClapSynth.layers_from; fold ClapSynth.layers_from.
    rewrite createEnvelope_eq.
    unfold AudioParam.setValueAtTime, WebAudio.node_start, WebAudio.node_stop.
    cbv zeta.
    assert (0 <= Num.int (Z.of_nat i)) as Hi0.
    { to_Q. rewrite <- (Zle_Qle 0). lia. }
    remember (Num.int (Z.of_nat i)) as x eqn:Hx.
    assert (0 <= x * spread) as Hxs.
    { clear Hx. to_Qz. nra. }
    assert (0 <= decay * (Num.dec 0.8 + x * Num.dec 0.1)) as Hxd.
    { clear Hx. to_Qz. nra. }
    assert (Num.ltb (time + x * spread) 0 = false) as E1
      by (by apply sum_nonneg_ltb).
    assert (Num.ltb (time + x * spread
                     + decay * (Num.dec 0.8 + x * Num.dec 0.1)) 0 = false) as E2.
    { apply sum_nonneg_ltb; [|done]. by apply ltb_ge. }
    assert (Num.ltb (time + x * spread
                     + decay * (Num.dec 0.8 + x * Num.dec 0.1)
                     + Num.dec 0.05) 0 = false) as E3.
    { apply sum_nonneg_ltb; [by apply ltb_ge|by vm_compute]. }
    rewrite E1, E2. simpl. rewrite E3. simpl.
    rewrite length_app. simpl.
    replace (length nodes + 3 - 3)%nat with (length nodes + 0)%nat by lia.
    rewrite insert_app_r. simpl.
    edestruct (IH (S i)) as (nodes' & s' & -> & HP' & Hlen & Hrest);
      [lia| |].
    2:{ exists nodes', s'. split; [done|]. split; [done|].
        split; [rewrite Hlen, length_app; simpl; lia|]. exact Hrest. }
    apply Forall_app. split; [done|].
    repeat (apply Forall_cons; split); [..|apply Forall_nil_2]; unfold P; simpl.
    + split; [by left|]. intros _. exists i. split; [lia|]. by subst x.
    + split; [by left|]. done.
    + split; [by right|]. done.
Qed.

Lemma wire_node (b : bool) (node0 : WebAudio.AudioNode) :
  let node := match WebAudio.kind node0 with
              | WebAudio.GainNode => if b then node0 else WebAudio.connect node0
              | _ => node0
              end in
  WebAudio.kind node = WebAudio.kind node0
  /\ WebAudio.startedAt node = WebAudio.startedAt node0
  /\ WebAudio.stopAt node = WebAudio.stopAt node0
  /\ (WebAudio.connected node0 = true -> WebAudio.connected node = true)
  /\ (b = false -> WebAudio.kind node0 = WebAudio.GainNode ->
      WebAudio.connected node = true).
Proof. destruct node0 as [[] sa so c], b; simpl; by repeat split. Qed.

Lemma floor_nat (x : Qc) :
  0 <= x ->
  Math.floor x = Num.int (Z.of_nat (Z.to_nat (Qfloor x))) /\ Math.floor x <= x.
Proof.
  intros H. unfold Math.floor.
  assert (0 <= Qfloor x)%Z as Hz.
  { change 0%Z with (Qfloor 0). apply Qfloor_resp_le. by to_Q. }
  rewrite Z2Nat.id by done. split; [done|].
  to_Q. apply Qfloor_le.
Qed.

(** X29. a trigger of the clap with [time], [decay], [spread] and
    [layers] not negative returns with one new voice of three nodes for
    each of the [floor(layers)] layers and the master gain, all
    connected, and a cleanup timer for it.  With the parameters within
    the ranges of the clap's knobs (decay at most 0.3, spread at least
    0.01, at most 5 layers) every noise source plays within the voice:
    none is still playing when the voice ends. *)
Theorem X29_clap_layers_within_voice (time velocity : Qc)
    (params : option SynthParameters) (s : BaseDrumSynth.t) :
  let decay := BaseDrumSynth.param params "decay" (Num.dec 0.1) s in
  let layers := BaseDrumSynth.param params "layers" (Num.int 3) s in
  let spread := BaseDrumSynth.param params "spread" (Num.dec 0.02) s in
  let f := BaseDrumSynth.fresh s in
  0 <= time -> 0 <= decay -> 0 <= spread -> 0 <= layers ->
  exists s' voice,
    ClapSynth.trigger true time velocity params s = BaseDrumSynth.Done s'
    /\ BaseDrumSynth.voices s' = {[f]} ∪ BaseDrumSynth.voices s
    /\ BaseDrumSynth.heap s' = <[f := voice]> (BaseDrumSynth.heap s)
    /\ BaseDrumSynth.cleanups s'
       = BaseDrumSynth.cleanups s
         ++ [(f, (BaseDrumSynth.endTime voice - BaseDrumSynth.now s) * 1000
                 + 100)]
    /\ BaseDrumSynth.parameters s' = BaseDrumSynth.parameters s
    /\ BaseDrumSynth.startTime voice = time
    /\ BaseDrumSynth.endTime voice
       = time + decay + spread * Math.floor layers + Num.dec 0.1
    /\ length (BaseDrumSynth.nodes voice)
       = (3 * Z.to_nat (Qfloor layers) + 1)%nat
    /\ Forall (fun n => WebAudio.connected n = true) (BaseDrumSynth.nodes voice)
    /\ (decay <= Num.dec 0.3 -> Num.dec 0.01 <= spread -> layers <= Num.int 5 ->
        Forall (fun n =>
                  WebAudio.isAudioScheduledSourceNode (WebAudio.kind n) = true ->
                  plays_within voice n)
               (BaseDrumSynth.nodes voice)).
Proof.
  intros decay layers spread f Ht Hd Hs Hl.
  unfold ClapSynth.trigger. fold decay layers spread.
  cbn [negb].
  set (N := Z.to_nat (Qfloor layers)).
  destruct (layers_from_effect time velocity
              (BaseDrumSynth.param params "pitch" 1000 s) decay
              (BaseDrumSynth.param params "tone" (Num.dec 0.6) s) spread
              (BaseDrumSynth.param params "resonance" (Num.int 2) s)
              N Ht Hd Hs N 0 [] s)
    as (nodes & s1 & -> & HP & Hlen & Hv & Hh & Hf & Hc & Hp & Hn);
    [lia|constructor|].
  simpl in Hlen.
  unfold AudioParam.setValueAtTime.
  assert (Num.ltb time 0 = false) as -> by (by apply ltb_ge).
  eexists _, _. split; [done|]. simpl.
  rewrite Hv, Hh, Hf, Hc, Hp, Hn.
  split; [done|]. split; [done|]. split; [done|]. split; [done|].
  split; [done|]. split; [done|].
  set (final := alter WebAudio.connect _ _).
  cbn [BaseDrumSynth.nodes BaseDrumSynth.startTime BaseDrumSynth.endTime].
  assert (Hfinal : forall k node,
            final !! k = Some node ->
            exists node0,
              (nodes ++ [WebAudio.create WebAudio.GainNode]) !! k = Some node0
              /\ WebAudio.kind node = WebAudio.kind node0
              /\ WebAudio.startedAt node = WebAudio.startedAt node0
              /\ WebAudio.stopAt node = WebAudio.stopAt node0
              /\ (WebAudio.connected node0 = true
                  \/ WebAudio.kind node0 = WebAudio.GainNode ->
                  WebAudio.connected node = true)).
  { intros k node Hk. unfold final in Hk.
    rewrite length_imap in Hk.
    destruct (decide (k = (length (nodes ++ [WebAudio.create WebAudio.GainNode])
                           - 1)%nat)) as [->|Hne].
    - rewrite list_lookup_alter_eq, list_lookup_imap in Hk.
      destruct ((nodes ++ [WebAudio.create WebAudio.GainNode])
                  !! (length (nodes ++ [WebAudio.create WebAudio.GainNode]) - 1)%nat)
        as [node0|]; [|done].
      simpl in Hk. inversion Hk; subst. exists node0. split; [done|].
      destruct (wire_node (bool_decide
                  ((length (nodes ++ [WebAudio.create WebAudio.GainNode]) - 1)%nat
                   = (length (nodes ++ [WebAudio.create WebAudio.GainNode]) - 1)%nat))
                  node0) as (H1 & H2 & H3 & _).
      simpl. by rewrite H1, H2, H3.
    - rewrite list_lookup_alter_ne, list_lookup_imap in Hk by done.
      destruct ((nodes ++ [WebAudio.create WebAudio.GainNode]) !! k)
        as [node0|]; [|done].
      simpl in Hk. inversion Hk; subst. exists node0. split; [done|].
      rewrite bool_decide_eq_false_2 by done.
      destruct (wire_node false node0) as (H1 & H2 & H3 & H4 & H5).
      split; [done|]. split; [done|]. split; [done|].
      intros [?|?]; [by apply H4|by apply H5]. }
  assert (HP0 : Forall (fun node =>
                  (WebAudio.connected node = true
                   \/ WebAudio.kind node = WebAudio.GainNode)
                  /\ (WebAudio.isAudioScheduledSourceNode (WebAudio.kind node)
                      = true ->
                      exists j : nat,
                        (j < N)%nat
                        /\ WebAudio.startedAt node
                           = Some (time + Num.int (Z.of_nat j) * spread)
                        /\ WebAudio.stopAt node
                           = Some (time + Num.int (Z.of_nat j) * spread
                                   + decay * (Num.dec 0.8
                                              + Num.int (Z.of_nat j) * Num.dec 0.1)
                                   + Num.dec 0.05)))
                 (nodes ++ [WebAudio.create WebAudio.GainNode])).
  { apply Forall_app. split; [exact HP|].
    apply Forall_cons. split; [|apply Forall_nil_2]. simpl.
    split; [by right|done]. }
  split.
  { unfold final. rewrite length_alter, length_imap, length_app. simpl. lia. }
  split.
  { apply Forall_lookup. intros k node Hk.
    destruct (Hfinal k node Hk) as (node0 & H0 & _ & _ & _ & Hcon).
    apply Hcon. rewrite Forall_lookup in HP0. by destruct (HP0 k node0 H0). }
  intros Hd3 Hs1 Hl5.
  apply Forall_lookup. intros k node Hk Hsrc.
  destruct (Hfinal k node Hk) as (node0 & H0 & Hkind & Hsa & Hso & _).
  rewrite Forall_lookup in HP0. destruct (HP0 k node0 H0) as [_ Hj].
  rewrite Hkind in Hsrc. destruct (Hj Hsrc) as (j & HjN & Ha & Hb).
  unfold plays_within. simpl. rewrite Hsa, Hso, Ha, Hb.
  eexists _, _. split; [done|]. split; [done|].
  destruct (floor_nat layers Hl) as [HfN Hfl]. fold N in HfN.
  rewrite HfN.
  assert (Num.int (Z.of_nat N) <= Num.int 5) as HN5.
  { rewrite <- HfN. by eapply Qcle_trans. }
  assert (0 <= Num.int (Z.of_nat j)) as Hj0.
  { to_Q. rewrite <- (Zle_Qle 0). lia. }
  assert (Num.int (Z.of_nat j) + 1 <= Num.int (Z.of_nat N)) as Hj1.
  { to_Q. change 1%Q with (inject_Z 1). rewrite <- inject_Z_plus.
    rewrite <- Zle_Qle. lia. }
  set (x := Num.int (Z.of_nat j)) in *. set (n := Num.int (Z.of_nat N)) in *.
  clearbody x n. clearbody decay spread.
  assert (x * spread <= (n - 1) * spread) as H1 by (to_Qz; nra).
  assert (0 <= x * spread) as H2 by (to_Qz; nra).
  assert (decay * x <= decay * Num.int 4) as H3 by (to_Qz; nra).
  assert (0 <= decay * x) as H4 by (to_Qz; nra).
  assert (decay * (Num.dec 0.8 + x * Num.dec 0.1)
          = Num.dec 0.8 * decay + Num.dec 0.1 * (decay * x)) as -> by ring.
  assert (spread * n = (n - 1) * spread + spread) as -> by ring.
  set (a := x * spread) in *. set (b := (n - 1) * spread) in *.
  set (c := decay * x) in *. clearbody a b c.
  split; [|split]; to_Qz; lra.
Qed.

Lemma X29_clap_layers_within_voice_witness :
  exists s' voice,
    ClapSynth.trigger true 0 1 None (Engine.newDrum Engine.clapDefaults 0)
    = BaseDrumSynth.Done s'
    /\ BaseDrumSynth.heap s' !! 0%nat = Some voice
    /\ length (BaseDrumSynth.nodes voice) = 10%nat.
Proof.
  destruct (X29_clap_layers_within_voice 0 1 None
              (Engine.newDrum Engine.clapDefaults 0))
    as (s' & voice & H1 & _ & H3 & _ & _ & _ & _ & H8 & _);
    [by vm_compute|by vm_compute|by vm_compute|by vm_compute|].
  exists s', voice. split; [exact H1|]. split.
  - rewrite H3. apply lookup_insert_eq.
  - rewrite H8. reflexivity.
Defined.

(** ** The tom, rim and percussion synthesizers *)

Lemma scaled_zero (pitch k : Qc) : k <> 0 -> pitch * k = 0 -> pitch = 0.
Proof.
  intros Hk E. destruct (Qcmult_integral _ _ E); [done|by destruct Hk].
Qed.

Lemma offset_nonneg (time d : Qc) : 0 <= time -> 0 <= d -> 0 <= time + d.
Proof. intros. to_Q. lra. Qed.

Lemma not_both (x y : Qc) : x < y -> y <= x -> False.
Proof. intros H1 H2. by apply Qclt_not_le in H1. Qed.

Ltac absurd_case :=
  exfalso;
  first [ congruence
        | eapply not_both; eassumption ].

Ltac raised_case :=
  split; [done | intros; absurd_case].

Ltac registered_case :=
  split; [done|]; split; [reflexivity|]; simpl;
  repeat (split; [done|]); by repeat constructor.

Lemma tom_trigger_cases (time velocity : Qc) (params : option SynthParameters)
    (s : BaseDrumSynth.t) :
  let pitch := BaseDrumSynth.param params "pitch" (Num.int 150) s in
  let decay := BaseDrumSynth.param params "decay" (Num.dec 0.4) s in
  let pitchDecay := BaseDrumSynth.param params "pitchDecay" (Num.dec 0.08) s in
  let endTime := time + decay + Num.dec 0.1 in
  (time < 0 \/ pitch = 0 \/ time + pitchDecay < 0 \/ time + decay < 0 ->
   TomSynth.trigger time velocity params s = BaseDrumSynth.Raised "RangeError" s)
  /\ (0 <= time -> pitch <> 0 -> 0 <= time + pitchDecay -> 0 <= time + decay ->
      exists s' voice,
        TomSynth.trigger time velocity params s = BaseDrumSynth.Done s'
        /\ registered_voice s s' voice tom_kinds
        /\ BaseDrumSynth.startTime voice = time
        /\ BaseDrumSynth.endTime voice = endTime
        /\ map (fun n => (WebAudio.startedAt n, WebAudio.stopAt n))
               (BaseDrumSynth.nodes voice)
           = [(Some time, Some endTime); (None, None); (None, None);
              (Some time, Some endTime); (None, None); (None, None);
              (None, None)]).
Proof.
  intros pitch decay pitchDecay endTime.
  unfold TomSynth.trigger. fold pitch decay pitchDecay.
  rewrite !createEnvelope_eq, !ramp_eq.
  unfold AudioParam.setValueAtTime, WebAudio.node_start, WebAudio.node_stop.
  simpl. fold endTime.
  destruct (Num.ltb time 0) eqn:Ht; simpl.
  { apply ltb_lt in Ht. raised_case. }
  apply ltb_ge in Ht.
  case_bool_decide as Hp; simpl; [raised_case|].
  destruct (Num.ltb (time + pitchDecay) 0) eqn:Hpd; simpl.
  { apply ltb_lt in Hpd. raised_case. }
  apply ltb_ge in Hpd.
  destruct (Num.ltb (time + decay) 0) eqn:Hd; simpl.
  { apply ltb_lt in Hd. raised_case. }
  apply ltb_ge in Hd.
  split; [intros [H|[H|[H|H]]]; absurd_case|]. intros _ _ _ _.
  assert (Num.ltb (time + Num.dec 0.05) 0 = false) as ->.
  { apply sum_nonneg_ltb; [done|by vm_compute]. }
  simpl.
  assert (Num.ltb endTime 0 = false) as ->.
  { apply sum_nonneg_ltb; [done|by vm_compute]. }
  eexists _, _. split; [done|]. unfold registered_voice. simpl.
  split; [registered_case|]. done.
Qed.

Lemma rim_trigger_cases (time velocity : Qc) (params : option SynthParameters)
    (s : BaseDrumSynth.t) :
  let pitch := BaseDrumSynth.param params "pitch" (Num.int 400) s in
  let decay := BaseDrumSynth.param params "decay" (Num.dec 0.08) s in
  let endTime := time + decay + Num.dec 0.05 in
  (time < 0 \/ pitch = 0 \/ time + decay < 0 ->
   RimSynth.trigger time velocity params s = BaseDrumSynth.Raised "RangeError" s)
  /\ (0 <= time -> pitch <> 0 -> 0 <= time + decay ->
      exists s' voice,
        RimSynth.trigger time velocity params s = BaseDrumSynth.Done s'
        /\ registered_voice s s' voice tom_kinds
        /\ BaseDrumSynth.startTime voice = time
        /\ BaseDrumSynth.endTime voice = endTime
        /\ map (fun n => (WebAudio.startedAt n, WebAudio.stopAt n))
               (BaseDrumSynth.nodes voice)
           = [(Some time, Some endTime); (None, None); (None, None);
              (Some time, Some endTime); (None, None); (None, None);
              (None, None)]).
Proof.
  intros pitch decay endTime.
  unfold RimSynth.trigger. fold pitch decay.
  rewrite !createEnvelope_eq, !ramp_eq.
  unfold AudioParam.setValueAtTime, WebAudio.node_start, WebAudio.node_stop.
  simpl. fold endTime.
  destruct (Num.ltb time 0) eqn:Ht; simpl.
  { apply ltb_lt in Ht. raised_case. }
  apply ltb_ge in Ht.
  destruct (Num.ltb (time + decay) 0) eqn:Hd; simpl.
  { apply ltb_lt in Hd. raised_case. }
  apply ltb_ge in Hd.
  case_bool_decide as Hp; simpl.
  { apply scaled_zero in Hp; [|by vm_compute]. raised_case. }
  assert (pitch <> 0) as Hp0.
  { intros E. apply Hp. rewrite E. apply Qc_is_canon. by vm_compute. }
  split; [intros [H|[H|H]]; absurd_case|]. intros _ _ _.
  assert (Num.ltb (time + Num.dec 0.01) 0 = false) as ->.
  { apply sum_nonneg_ltb; [done|by vm_compute]. }
  assert (Num.ltb (time + Num.dec 0.02) 0 = false) as ->.
  { apply sum_nonneg_ltb; [done|by vm_compute]. }
  simpl.
  assert (Num.ltb endTime 0 = false) as ->.
  { apply sum_nonneg_ltb; [done|by vm_compute]. }
  eexists _, _. split; [done|]. unfold registered_voice. simpl.
  split; [registered_case|]. done.
Qed.

Lemma perc_trigger_cases (time velocity : Qc) (params : option SynthParameters)
    (s : BaseDrumSynth.t) :
  let pitch := BaseDrumSynth.param params "pitch" (Num.int 300) s in
  let decay := BaseDrumSynth.param params "decay" (Num.dec 0.12) s in
  let endTime := time + decay + Num.dec 0.05 in
  (time < 0 \/ pitch = 0 \/ time + decay < 0 ->
   PercSynth.trigger time velocity params s
   = BaseDrumSynth.Raised "RangeError" s)
  /\ (0 <= time -> pitch <> 0 -> 0 <= time + decay ->
      exists s' voice noiseSource,
        PercSynth.trigger time velocity params s = BaseDrumSynth.Done s'
        /\ registered_voice s s' voice perc_kinds
        /\ BaseDrumSynth.startTime voice = time
        /\ BaseDrumSynth.endTime voice = endTime
        /\ map (fun n => (WebAudio.startedAt n, WebAudio.stopAt n))
               (BaseDrumSynth.nodes voice)
           = [(Some time, Some endTime); (Some time, Some endTime);
              (None, None); (None, None); (None, None); (None, None);
              (None, None);
              (Some time, Some (time + decay * Num.dec 0.5 + Num.dec 0.05));
              (None, None); (None, None); (None, None)]
        /\ BaseDrumSynth.nodes voice !! 7%nat = Some noiseSource
        /\ (plays_within voice noiseSource <-> 0 <= decay)).
Proof.
  intros pitch decay endTime.
  unfold PercSynth.trigger. fold pitch decay.
  rewrite !createEnvelope_eq, !ramp_eq.
  unfold AudioParam.setValueAtTime, WebAudio.node_start, WebAudio.node_stop.
  simpl. fold endTime.
  destruct (Num.ltb time 0) eqn:Ht; simpl.
  { apply ltb_lt in Ht. raised_case. }
  apply ltb_ge in Ht.
  case_bool_decide as Hp; simpl.
  { apply scaled_zero in Hp; [|by vm_compute]. raised_case. }
  assert (pitch <> 0) as Hp0.
  { intros E. apply Hp. rewrite E. apply Qc_is_canon. by vm_compute. }
  destruct (Num.ltb (time + decay) 0) eqn:Hd.
  { apply ltb_lt in Hd.
    destruct (Num.ltb (time + decay * Num.dec 0.3) 0); simpl; raised_case. }
  apply ltb_ge in Hd.
  assert (Num.ltb (time + decay * Num.dec 0.3) 0 = false) as ->.
  { apply ltb_ge. clear - Ht Hd. clearbody decay. to_Qz. lra. }
  assert (Num.ltb (time + decay * Num.dec 0.5) 0 = false) as E5.
  { apply ltb_ge. clear - Ht Hd. clearbody decay. to_Qz. lra. }
  rewrite E5. simpl.
  split; [intros [H|[H|H]]; absurd_case|]. intros _ _ _.
  assert (Num.ltb endTime 0 = false) as ->.
  { apply sum_nonneg_ltb; [done|by vm_compute]. }
  assert (Num.ltb (time + decay * Num.dec 0.5 + Num.dec 0.05) 0 = false) as ->.
  { apply sum_nonneg_ltb; [by apply ltb_ge|by vm_compute]. }
  eexists _, _, _. split; [done|]. unfold registered_voice. simpl.
  split; [registered_case|].
  repeat (split; [done|]).
  unfold plays_within. simpl. split.
  - intros (a & b & Ha & Hb & H1 & H2 & H3).
    inversion Ha; inversion Hb; subst a b. unfold endTime in H3.
    clear - H3. clearbody decay. to_Qz. lra.
  - intros H0. eexists _, _. split; [done|]. split; [done|].
    unfold endTime. clear - H0. clearbody decay.
    split; [|split]; to_Qz; lra.
Qed.

(** X30. a trigger of the tom, the rim or the percussion synthesizer
    either registers one complete voice or raises a RangeError and leaves
    the synthesizer exactly as it was: no voice, no timer, no parameter
    changed.  It raises exactly when the time is negative, the pitch is 0
    (the target of an exponential ramp), or the time plus the decay (for
    the tom also the time plus the pitch decay) is negative.  Otherwise
    the voice has its nodes in the order of the [nodes] array, all
    connected, its oscillators playing from [time] to the end of the
    voice, and a cleanup timer 100 ms after that.  The noise source of a
    percussion voice plays within the voice if and only if the decay is
    not negative. *)
Theorem X30_tom_rim_perc_trigger_atomic (time velocity : Qc)
    (params : option SynthParameters) (s : BaseDrumSynth.t) :
  (let pitch := BaseDrumSynth.param params "pitch" (Num.int 150) s in
   let decay := BaseDrumSynth.param params "decay" (Num.dec 0.4) s in
   let pitchDecay := BaseDrumSynth.param params "pitchDecay" (Num.dec 0.08) s in
   let endTime := time + decay + Num.dec 0.1 in
   (time < 0 \/ pitch = 0 \/ time + pitchDecay < 0 \/ time + decay < 0 ->
    TomSynth.trigger time velocity params s
    = BaseDrumSynth.Raised "RangeError" s)
   /\ (0 <= time -> pitch <> 0 -> 0 <= time + pitchDecay -> 0 <= time + decay ->
       exists s' voice,
         TomSynth.trigger time velocity params s = BaseDrumSynth.Done s'
         /\ registered_voice s s' voice tom_kinds
         /\ BaseDrumSynth.startTime voice = time
         /\ BaseDrumSynth.endTime voice = endTime
         /\ map (fun n => (WebAudio.startedAt n, WebAudio.stopAt n))
                (BaseDrumSynth.nodes voice)
            = [(Some time, Some endTime); (None, None); (None, None);
               (Some time, Some endTime); (None, None); (None, None);
               (None, None)]))
  /\ (let pitch := BaseDrumSynth.param params "pitch" (Num.int 400) s in
      let decay := BaseDrumSynth.param params "decay" (Num.dec 0.08) s in
      let endTime := time + decay + Num.dec 0.05 in
      (time < 0 \/ pitch = 0 \/ time + decay < 0 ->
       RimSynth.trigger time velocity params s
       = BaseDrumSynth.Raised "RangeError" s)
      /\ (0 <= time -> pitch <> 0 -> 0 <= time + decay ->
          exists s' voice,
            RimSynth.trigger time velocity params s = BaseDrumSynth.Done s'
            /\ registered_voice s s' voice tom_kinds
            /\ BaseDrumSynth.startTime voice = time
            /\ BaseDrumSynth.endTime voice = endTime
            /\ map (fun n => (WebAudio.startedAt n, WebAudio.stopAt n))
                   (BaseDrumSynth.nodes voice)
               = [(Some time, Some endTime); (None, None); (None, None);
                  (Some time, Some endTime); (None, None); (None, None);
                  (None, None)]))
  /\ (let pitch := BaseDrumSynth.param params "pitch" (Num.int 300) s in
      let decay := BaseDrumSynth.param params "decay" (Num.dec 0.12) s in
      let endTime := time + decay + Num.dec 0.05 in
      (time < 0 \/ pitch = 0 \/ time + decay < 0 ->
       PercSynth.trigger time velocity params s
       = BaseDrumSynth.Raised "RangeError" s)
      /\ (0 <= time -> pitch <> 0 -> 0 <= time + decay ->
          exists s' voice noiseSource,
            PercSynth.trigger time velocity params s = BaseDrumSynth.Done s'
            /\ registered_voice s s' voice perc_kinds
            /\ BaseDrumSynth.startTime voice = time
            /\ BaseDrumSynth.endTime voice = endTime
            /\ map (fun n => (WebAudio.startedAt n, WebAudio.stopAt n))
                   (BaseDrumSynth.nodes voice)
               = [(Some time, Some endTime); (Some time, Some endTime);
                  (None, None); (None, None); (None, None); (None, None);
                  (None, None);
                  (Some time,
                   Some (time + decay * Num.dec 0.5 + Num.dec 0.05));
                  (None, None); (None, None); (None, None)]
            /\ BaseDrumSynth.nodes voice !! 7%nat = Some noiseSource
            /\ (plays_within voice noiseSource <-> 0 <= decay))).
Proof.
  split; [apply tom_trigger_cases|].
  split; [apply rim_trigger_cases|apply perc_trigger_cases].
Qed.

Lemma X30_tom_rim_perc_trigger_atomic_witness :
  (exists s',
     TomSynth.trigger 0 1 None (Engine.newDrum Engine.tomDefaults 0)
     = BaseDrumSynth.Done s')
  /\ (exists s',
        RimSynth.trigger 0 1 None (Engine.newDrum Engine.rimDefaults 0)
        = BaseDrumSynth.Done s')
  /\ (exists s',
        PercSynth.trigger 0 1 None (Engine.newDrum Engine.percDefaults 0)
        = BaseDrumSynth.Done s').
Proof.
  split; [|split].
  - destruct (X30_tom_rim_perc_trigger_atomic 0 1 None
                (Engine.newDrum Engine.tomDefaults 0)) as [[_ H] _].
    destruct H as (s' & _ & H & _);
      [by vm_compute
      |intros E; apply Qc_eq_Q in E; by vm_compute in E
      |by vm_compute|by vm_compute|].
    by exists s'.
  - destruct (X30_tom_rim_perc_trigger_atomic 0 1 None
                (Engine.newDrum Engine.rimDefaults 0)) as [_ [[_ H] _]].
    destruct H as (s' & _ & H & _);
      [by vm_compute
      |intros E; apply Qc_eq_Q in E; by vm_compute in E
      |by vm_compute|].
    by exists s'.
  - destruct (X30_tom_rim_perc_trigger_atomic 0 1 None
                (Engine.newDrum Engine.percDefaults 0)) as [_ [_ [_ H]]].
    destruct H as (s' & _ & _ & H & _);
      [by vm_compute
      |intros E; apply Qc_eq_Q in E; by vm_compute in E
      |by vm_compute|].
    by exists s'.
Defined.
